(** * Plaid Shell: tokenizer, parser, pipeline rendering and executor

    A shallow embedding of the shell's core (tokenize.c, parse.c and
    pipeline.c) together with the properties its specification states.

    Conventions.
    - A C string is the [string] of its characters before the terminating
      NUL; reading [*p] at the end of the string yields that NUL.  A pointer
      into a string is the suffix it points at, so the difference of two
      pointers into one buffer is a difference of lengths.
    - The error buffers (128 or 256 bytes at every call site) are taken to be
      large enough for each message, so [snprintf(errmsg, ...)] stores the
      whole message.
    - Failed [assert]s and accesses outside a buffer are outcomes of their
      own, never silently ignored. *)

From Stdlib Require Import ZArith List String Ascii Bool Arith Lia.
Import ListNotations.

Local Open Scope string_scope.
Local Open Scope list_scope.

(** ** Characters and C strings *)

Definition NUL : ascii := "000"%char.
Definition dquote : ascii := "034"%char.
Definition backslash : ascii := "\"%char.
Definition space : ascii := " "%char.

(** [*p]: the character a pointer designates, NUL at the end. *)
Definition deref (p : string) : ascii :=
  match p with
  | EmptyString => NUL
  | String c _ => c
  end.

(** [strndup(s, n)]: the first [n] characters of [s], fewer when [s] ends. *)
Fixpoint strndup (s : string) (n : nat) {struct n} : string :=
  match n, s with
  | O, _ => EmptyString
  | S _, EmptyString => EmptyString
  | S n', String c s' => String c (strndup s' n')
  end.

(** What ["%c"] leaves in a C string: nothing readable for NUL. *)
Definition fmt_char (c : ascii) : string :=
  if Ascii.eqb c NUL then EmptyString else String c EmptyString.

(** [isspace] in the C locale: space, \t, \n, \v, \f, \r. *)
Definition isspace (ch : ascii) : bool :=
  let n := nat_of_ascii ch in
  Nat.eqb n 32 || (Nat.leb 9 n && Nat.leb n 13).

(** ** Tokens (token.h) *)

Inductive TokenType : Type :=
| TOK_WORD
| TOK_QUOTED_WORD
| TOK_LESSTHAN
| TOK_GREATERTHAN
| TOK_PIPE
| TOK_END.

Record Token : Type := mkToken {
  type : TokenType;
  value : option string
}.

Definition TokenType_eqb (a b : TokenType) : bool :=
  match a, b with
  | TOK_WORD, TOK_WORD | TOK_QUOTED_WORD, TOK_QUOTED_WORD
  | TOK_LESSTHAN, TOK_LESSTHAN | TOK_GREATERTHAN, TOK_GREATERTHAN
  | TOK_PIPE, TOK_PIPE | TOK_END, TOK_END => true
  | _, _ => false
  end.

(** The compound literal [(Token){tt}]: no value. *)
Definition TOK_op (tt : TokenType) : Token := mkToken tt None.

(** ** Tokenizer (tokenize.c) *)

Module Tokenize.

Definition TT_to_str (tt : TokenType) : string :=
  match tt with
  | TOK_WORD => "WORD"
  | TOK_QUOTED_WORD => "QUOTED_WORD"
  | TOK_LESSTHAN => "LESSTHAN"
  | TOK_GREATERTHAN => "GREATERTHAN"
  | TOK_PIPE => "PIPE"
  | TOK_END => "(end)"
  end.

Definition isescape (ch : ascii) : bool :=
  Ascii.eqb ch "n" || Ascii.eqb ch "r" || Ascii.eqb ch "t" ||
  Ascii.eqb ch space || Ascii.eqb ch dquote || Ascii.eqb ch ">" ||
  Ascii.eqb ch "<" || Ascii.eqb ch "|" || Ascii.eqb ch backslash.

(** [TOK_nnew]: a zero [len] means the whole string. *)
Definition TOK_nnew (tt : TokenType) (value : string) (len : nat) : Token :=
  match tt with
  | TOK_WORD | TOK_QUOTED_WORD =>
      let len := if Nat.eqb len 0 then String.length value else len in
      mkToken tt (Some (strndup value len))
  | _ => mkToken tt None
  end.

Definition TOK_new (tt : TokenType) (value : string) : Token :=
  TOK_nnew tt value (String.length value).

(** [q - p] for two pointers into the same string. *)
Definition ptrdiff (q p : string) : nat := String.length p - String.length q.

Inductive LexResult : Type :=
| Tokens (tokens : list Token)
| LexError (errmsg : string)
| OutOfFuel.

Definition illegal_escape (c : ascii) : string :=
  ("Illegal escape character " ++ fmt_char c)%string.

(** The inner loop of the quoted branch: it runs while [*input] is neither
    NUL nor the double quote, reads [ch = *input++] and fails when [ch] is a
    backslash and [*input] is no escape character.  The result is the place
    where the loop stopped, or the character of the illegal escape. *)
Fixpoint scan_quoted (input : string) : string + ascii :=
  match input with
  | EmptyString => inl input
  | String ch rest =>
      if Ascii.eqb ch dquote then inl input
      else if Ascii.eqb ch backslash && negb (isescape (deref rest))
           then inr (deref rest)
           else scan_quoted rest
  end.

(** [if (start) CL_append(tokens, TOK_nnew(TOK_WORD, start, input - start))] *)
Definition flush_word (tokens : list Token) (start : option string)
    (input : string) : list Token :=
  match start with
  | Some st => tokens ++ [TOK_nnew TOK_WORD st (ptrdiff input st)]
  | None => tokens
  end.

(** The tail of every iteration once [input] has been advanced:
    [if (!*input && start) { append the last word; start = NULL; }]
    followed by the next evaluation of the loop condition. *)
Definition end_of_line (tokens : list Token) (start : option string)
    (input : string) : list Token * option string :=
  match input, start with
  | EmptyString, Some st =>
      (tokens ++ [TOK_nnew TOK_WORD st (ptrdiff input st + 1)], None)
  | _, _ => (tokens, start)
  end.

(** One turn of the main loop [while ( *input )]: either the function
    returns, or the loop goes on from a new [input], [start] and list. *)
Inductive StepResult : Type :=
| Stop (result : LexResult)
| Continue (input : string) (start : option string) (tokens : list Token).

Definition tokenize_step (input : string) (start : option string)
    (tokens : list Token) : StepResult :=
  match input with
  | EmptyString => Stop (Tokens tokens)
  | String ch rest =>
      if Ascii.eqb ch dquote then
        (* end of WORD: unescaped double quote *)
        let tokens1 := flush_word tokens start input in
        match scan_quoted rest with
        | inr c => Stop (LexError (illegal_escape c))
        | inl EmptyString => Stop (LexError "Unterminated quote")
        | inl (String _ after as stop) =>
            let len := ptrdiff stop input + 1 in
            let tokens2 := tokens1 ++ [TOK_nnew TOK_QUOTED_WORD input len] in
            (* start = NULL; then [++input] past the closing quote *)
            Continue after None tokens2
        end
      else if Ascii.eqb ch "<" || Ascii.eqb ch ">" || Ascii.eqb ch "|"
              || isspace ch then
        (* end of WORD: unescaped token or whitespace *)
        let tokens1 := flush_word tokens start input in
        let tokens2 :=
          if Ascii.eqb ch "<" then tokens1 ++ [TOK_op TOK_LESSTHAN]
          else if Ascii.eqb ch ">" then tokens1 ++ [TOK_op TOK_GREATERTHAN]
          else if Ascii.eqb ch "|" then tokens1 ++ [TOK_op TOK_PIPE]
          else tokens1 in
        Continue rest None tokens2
      else
        let start1 := match start with Some _ => start | None => Some input end in
        if Ascii.eqb ch backslash then
          (* [++input], then the escape test on the character there *)
          if negb (isescape (deref rest)) then
            Stop (LexError (illegal_escape (deref rest)))
          else
            (* [++input] when [*input] is not NUL *)
            let input2 := match rest with
                          | EmptyString => rest
                          | String _ rest' => rest'
                          end in
            let '(tokens2, start2) := end_of_line tokens start1 input2 in
            Continue input2 start2 tokens2
        else
          let '(tokens2, start2) := end_of_line tokens start1 rest in
          Continue rest start2 tokens2
  end.

(** The loop itself; one unit of fuel per turn. *)
Fixpoint tokenize_loop (fuel : nat) (input : string) (start : option string)
    (tokens : list Token) : LexResult :=
  match fuel with
  | O => OutOfFuel
  | S fuel' =>
      match tokenize_step input start tokens with
      | Stop result => result
      | Continue input' start' tokens' => tokenize_loop fuel' input' start' tokens'
      end
  end.

(** Every turn consumes at least one character, so the length of the line
    (plus the final test) bounds the number of turns. *)
Definition tokenize_from (input : string) (start : option string)
    (tokens : list Token) : LexResult :=
  tokenize_loop (S (String.length input)) input start tokens.

Definition TOK_tokenize_input (input : string) : LexResult :=
  tokenize_from input None [].

(** The Word token whose text is [w]. *)
Definition word_token (w : string) : Token := mkToken TOK_WORD (Some w).
Definition quoted_token (w : string) : Token := mkToken TOK_QUOTED_WORD (Some w).

(** A backslash, the character after it, and what follows. *)
Definition bs_escape (c : ascii) (rest : string) : string :=
  String backslash (String c rest).

(** How the tokenizer's state on a line [done ++ input] compares with its
    state, at the same place, on the longer line [done ++ input ++ z]:
    nothing pending; a word [w] in progress; or a word that the end of the
    short line has flushed and the long line still has in progress. *)
Inductive sim (z done input : string)
  : option string -> list Token -> option string -> list Token -> Prop :=
| sim_idle tokens :
    sim z done input None tokens None tokens
| sim_word p w tokens :
    w <> EmptyString -> input <> EmptyString -> done = (p ++ w)%string ->
    sim z done input (Some (w ++ input)%string) tokens
      (Some (w ++ input ++ z)%string) tokens
| sim_flushed p w tokens :
    w <> EmptyString -> input = EmptyString -> done = (p ++ w)%string ->
    sim z done input None (tokens ++ [word_token w])
      (Some (w ++ z)%string) tokens.

(** Tokens emitted earlier, put in front of a result. *)
Definition prepend (earlier : list Token) (r : LexResult) : LexResult :=
  match r with
  | Tokens l => Tokens (earlier ++ l)
  | LexError e => LexError e
  | OutOfFuel => OutOfFuel
  end.

(** Where a character of a line stands, told by what precedes it: in an
    unquoted region when the text before it tokenizes, inside a quoted word
    when the text before it ends in an open quote. *)
Definition in_unquoted_region (pre : string) : Prop :=
  exists tokens, TOK_tokenize_input pre = Tokens tokens.

Definition in_quoted_region (pre : string) : Prop :=
  TOK_tokenize_input pre = LexError "Unterminated quote".

End Tokenize.

(** ** Token stream consumer API (tokenize.c over clist.c) *)

Definition CList : Type := list Token.

Definition TOK_next_type (tokens : CList) : TokenType :=
  match tokens with
  | [] => TOK_END
  | t :: _ => type t
  end.

(** [CL_nth(tokens, 0)]; the list is never empty where the parser calls it. *)
Definition TOK_next (tokens : CList) : option Token := hd_error tokens.

Definition TOK_consume (tokens : CList) : CList := tl tokens.

(** ** Pipeline AST (pipeline.h, pipeline.c) *)

Inductive ASTNodeType : Type :=
| WORD
| QUOTED_WORD
| OP_LESSTHAN
| OP_GREATERTHAN
| OP_PIPE.

Definition ASTNodeType_eqb (a b : ASTNodeType) : bool :=
  match a, b with
  | WORD, WORD | QUOTED_WORD, QUOTED_WORD | OP_LESSTHAN, OP_LESSTHAN
  | OP_GREATERTHAN, OP_GREATERTHAN | OP_PIPE, OP_PIPE => true
  | _, _ => false
  end.

(** [struct _ast_node] behind the pointer type [AST]: [NULL], or a node
    owning its [left] and [right] subtrees. *)
Inductive AST : Type :=
| NULL
| Node (ntype : ASTNodeType) (nvalue : option string) (left right : AST).

(** The two enumerations list their first five members in the same order, so
    a [TokenType] passed where an [ASTNodeType] is expected keeps its meaning;
    [TOK_END] has no counterpart. *)
Definition ASTNodeType_of_TokenType (tt : TokenType) : option ASTNodeType :=
  match tt with
  | TOK_WORD => Some WORD
  | TOK_QUOTED_WORD => Some QUOTED_WORD
  | TOK_LESSTHAN => Some OP_LESSTHAN
  | TOK_GREATERTHAN => Some OP_GREATERTHAN
  | TOK_PIPE => Some OP_PIPE
  | TOK_END => None
  end.

Module Pipeline.

Definition ASTNodeType_to_char (ent : ASTNodeType) : ascii :=
  match ent with
  | WORD => "w"
  | QUOTED_WORD => "W"
  | OP_LESSTHAN => "<"
  | OP_GREATERTHAN => ">"
  | OP_PIPE => "|"
  end%char.

Definition isword (t : ASTNodeType) : bool :=
  ASTNodeType_eqb t WORD || ASTNodeType_eqb t QUOTED_WORD.

Definition is_redirect (t : ASTNodeType) : bool :=
  ASTNodeType_eqb t OP_LESSTHAN || ASTNodeType_eqb t OP_GREATERTHAN.

Definition is_null (a : AST) : bool :=
  match a with NULL => true | Node _ _ _ _ => false end.

(** The constructors return [None] where an [assert] of the source fails. *)
Definition AST_word (t : ASTNodeType) (right : AST) (value : option string)
    : option AST :=
  if isword t then
    match value with
    | Some v => Some (Node t (Some v) NULL right)
    | None => None
    end
  else None.

Definition AST_redirect (t : ASTNodeType) (right : AST) : option AST :=
  if is_redirect t then
    match right with
    | Node WORD _ _ _ => Some (Node t None NULL right)
    | _ => None
    end
  else None.

Definition AST_pipe (left right : AST) : option AST :=
  match left, right with
  | Node _ _ _ _, Node _ _ _ _ => Some (Node OP_PIPE None left right)
  | _, _ => None
  end.

(** [while (temp && temp->right) temp = temp->right; temp->right = right;] *)
Fixpoint set_last_right (temp right : AST) : AST :=
  match temp with
  | NULL => NULL
  | Node t v l NULL => Node t v l right
  | Node t v l r => Node t v l (set_last_right r right)
  end.

Definition AST_append (pipeline right : AST) : AST :=
  match right with
  | NULL => pipeline
  | Node _ _ _ _ =>
      match pipeline with
      | NULL => right
      | Node t v l NULL => Node t v l right
      | Node t v l temp => Node t v l (set_last_right temp right)
      end
  end.

(** [AST_type] asserts a non-null pipeline. *)
Definition AST_type (pipeline : AST) : option ASTNodeType :=
  match pipeline with
  | NULL => None
  | Node t _ _ _ => Some t
  end.

Fixpoint AST_countnodes (pipeline : AST) : nat :=
  match pipeline with
  | NULL => 0
  | Node t _ l r =>
      (1 + (if ASTNodeType_eqb t OP_PIPE then AST_countnodes l else 0)
       + AST_countnodes r)%nat
  end.

Fixpoint AST_countpipes (pipeline : AST) : nat :=
  match pipeline with
  | Node OP_PIPE _ l _ => S (AST_countpipes l)
  | _ => 0%nat
  end.

Definition AST_countcommands (pipeline : AST) : nat :=
  (1 + AST_countpipes pipeline)%nat.

(** Number of nodes of type [t] anywhere in the tree. *)
Fixpoint count_type (t : ASTNodeType) (a : AST) : nat :=
  match a with
  | NULL => 0
  | Node ty _ l r =>
      ((if ASTNodeType_eqb ty t then 1 else 0) + count_type t l + count_type t r)%nat
  end.

End Pipeline.

(** ** Parser (parse.c) *)

Module Parser.
Import Pipeline.

(** What [Parse] hands back: the returned pointer with the content of
    [errmsg], or an abort (failed [assert], NULL passed to [strdup]/[glob]). *)
Inductive ParseOutcome : Type :=
| Returns (ret : AST) (errmsg : string)
| Aborts.

Definition is_empty (s : string) : bool :=
  match s with EmptyString => true | String _ _ => false end.

Section WithGlob.

(** The system's [glob(value, GLOB_TILDE_CHECK | GLOB_NOCHECK, NULL, &pglob)]:
    its return value and the paths of [pglob.gl_pathv]. *)
Variable glob : string -> Z * list string.

(** [AST_append(pipelinep, AST_word(WORD, 0, path))] for each path. *)
Fixpoint append_paths (pipeline : AST) (pathv : list string) : AST :=
  match pathv with
  | [] => pipeline
  | path :: pathv' =>
      append_paths (AST_append pipeline (Node WORD (Some path) NULL NULL)) pathv'
  end.

Definition glob_append (pipeline : AST) (value : string) : AST * Z :=
  let '(globexit, pathv) := glob value in
  if negb (Z.eqb globexit 0) then (pipeline, globexit)
  else (append_paths pipeline pathv, 0%Z).

Definition bool_to_int (b : bool) : Z := if b then 1%Z else 0%Z.

(** The [while ((tt = TOK_next_type(tokens)) != TOK_END)] loop; the list is
    the stream left to consume.  [tt] is one of the six token types and the
    loop leaves on [TOK_END], so the closing [else] of the source
    (["Unexpected token ..."]) has no case here. *)
Fixpoint Parse_loop (tokens : CList) (ret : AST) (redirect_in redirect_out : Z)
    : ParseOutcome :=
  match tokens with
  | [] => Returns ret ""
  | token :: tokens1 =>
      let tt := type token in
      match tt with
      | TOK_END => Returns ret ""
      | TOK_QUOTED_WORD =>
          match AST_word QUOTED_WORD NULL (value token) with
          | Some node => Parse_loop tokens1 (AST_append ret node) redirect_in redirect_out
          | None => Aborts
          end
      | TOK_WORD =>
          match value token with
          | None => Aborts
          | Some v =>
              let '(ret1, globexit) := glob_append ret v in
              if negb (Z.eqb globexit 0)
              then Returns NULL "Glob encountered an error"
              else Parse_loop tokens1 ret1 redirect_in redirect_out
          end
      | TOK_LESSTHAN | TOK_GREATERTHAN =>
          let redirect_in :=
            (redirect_in + bool_to_int (TokenType_eqb tt TOK_LESSTHAN))%Z in
          let redirect_out :=
            (redirect_out + bool_to_int (TokenType_eqb tt TOK_GREATERTHAN))%Z in
          let errmsg := "" in
          let errmsg := if is_null ret then "No command specified" else errmsg in
          let errmsg :=
            match AST_type ret with
            | Some t => if is_redirect t then "No command specified" else errmsg
            | None => errmsg
            end in
          let errmsg :=
            if is_empty errmsg && ((1 <? redirect_in)%Z || (1 <? redirect_out)%Z)
            then "Multiple redirection" else errmsg in
          let next_tt := TOK_next_type tokens1 in
          let errmsg :=
            if is_empty errmsg && negb (TokenType_eqb next_tt TOK_WORD)
            then "Expect filename after redirection" else errmsg in
          if negb (is_empty errmsg) then Returns NULL errmsg
          else
            match tokens1 with
            | [] => Aborts
            | next :: tokens2 =>
                match value next with
                | None => Aborts
                | Some v =>
                    let '(tempfile, globexit) := glob_append NULL v in
                    if negb (Z.eqb globexit 0)
                    then Returns NULL "Glob encountered an error"
                    else
                      match ASTNodeType_of_TokenType tt with
                      | None => Aborts
                      | Some t =>
                          match AST_redirect t tempfile with
                          | None => Aborts
                          | Some node =>
                              Parse_loop tokens2 (AST_append ret node)
                                redirect_in redirect_out
                          end
                      end
                end
            end
      | TOK_PIPE =>
          let errmsg := "" in
          let errmsg := if is_null ret then "No command specified" else errmsg in
          let next_tt := TOK_next_type tokens1 in
          let errmsg :=
            if is_empty errmsg && negb (TokenType_eqb next_tt TOK_WORD)
               && negb (TokenType_eqb next_tt TOK_QUOTED_WORD)
            then "No command specified" else errmsg in
          if negb (is_empty errmsg) then Returns NULL errmsg
          else
            match tokens1 with
            | [] => Aborts
            | next :: tokens2 =>
                match ASTNodeType_of_TokenType next_tt with
                | None => Aborts
                | Some nt =>
                    match AST_word nt NULL (value next), value next with
                    | Some tempcmd, Some v =>
                        let '(tempcmd, globexit) :=
                          if TokenType_eqb next_tt TOK_WORD
                          then glob_append NULL v
                          else (tempcmd, 0%Z) in
                        if negb (Z.eqb globexit 0)
                        then Returns NULL "Glob encountered an error"
                        else
                          match AST_pipe ret tempcmd with
                          | None => Aborts
                          | Some node =>
                              Parse_loop tokens2 node redirect_in redirect_out
                          end
                    | _, _ => Aborts
                    end
                end
            end
      end
  end.

(** What the redirection branch does once its four tests have passed. *)
Definition redirect_target (tt : TokenType) (tokens1 : CList) (ret : AST)
    (k : CList -> AST -> ParseOutcome) : ParseOutcome :=
  match tokens1 with
  | [] => Aborts
  | next :: tokens2 =>
      match value next with
      | None => Aborts
      | Some v =>
          if negb (snd (glob_append NULL v) =? 0)%Z
          then Returns NULL "Glob encountered an error"
          else
            match ASTNodeType_of_TokenType tt with
            | None => Aborts
            | Some t =>
                match AST_redirect t (fst (glob_append NULL v)) with
                | None => Aborts
                | Some node => k tokens2 (AST_append ret node)
                end
            end
      end
  end.

(** What the pipe branch does once its two tests have passed. *)
Definition pipe_command (tokens1 : CList) (ret : AST)
    (k : CList -> AST -> ParseOutcome) : ParseOutcome :=
  match tokens1 with
  | [] => Aborts
  | next :: tokens2 =>
      match value next with
      | None => Aborts
      | Some v =>
          let tempcmd :=
            if TokenType_eqb (type next) TOK_WORD
            then glob_append NULL v
            else (Node QUOTED_WORD (Some v) NULL NULL, 0%Z) in
          if negb (snd tempcmd =? 0)%Z
          then Returns NULL "Glob encountered an error"
          else
            match AST_pipe ret (fst tempcmd) with
            | None => Aborts
            | Some node => k tokens2 node
            end
      end
  end.

Definition Parse (tokens : CList) : ParseOutcome :=
  Parse_loop tokens NULL 0 0.

End WithGlob.

(** Vocabulary of the statements about token streams. *)

(** No token of the stream carries the sentinel type: [TOK_END] is what
    [TOK_next_type] answers on the empty stream, never a stored token. *)
Definition materialized (tokens : CList) : Prop :=
  Forall (fun t => type t <> TOK_END) tokens.

Definition is_redirection (tt : TokenType) : bool :=
  TokenType_eqb tt TOK_LESSTHAN || TokenType_eqb tt TOK_GREATERTHAN.

Definition count_tokens (tt : TokenType) (tokens : CList) : nat :=
  List.length (filter (fun t => TokenType_eqb (type t) tt) tokens).

(** The root of the pipeline under construction is no redirect node. *)
Definition root_ok (a : AST) : Prop :=
  match AST_type a with
  | Some t => is_redirect t = false
  | None => True
  end.

(** The counters of [Parse] agree with the tree built so far. *)
Definition counters_ok (ret : AST) (redirect_in redirect_out : Z) : Prop :=
  Z.of_nat (count_type OP_LESSTHAN ret) = redirect_in
  /\ Z.of_nat (count_type OP_GREATERTHAN ret) = redirect_out
  /\ (redirect_in <= 1)%Z /\ (redirect_out <= 1)%Z.

Definition tok_word (s : string) : Token := mkToken TOK_WORD (Some s).

(** A pattern-matching service that knows no file: with [GLOB_NOCHECK] every
    pattern comes back unchanged as the single result. *)
Definition glob_nocheck (pattern : string) : Z * list string :=
  (0%Z, [pattern]).

(** The claim that a redirection operator arriving right after a completed
    redirection [t1 f] is rejected for want of a command. *)
Definition chained_redirect_rejected (glob : string -> Z * list string)
    (pre : CList) (t1 f t2 : Token) (rest : CList) : Prop :=
  Parse glob ((pre ++ [t1; f]) ++ t2 :: rest) = Returns NULL "No command specified".

(** Streams and trees of the examples. *)
Definition tok_quoted (s : string) : Token := mkToken TOK_QUOTED_WORD (Some s).
Definition tok_less : Token := TOK_op TOK_LESSTHAN.
Definition tok_greater : Token := TOK_op TOK_GREATERTHAN.
Definition tok_pipe : Token := TOK_op TOK_PIPE.

Definition ast_word (s : string) (right : AST) : AST :=
  Node WORD (Some s) NULL right.

Definition ast_redirect (t : ASTNodeType) (right : AST) : AST :=
  Node t None NULL right.

End Parser.

(** ** Rendering (pipeline.c: AST_sprint, AST_pipeline2str) *)

Module Render.
Import Pipeline.

Local Open Scope Z_scope.

(** The caller's buffer: [buf_sz] bytes, no more.  Every access goes through
    [load] and [store], which report the index of an access outside it. *)
Definition buffer : Type := list ascii.

Inductive MemResult (A : Type) : Type :=
| Done (a : A)
| OutOfBoundsRead (index : Z)
| OutOfBoundsWrite (index : Z)
| NullString
| Diverged.

Arguments Done {A} a.
Arguments OutOfBoundsRead {A} index.
Arguments OutOfBoundsWrite {A} index.
Arguments NullString {A}.
Arguments Diverged {A}.

Definition bind {A B : Type} (m : MemResult A) (k : A -> MemResult B)
    : MemResult B :=
  match m with
  | Done a => k a
  | OutOfBoundsRead i => OutOfBoundsRead i
  | OutOfBoundsWrite i => OutOfBoundsWrite i
  | NullString => NullString
  | Diverged => Diverged
  end.

(** [size_t] is 64 bits wide. *)
Definition size_max : Z := 2 ^ 64.
Definition usize (z : Z) : Z := z mod size_max.

Definition in_bounds (buf : buffer) (i : Z) : bool :=
  (0 <=? i) && (i <? Z.of_nat (List.length buf)).

Definition load (buf : buffer) (i : Z) : MemResult ascii :=
  if in_bounds buf i then Done (nth (Z.to_nat i) buf NUL)
  else OutOfBoundsRead i.

Fixpoint set_nth (buf : buffer) (n : nat) (c : ascii) : buffer :=
  match buf, n with
  | [], _ => []
  | _ :: tl, O => c :: tl
  | b :: tl, S n' => b :: set_nth tl n' c
  end.

Definition store (buf : buffer) (i : Z) (c : ascii) : MemResult buffer :=
  if in_bounds buf i then Done (set_nth buf (Z.to_nat i) c)
  else OutOfBoundsWrite i.

Fixpoint store_bytes (buf : buffer) (i : Z) (bytes : list ascii)
    : MemResult buffer :=
  match bytes with
  | [] => Done buf
  | b :: bytes' => bind (store buf i b) (fun buf' => store_bytes buf' (i + 1) bytes')
  end.

(** [snprintf(buf + off, n, ...)] for the formatted text [s]: at most [n - 1]
    of its characters and a NUL are stored, nothing when [n] is 0; the value
    returned is the length of [s].  (Texts longer than [INT_MAX] are not
    modelled.) *)
Definition snprintf (buf : buffer) (off n : Z) (s : string)
    : MemResult buffer * Z :=
  let chars := list_ascii_of_string s in
  let ret := Z.of_nat (List.length chars) in
  if n =? 0 then (Done buf, ret)
  else (store_bytes buf off (firstn (Z.to_nat (n - 1)) chars ++ [NUL]), ret).

(** The text one node prints: ["%s "] for a word, ["%c "] for an operator of
    a command; a pipe prints ["| "] between its two sides. *)
Definition node_text (t : ASTNodeType) (v : option string) : option string :=
  if isword t then
    match v with
    | Some s => Some (s ++ " ")%string
    | None => None
    end
  else Some (String (ASTNodeType_to_char t) " ").

(** [AST_sprint], with the file-level counter [size] passed in and out. *)
Fixpoint AST_sprint (pipeline : AST) (buf : buffer) (buf_sz size : Z)
    : MemResult (buffer * Z) :=
  match pipeline with
  | NULL => Done (buf, size)
  | Node t v l r =>
      if buf_sz <=? size then Done (buf, size)
      else if ASTNodeType_eqb t OP_PIPE then
        bind (AST_sprint l buf buf_sz size) (fun '(buf1, size1) =>
        let '(w, n) := snprintf buf1 size1 (usize (buf_sz - size1)) "| " in
        bind w (fun buf2 =>
        let size2 := usize (size1 + Z.min (usize (buf_sz - size1)) n) in
        AST_sprint r buf2 buf_sz size2))
      else
        match node_text t v with
        | None => NullString
        | Some text =>
            let '(w, n) := snprintf buf size (usize (buf_sz - size)) text in
            bind w (fun buf1 =>
            let size1 := usize (size + Z.min (usize (buf_sz - size)) n) in
            AST_sprint r buf1 buf_sz size1)
        end
  end.

(** [while (buf[size-1] == ' ') --size;] *)
Fixpoint trim_spaces (fuel : nat) (buf : buffer) (size : Z) : MemResult Z :=
  match fuel with
  | O => Diverged
  | S fuel' =>
      bind (load buf (usize (size - 1))) (fun c =>
      if Ascii.eqb c space then trim_spaces fuel' buf (usize (size - 1))
      else Done size)
  end.

(** [AST_pipeline2str(pipeline, buf, buf_sz)] on a buffer of [buf_sz] bytes:
    the buffer afterwards and the returned length.  The trimming loop reads
    a different byte of the buffer at each turn until it leaves the buffer,
    so one turn more than there are bytes is all it can take. *)
Definition AST_pipeline2str (pipeline : AST) (buf : buffer)
    : MemResult (buffer * Z) :=
  let buf_sz := Z.of_nat (List.length buf) in
  bind (AST_sprint pipeline buf buf_sz 0) (fun '(buf1, size) =>
  bind (trim_spaces (S (List.length buf)) buf1 size) (fun size =>
  if size <? buf_sz then
    bind (store buf1 size NUL) (fun buf2 => Done (buf2, size))
  else
    let size := usize (size - 1) in
    bind (store buf1 size NUL) (fun buf2 =>
    bind (store buf2 (usize (size - 1)) "$"%char) (fun buf3 =>
    Done (buf3, size))))).

(** The C string a buffer holds: its bytes before the first NUL. *)
Fixpoint c_string (buf : buffer) : string :=
  match buf with
  | [] => EmptyString
  | c :: tl => if Ascii.eqb c NUL then EmptyString else String c (c_string tl)
  end.

(** [overwrite buf off bytes]: [buf] with [bytes] stored from index [off]. *)
Definition overwrite (buf : buffer) (off : nat) (bytes : list ascii) : buffer :=
  firstn off buf ++ bytes ++ skipn (off + List.length bytes) buf.

(** The argument chain of one command: a Word node per word. *)
Fixpoint chain (words : list string) : AST :=
  match words with
  | [] => NULL
  | w :: words' => Node WORD (Some w) NULL (chain words')
  end.

(** The command text with its separators normalized to single spaces. *)
Definition command_text (words : list string) : string :=
  String.concat " " words.

Definition chars (s : string) : list ascii := list_ascii_of_string s.

(** The round trip as the specification words it: rendering the chain of
    [words] leaves their command text in the buffer and returns its length. *)
Definition renders_command_text (words : list string) (buf : buffer) : Prop :=
  exists buf',
    AST_pipeline2str (chain words) buf
    = Done (buf', Z.of_nat (String.length (command_text words)))
    /\ c_string buf' = command_text words.

(** What [AST_sprint] prints for a chain of words: each word and a space. *)
Fixpoint chain_text (words : list string) : list ascii :=
  match words with
  | [] => []
  | w :: words' => chars (w ++ " ") ++ chain_text words'
  end.

End Render.

(** ** Executor (pipeline.c: setargs, AST_execute) *)

Module Execute.
Import Pipeline.

Local Open Scope Z_scope.

(** An [argv] array: its entries up to and including the terminating NULL
    that [setargs] stores after the last one. *)
Definition argv_t : Type := list (option string).

(** The entries one argument chain contributes, in order. *)
Fixpoint chain_entries (iter : AST) : list (option string) :=
  match iter with
  | NULL => []
  | Node t v _ r =>
      (if isword t then [v]
       else if ASTNodeType_eqb t OP_LESSTHAN then [Some "<"%string]
       else if ASTNodeType_eqb t OP_GREATERTHAN then [Some ">"%string]
       else []) ++ chain_entries r
  end.

Definition chain_argv (curr : AST) : argv_t := chain_entries curr ++ [None].

(** The arrays [setargs] fills while it walks down the left spine, listed
    from the first stage to the last. *)
Fixpoint setargs (pipeline : AST) : list argv_t :=
  match pipeline with
  | NULL => []
  | Node t _ l r =>
      if ASTNodeType_eqb t OP_PIPE then setargs l ++ [chain_argv r]
      else [chain_argv pipeline]
  end.

(** [argvs[0 .. n-1]] after [setargs(pipeline, argvs, argcs, n)]: the slots
    are filled from the last one down, a slot never reached stays unset. *)
Definition argvs_of (pipeline : AST) (n : nat) : list (option argv_t) :=
  let filled := setargs pipeline in
  repeat None (n - List.length filled) ++ map Some filled.

(** [argv[k]]; reading past the terminator is not modelled apart. *)
Definition arg (argv : argv_t) (k : nat) : option string := nth k argv None.

(** The operating system as the shell process sees it. *)
Record OS : Type := mkOS {
  sys_pipe : nat -> bool;
  sys_fork : nat -> Z;
  sys_getenv_HOME : option string;
  sys_chdir : string -> string -> option string;
  sys_wait : nat -> Z * Z
}.

Inductive Event : Type :=
| Pipe_created (i : nat)
| Perror (s : string)
| Chdir (dirpath : option string)
| Forked (stage : nat) (pid : Z)
| Pipe_closed (i : nat)
| Child_exited (pid status : Z).

(** The shell process: its working directory and what it has done so far. *)
Record Shell : Type := mkShell {
  cwd : string;
  trace : list Event
}.

Definition log (sh : Shell) (evs : list Event) : Shell :=
  mkShell (cwd sh) (trace sh ++ evs).

Inductive Outcome : Type :=
| Returned (exit_val : Z) (sh : Shell)
| Exited (status : Z) (sh : Shell)
| InChild (stage : nat) (argv : argv_t) (sh : Shell)
| Crashed.

Definition EXIT_FAILURE : Z := 1.

(** [WEXITSTATUS(status)], as <sys/wait.h> defines it. *)
Definition WEXITSTATUS (status : Z) : Z := Z.shiftr (Z.land status 65280) 8.

(** [for (i = 0; i < num_pipes; i++) if (pipe(fds[i]) == -1) ...] *)
Fixpoint create_pipes (os : OS) (i count : nat) (sh : Shell) : Shell + Outcome :=
  match count with
  | O => inl sh
  | S count' =>
      if sys_pipe os i
      then create_pipes os (S i) count' (log sh [Pipe_created i])
      else inr (Exited EXIT_FAILURE (log sh [Perror "pipe"]))
  end.

(** The [cd] built-in: [chdir(dirpath)], [perror("cd")] when it fails. *)
Definition builtin_cd (os : OS) (argv : argv_t) (sh : Shell) : Shell :=
  let dirpath := match arg argv 1 with
                 | Some d => Some d
                 | None => sys_getenv_HOME os
                 end in
  match dirpath with
  | Some d =>
      match sys_chdir os (cwd sh) d with
      | Some dir => mkShell dir (trace sh ++ [Chdir dirpath])
      | None => log sh [Chdir dirpath; Perror "cd"]
      end
  | None => log sh [Chdir dirpath; Perror "cd"]
  end.

(** The loop over the stages.  Where [fork] returns 0 the process is the
    child, which never comes back to the loop: it execs or [_exit]s. *)
Fixpoint spawn (os : OS) (i : nat) (argvs : list (option argv_t)) (sh : Shell)
    : Shell + Outcome :=
  match argvs with
  | [] => inl sh
  | None :: _ => inr Crashed
  | Some argv :: argvs' =>
      match arg argv 0 with
      | None => inr Crashed
      | Some name =>
          if String.eqb name "exit" || String.eqb name "quit" then
            inr (Exited 0 sh)
          else if String.eqb name "cd" then
            spawn os (S i) argvs' (builtin_cd os argv sh)
          else
            let pid := sys_fork os i in
            if pid =? -1 then inr (Exited EXIT_FAILURE (log sh [Perror "fork"]))
            else if pid =? 0 then inr (InChild i argv sh)
            else spawn os (S i) argvs' (log sh [Forked i pid])
      end
  end.

Definition close_pipes (num_pipes : nat) (sh : Shell) : Shell :=
  log sh (map Pipe_closed (seq 0 num_pipes)).

(** [for (i = 0; i < num_children; i++) { pid = wait(&exit_status); ... }] *)
Fixpoint wait_children (os : OS) (i count : nat) (exit_val : Z) (sh : Shell)
    : Z * Shell :=
  match count with
  | O => (exit_val, sh)
  | S count' =>
      let '(pid, exit_status) := sys_wait os i in
      if (0 <? pid) && negb (WEXITSTATUS exit_status =? 0)
      then wait_children os (S i) count' (WEXITSTATUS exit_status)
             (log sh [Child_exited pid (WEXITSTATUS exit_status)])
      else wait_children os (S i) count' exit_val sh
  end.

Definition AST_execute (os : OS) (pipeline : AST) (sh : Shell) : Outcome :=
  let num_pipes := AST_countpipes pipeline in
  let num_children := (num_pipes + 1)%nat in
  let argvs := argvs_of pipeline num_children in
  match create_pipes os 0 num_pipes sh with
  | inr o => o
  | inl sh1 =>
      match spawn os 0 argvs sh1 with
      | inr o => o
      | inl sh2 =>
          let sh3 := close_pipes num_pipes sh2 in
          let '(exit_val, sh4) := wait_children os 0 num_children 0 sh3 in
          Returned exit_val sh4
      end
  end.

(** The aggregate the specification describes, computed from what [wait]
    returned: the exit status of the last child reaped with a non-zero
    status, 0 when there is none. *)
Definition reaped_nonzero (r : Z * Z) : bool :=
  (0 <? fst r) && negb (WEXITSTATUS (snd r) =? 0).

Definition aggregate_status (reaped : list (Z * Z)) : Z :=
  match find reaped_nonzero (rev reaped) with
  | Some r => WEXITSTATUS (snd r)
  | None => 0
  end.

(** A stage the executor forks for: its name is none of the built-ins it
    runs in the shell process. *)
Definition is_external (argv : argv_t) : bool :=
  match arg argv 0 with
  | Some name =>
      negb (String.eqb name "exit" || String.eqb name "quit" || String.eqb name "cd")
  | None => false
  end.

Definition external_stage (slot : option argv_t) : Prop :=
  exists argv, slot = Some argv /\ is_external argv = true.

(** One turn of the wait loop, as a function of what [wait] returned. *)
Definition wait_step (exit_val : Z) (r : Z * Z) : Z :=
  if reaped_nonzero r then WEXITSTATUS (snd r) else exit_val.

(** The operating system of the examples: every call succeeds, the children
    get the pids 101, 102, ..., and the three [wait] calls report a child
    that exited with 0, one that exited with 1 and no child at all. *)
Definition os_example : OS :=
  mkOS (fun _ => true) (fun i => 101 + Z.of_nat i) (Some "/home/user"%string)
       (fun _ d => Some d)
       (fun i => match i with
                 | O => (103, 0)
                 | S O => (101, 256)
                 | _ => (-1, 512)
                 end).

Definition word (s : string) (right : AST) : AST := Node WORD (Some s) NULL right.

(** [cat notes | grep x | wc] *)
Definition pipeline_example : AST :=
  Node OP_PIPE None
    (Node OP_PIPE None (word "cat" (word "notes" NULL)) (word "grep" (word "x" NULL)))
    (word "wc" NULL).

End Execute.

(** ** Linked list (clist.c) *)

Module CL.

Local Open Scope Z_scope.

(** What a call leaves behind: a result, a fault (a failed [assert] or an
    access through a NULL node pointer), or a loop still running when the
    fuel is spent. *)
Inductive Outcome (A : Type) : Type :=
| Finished (a : A)
| Faulted
| Unfinished.

Arguments Finished {A} a.
Arguments Faulted {A}.
Arguments Unfinished {A}.

Section WithElement.

(** The element type and the value [INVALID_RETURN] are fixed by clist.h;
    the list code depends on neither. *)
Variable CListElementType : Type.
Variable INVALID_RETURN : CListElementType.

(** [struct _clist]: the chain of nodes that starts at [head] and the stored
    [length].  A chain is the list of its elements, [NULL] the empty one; a
    list argument is a valid pointer throughout ([assert(list)] holds). *)
Record clist : Type := mk_clist {
  head : list CListElementType;
  length : Z
}.

Definition CL_new : clist := mk_clist [] 0.

(** [for (node = list->head; node != NULL; node = node->next) len++;] *)
Fixpoint count_nodes (node : list CListElementType) (len : Z) : Z :=
  match node with
  | [] => len
  | _ :: next => count_nodes next (len + 1)
  end.

(** [CL_length], compiled with [DEBUG]: the walk and its [assert]. *)
Definition CL_length (list : clist) : option Z :=
  if count_nodes (head list) 0 =? length list then Some (length list) else None.

Definition CL_push (list : clist) (element : CListElementType) : clist :=
  mk_clist (element :: head list) (length list + 1).

Definition CL_pop (list : clist) : CListElementType * clist :=
  match head list with
  | [] => (INVALID_RETURN, list)
  | element :: next => (element, mk_clist next (length list - 1))
  end.

(** [while (node->next) node = node->next; node->next = temp;] *)
Fixpoint set_tail_next (node temp : list CListElementType)
    : option (list CListElementType) :=
  match node with
  | [] => None
  | x :: next =>
      match next with
      | [] => Some (x :: temp)
      | _ :: _ => option_map (cons x) (set_tail_next next temp)
      end
  end.

(** [CL_append]: the test [list->length++ == 0] reads the stored length. *)
Definition CL_append (list : clist) (element : CListElementType)
    : option clist :=
  let temp := [element] in
  if length list =? 0 then Some (mk_clist temp (length list + 1))
  else option_map (fun h => mk_clist h (length list + 1))
         (set_tail_next (head list) temp).

(** [for (node = list->head; node != NULL; node = node->next)
       if (i-- == 0) return node->element;] and the return after it. *)
Fixpoint nth_node (node : list CListElementType) (i : Z) : CListElementType :=
  match node with
  | [] => INVALID_RETURN
  | element :: next => if i =? 0 then element else nth_node next (i - 1)
  end.

(** [CL_nth]; C's [%] truncates, which is [Z.rem]. *)
Definition CL_nth (list : clist) (pos : Z) : CListElementType :=
  if (pos <? - length list) || (length list <=? pos) then INVALID_RETURN
  else nth_node (head list) (Z.rem (pos + length list) (length list)).

(** [while (--pos) node = node->next;
     node->next = _CL_new_node(element, node->next);] *)
Fixpoint insert_walk (node : list CListElementType) (pos : Z)
    (element : CListElementType) : option (list CListElementType) :=
  match node with
  | [] => None
  | x :: next =>
      if pos - 1 =? 0 then Some (x :: element :: next)
      else option_map (cons x) (insert_walk next (pos - 1) element)
  end.

Definition CL_insert (list : clist) (element : CListElementType) (pos : Z)
    : option (bool * clist) :=
  if (pos <? - length list - 1) || (length list <? pos) then Some (false, list)
  else
    let pos := if pos <? 0 then pos + (length list + 1) else pos in
    if pos =? 0 then Some (true, CL_push list element)
    else option_map (fun h => (true, mk_clist h (length list + 1)))
           (insert_walk (head list) pos element).

(** [while (--pos) prev = prev->next;] and the unlinking of [prev->next]. *)
Fixpoint remove_walk (prev : list CListElementType) (pos : Z)
    : option (CListElementType * list CListElementType) :=
  match prev with
  | [] => None
  | x :: next =>
      if pos - 1 =? 0 then
        match next with
        | [] => None
        | elem :: after => Some (elem, x :: after)
        end
      else option_map (fun r => (fst r, x :: snd r)) (remove_walk next (pos - 1))
  end.

Definition CL_remove (list : clist) (pos : Z)
    : option (CListElementType * clist) :=
  if (pos <? - length list) || (length list - 1 <? pos)
  then Some (INVALID_RETURN, list)
  else
    let pos := if pos <? 0 then pos + length list else pos in
    if pos =? 0 then Some (CL_pop list)
    else option_map (fun r => (fst r, mk_clist (snd r) (length list - 1)))
           (remove_walk (head list) pos).

(** [for (node = list->head; ...) CL_append(res, node->element);] *)
Fixpoint copy_nodes (node : list CListElementType) (res : clist)
    : option clist :=
  match node with
  | [] => Some res
  | element :: next =>
      match CL_append res element with
      | Some res' => copy_nodes next res'
      | None => None
      end
  end.

Definition CL_copy (list : clist) : option clist :=
  copy_nodes (head list) CL_new.

(** [while (CL_length(list2)) CL_append(list1, CL_remove(list2, 0));] for two
    lists that are different objects. *)
Fixpoint join_loop (fuel : nat) (list1 list2 : clist)
    : Outcome (clist * clist) :=
  match fuel with
  | O => Unfinished
  | S fuel' =>
      match CL_length list2 with
      | None => Faulted
      | Some len =>
          if len =? 0 then Finished (list1, list2)
          else
            match CL_remove list2 0 with
            | None => Faulted
            | Some (element, list2') =>
                match CL_append list1 element with
                | None => Faulted
                | Some list1' => join_loop fuel' list1' list2'
                end
            end
      end
  end.

(** Every turn unlinks one node of [list2], so one turn more than it has
    nodes is all the loop can take. *)
Definition CL_join (list1 list2 : clist) : Outcome (clist * clist) :=
  join_loop (S (List.length (head list2))) list1 list2.

(** The same loop when both arguments are one list: what is removed from
    the object is appended to it. *)
Fixpoint join_self_loop (fuel : nat) (list : clist) : Outcome clist :=
  match fuel with
  | O => Unfinished
  | S fuel' =>
      match CL_length list with
      | None => Faulted
      | Some len =>
          if len =? 0 then Finished list
          else
            match CL_remove list 0 with
            | None => Faulted
            | Some (element, list') =>
                match CL_append list' element with
                | None => Faulted
                | Some list'' => join_self_loop fuel' list''
                end
            end
      end
  end.

(** [CL_reverse]: the nodes are moved one by one onto [reverse]. *)
Fixpoint reverse_loop (head reverse : list CListElementType)
    : list CListElementType :=
  match head with
  | [] => reverse
  | x :: second => reverse_loop second (x :: reverse)
  end.

Definition CL_reverse (list : clist) : clist :=
  mk_clist (reverse_loop (head list) []) (length list).

(** [CL_foreach]: the callback's effect is a change of the state it shares
    with its caller through [cb_data]. *)
Section Foreach.

Variable State : Type.
Variable callback : Z -> CListElementType -> State -> State.

Fixpoint foreach_nodes (node : list CListElementType) (i : Z) (cb_data : State)
    : State :=
  match node with
  | [] => cb_data
  | element :: next => foreach_nodes next (i + 1) (callback i element cb_data)
  end.

Definition CL_foreach (list : clist) (cb_data : State) : State :=
  foreach_nodes (head list) 0 cb_data.

End Foreach.

(** The stored length is the number of nodes. *)
Definition consistent (list : clist) : Prop :=
  length list = Z.of_nat (List.length (head list)).

(** The list whose nodes hold [elements], in order. *)
Definition of_elements (elements : list CListElementType) : clist :=
  mk_clist elements (Z.of_nat (List.length elements)).

(** The position an index designates in a list of [len] elements: counted
    from the front when it is not negative, from the back otherwise. *)
Definition normalize (len pos : Z) : nat :=
  Z.to_nat (if pos <? 0 then pos + len else pos).

End WithElement.

Arguments head {CListElementType} c.
Arguments length {CListElementType} c.
Arguments mk_clist {CListElementType} head length.
Arguments CL_new {CListElementType}.
Arguments CL_length {CListElementType} list.
Arguments CL_push {CListElementType} list element.
Arguments CL_append {CListElementType} list element.
Arguments CL_insert {CListElementType} list element pos.
Arguments CL_copy {CListElementType} list.
Arguments CL_reverse {CListElementType} list.
Arguments consistent {CListElementType} list.
Arguments of_elements {CListElementType} elements.
Arguments CL_pop {CListElementType} INVALID_RETURN list.
Arguments CL_nth {CListElementType} INVALID_RETURN list pos.
Arguments CL_remove {CListElementType} INVALID_RETURN list pos.
Arguments CL_join {CListElementType} INVALID_RETURN list1 list2.
Arguments join_loop {CListElementType} INVALID_RETURN fuel list1 list2.
Arguments join_self_loop {CListElementType} INVALID_RETURN fuel list.
Arguments CL_foreach {CListElementType State} callback list cb_data.

(** The list of the examples: 10, 20, 30, with 0 for [INVALID_RETURN]. *)
Definition sample : clist Z := of_elements [10; 20; 30].

End CL.

(** ** Token stream over the linked list (tokenize.c) *)

Module TokenStream.

Local Open Scope Z_scope.

Section WithInvalid.

Variable INVALID_RETURN : Token.

Definition TOK_next (tokens : CL.clist Token) : Token :=
  CL.CL_nth INVALID_RETURN tokens 0.

(** [if (CL_length(tokens)) return TOK_next(tokens).type; return TOK_END;] *)
Definition TOK_next_type (tokens : CL.clist Token) : option TokenType :=
  match CL.CL_length tokens with
  | None => None
  | Some len => Some (if len =? 0 then TOK_END else type (TOK_next tokens))
  end.

Definition TOK_consume (tokens : CL.clist Token) : option (CL.clist Token) :=
  option_map snd (CL.CL_remove INVALID_RETURN tokens 0).

End WithInvalid.

End TokenStream.

(** ** Lexical shape of lines and tokens *)

Module TokenShape.
Import Tokenize.

(** The characters of the second branch of the tokenizer's main loop: the
    three operators and white space. *)
Definition is_separator (ch : ascii) : bool :=
  Ascii.eqb ch "<" || Ascii.eqb ch ">" || Ascii.eqb ch "|" || isspace ch.

(** What that branch appends for the character itself. *)
Definition separator_tokens (ch : ascii) : list Token :=
  if Ascii.eqb ch "<" then [TOK_op TOK_LESSTHAN]
  else if Ascii.eqb ch ">" then [TOK_op TOK_GREATERTHAN]
  else if Ascii.eqb ch "|" then [TOK_op TOK_PIPE]
  else [].

(** A line of white space only. *)
Fixpoint blank (s : string) : bool :=
  match s with
  | EmptyString => true
  | String ch rest => isspace ch && blank rest
  end.

Fixpoint has_char (c : ascii) (s : string) : bool :=
  match s with
  | EmptyString => false
  | String ch rest => Ascii.eqb ch c || has_char c rest
  end.

(** The text of a word: no double quote and no separator unless a backslash
    precedes it, and after every backslash a character of the escape set. *)
Fixpoint word_text (s : string) : bool :=
  match s with
  | EmptyString => true
  | String ch rest =>
      if Ascii.eqb ch dquote || is_separator ch then false
      else if Ascii.eqb ch backslash then
        match rest with
        | EmptyString => false
        | String c rest' => isescape c && word_text rest'
        end
      else word_text rest
  end.

(** What a token of each type looks like. *)
Definition token_shape (t : Token) : Prop :=
  match type t with
  | TOK_WORD =>
      exists w, value t = Some w /\ w <> EmptyString /\ word_text w = true
  | TOK_QUOTED_WORD =>
      exists body,
        value t = Some (String dquote (body ++ String dquote EmptyString))
        /\ has_char dquote body = false
  | TOK_LESSTHAN | TOK_GREATERTHAN | TOK_PIPE => value t = None
  | TOK_END => False
  end.

(** The word in progress, if any, is a non-empty word text that ends where
    [input] starts. *)
Definition pending_ok (input : string) (start : option string) : Prop :=
  match start with
  | None => True
  | Some st =>
      exists w, st = (w ++ input)%string /\ w <> EmptyString /\ word_text w = true
  end.

(** The three ways a run of the tokenizer ends. *)
Definition outcome_ok (r : LexResult) : Prop :=
  (exists tokens, r = Tokens tokens)
  \/ r = LexError "Unterminated quote"%string
  \/ exists c, isescape c = false /\ r = LexError (illegal_escape c).

End TokenShape.

(** ** One turn of the parser's loop, case by case *)

Module ParseTurn.
Import Pipeline Parser.

Local Open Scope Z_scope.

(** How a turn of the loop of [Parse] ends: with an error message (and NULL
    returned), in a failed [assert], at a stored [TOK_END] (the tree built so
    far is returned), or at the top of the loop again. *)
Inductive Turn : Type :=
| Fails (errmsg : string)
| Asserts
| Ends
| Goes (tokens : CList) (ret : AST) (redirect_in redirect_out : Z).

Section WithGlob.

Variable glob : string -> Z * list string.

Definition resume (ret : AST) (t : Turn) : ParseOutcome :=
  match t with
  | Fails errmsg => Returns NULL errmsg
  | Asserts => Aborts
  | Ends => Returns ret ""
  | Goes tokens ret' redirect_in redirect_out =>
      Parse_loop glob tokens ret' redirect_in redirect_out
  end.

(** The cases of one turn on the token [token], with [tokens1] after it. *)
Inductive turn (token : Token) (tokens1 : CList) (ret : AST) (rin rout : Z)
  : Turn -> Prop :=
| turn_end :
    type token = TOK_END -> turn token tokens1 ret rin rout Ends
| turn_no_value :
    type token = TOK_QUOTED_WORD \/ type token = TOK_WORD ->
    value token = None ->
    turn token tokens1 ret rin rout Asserts
| turn_quoted v :
    type token = TOK_QUOTED_WORD -> value token = Some v ->
    turn token tokens1 ret rin rout
      (Goes tokens1 (AST_append ret (Node QUOTED_WORD (Some v) NULL NULL)) rin rout)
| turn_word_glob_error v globexit pathv :
    type token = TOK_WORD -> value token = Some v ->
    glob v = (globexit, pathv) -> globexit <> 0 ->
    turn token tokens1 ret rin rout (Fails "Glob encountered an error")
| turn_word v pathv :
    type token = TOK_WORD -> value token = Some v ->
    glob v = (0, pathv) ->
    turn token tokens1 ret rin rout
      (Goes tokens1 (append_paths ret pathv) rin rout)
| turn_redirect_no_command :
    is_redirection (type token) = true -> ret = NULL ->
    turn token tokens1 ret rin rout (Fails "No command specified")
| turn_redirect_root t v l r :
    is_redirection (type token) = true ->
    ret = Node t v l r -> is_redirect t = true ->
    turn token tokens1 ret rin rout (Fails "No command specified")
| turn_redirect_multiple t v l r :
    is_redirection (type token) = true ->
    ret = Node t v l r -> is_redirect t = false ->
    1 < rin + bool_to_int (TokenType_eqb (type token) TOK_LESSTHAN)
    \/ 1 < rout + bool_to_int (TokenType_eqb (type token) TOK_GREATERTHAN) ->
    turn token tokens1 ret rin rout (Fails "Multiple redirection")
| turn_redirect_no_file t v l r :
    is_redirection (type token) = true ->
    ret = Node t v l r -> is_redirect t = false ->
    rin + bool_to_int (TokenType_eqb (type token) TOK_LESSTHAN) <= 1 ->
    rout + bool_to_int (TokenType_eqb (type token) TOK_GREATERTHAN) <= 1 ->
    TOK_next_type tokens1 <> TOK_WORD ->
    turn token tokens1 ret rin rout (Fails "Expect filename after redirection")
| turn_redirect_file_no_value t v l r next tokens2 :
    is_redirection (type token) = true ->
    ret = Node t v l r -> is_redirect t = false ->
    tokens1 = next :: tokens2 -> type next = TOK_WORD -> value next = None ->
    turn token tokens1 ret rin rout Asserts
| turn_redirect_glob_error t v l r next tokens2 file globexit pathv :
    is_redirection (type token) = true ->
    ret = Node t v l r -> is_redirect t = false ->
    tokens1 = next :: tokens2 -> type next = TOK_WORD -> value next = Some file ->
    glob file = (globexit, pathv) -> globexit <> 0 ->
    turn token tokens1 ret rin rout (Fails "Glob encountered an error")
| turn_redirect_no_path t v l r next tokens2 file :
    is_redirection (type token) = true ->
    ret = Node t v l r -> is_redirect t = false ->
    tokens1 = next :: tokens2 -> type next = TOK_WORD -> value next = Some file ->
    glob file = (0, []) ->
    turn token tokens1 ret rin rout Asserts
| turn_redirect t v l r next tokens2 file path pathv op :
    is_redirection (type token) = true ->
    ret = Node t v l r -> is_redirect t = false ->
    rin + bool_to_int (TokenType_eqb (type token) TOK_LESSTHAN) <= 1 ->
    rout + bool_to_int (TokenType_eqb (type token) TOK_GREATERTHAN) <= 1 ->
    tokens1 = next :: tokens2 -> type next = TOK_WORD -> value next = Some file ->
    glob file = (0, path :: pathv) ->
    ASTNodeType_of_TokenType (type token) = Some op ->
    turn token tokens1 ret rin rout
      (Goes tokens2
         (AST_append ret (Node op None NULL (append_paths NULL (path :: pathv))))
         (rin + bool_to_int (TokenType_eqb (type token) TOK_LESSTHAN))
         (rout + bool_to_int (TokenType_eqb (type token) TOK_GREATERTHAN)))
| turn_pipe_no_command :
    type token = TOK_PIPE -> ret = NULL ->
    turn token tokens1 ret rin rout (Fails "No command specified")
| turn_pipe_no_right :
    type token = TOK_PIPE -> ret <> NULL ->
    TOK_next_type tokens1 <> TOK_WORD ->
    TOK_next_type tokens1 <> TOK_QUOTED_WORD ->
    turn token tokens1 ret rin rout (Fails "No command specified")
| turn_pipe_no_value next tokens2 :
    type token = TOK_PIPE -> ret <> NULL ->
    tokens1 = next :: tokens2 ->
    type next = TOK_WORD \/ type next = TOK_QUOTED_WORD ->
    value next = None ->
    turn token tokens1 ret rin rout Asserts
| turn_pipe_quoted next tokens2 v :
    type token = TOK_PIPE -> ret <> NULL ->
    tokens1 = next :: tokens2 ->
    type next = TOK_QUOTED_WORD -> value next = Some v ->
    turn token tokens1 ret rin rout
      (Goes tokens2 (Node OP_PIPE None ret (Node QUOTED_WORD (Some v) NULL NULL))
         rin rout)
| turn_pipe_glob_error next tokens2 v globexit pathv :
    type token = TOK_PIPE -> ret <> NULL ->
    tokens1 = next :: tokens2 ->
    type next = TOK_WORD -> value next = Some v ->
    glob v = (globexit, pathv) -> globexit <> 0 ->
    turn token tokens1 ret rin rout (Fails "Glob encountered an error")
| turn_pipe_no_path next tokens2 v :
    type token = TOK_PIPE -> ret <> NULL ->
    tokens1 = next :: tokens2 ->
    type next = TOK_WORD -> value next = Some v ->
    glob v = (0, []) ->
    turn token tokens1 ret rin rout Asserts
| turn_pipe_word next tokens2 v path pathv :
    type token = TOK_PIPE -> ret <> NULL ->
    tokens1 = next :: tokens2 ->
    type next = TOK_WORD -> value next = Some v ->
    glob v = (0, path :: pathv) ->
    turn token tokens1 ret rin rout
      (Goes tokens2 (Node OP_PIPE None ret (append_paths NULL (path :: pathv)))
         rin rout).

End WithGlob.

(** The messages [Parse] can leave in [errmsg]. *)
Definition parse_errors : list string :=
  ["No command specified"; "Multiple redirection";
   "Expect filename after redirection"; "Glob encountered an error"]%string.

(** A successful call of the pattern service yields at least one path, as
    [glob] does under [GLOB_NOCHECK]. *)
Definition glob_yields_paths (glob : string -> Z * list string) : Prop :=
  forall pattern pathv, glob pattern = (0, pathv) -> pathv <> [].

(** The chain of arguments after the name of a command: words with their
    text and redirection operators, linked through [right]. *)
Fixpoint arguments (a : AST) : bool :=
  match a with
  | NULL => true
  | Node t v _ r =>
      negb (ASTNodeType_eqb t OP_PIPE)
      && (if isword t then match v with Some _ => true | None => false end
          else true)
      && arguments r
  end.

(** One command: a word with its text, then its arguments. *)
Definition command (a : AST) : bool :=
  match a with
  | Node t (Some _) _ r => isword t && arguments r
  | _ => false
  end.

(** A pipeline: one command, or a pipe node with a pipeline on its left and
    one command on its right. *)
Fixpoint pipeline_tree (a : AST) : bool :=
  match a with
  | Node OP_PIPE _ l r => pipeline_tree l && command r
  | _ => command a
  end.

(** The tree under construction: nothing yet, or a pipeline. *)
Definition tree_ok (ret : AST) : Prop :=
  ret = NULL \/ pipeline_tree ret = true.

(** An argument array as [execvp] wants it: the name of the command, its
    further entries, and NULL after the last one, nowhere else. *)
Definition proper_argv (argv : Execute.argv_t) : Prop :=
  exists name words, argv = Some name :: map Some words ++ [None].

End ParseTurn.

(** ** The text of a pipeline *)

Module RenderText.
Import Pipeline Render.

Local Open Scope Z_scope.

(** The texts [AST_sprint] hands to [snprintf], in the order of its walk:
    a node's own text, then its right chain; for a pipe its left side, the
    bar, its right side. *)
Fixpoint segments (a : AST) : list string :=
  match a with
  | NULL => []
  | Node t v l r =>
      if ASTNodeType_eqb t OP_PIPE
      then segments l ++ "| "%string :: segments r
      else match node_text t v with
           | Some s => [s]
           | None => []
           end ++ segments r
  end.

(** Every word node the walk meets has its text. *)
Fixpoint printable (a : AST) : bool :=
  match a with
  | NULL => true
  | Node t v l r =>
      if ASTNodeType_eqb t OP_PIPE then printable l && printable r
      else match node_text t v with
           | Some _ => true
           | None => false
           end && printable r
  end.

(** The whole text of the pipeline, a space after each item. *)
Definition render (a : AST) : list ascii := List.concat (map chars (segments a)).

Fixpoint drop_spaces (l : list ascii) : list ascii :=
  match l with
  | [] => []
  | c :: l' => if Ascii.eqb c space then drop_spaces l' else l
  end.

(** A text without the spaces at its end. *)
Definition rtrim (l : list ascii) : list ascii := rev (drop_spaces (rev l)).

(** One call [size += min(buf_sz - size, snprintf(buf + size, buf_sz - size,
    ...))], skipped when the buffer is full. *)
Definition print_one (buf_sz : Z) (s : string) (st : buffer * Z)
    : MemResult (buffer * Z) :=
  if buf_sz <=? snd st then Done st
  else
    bind (fst (snprintf (fst st) (snd st) (buf_sz - snd st) s)) (fun buf1 =>
    Done (buf1,
          snd st + Z.min (buf_sz - snd st)
                     (snd (snprintf (fst st) (snd st) (buf_sz - snd st) s)))).

Fixpoint print_all (buf_sz : Z) (segs : list string) (st : buffer * Z)
    : MemResult (buffer * Z) :=
  match segs with
  | [] => Done st
  | s :: segs' => bind (print_one buf_sz s st) (print_all buf_sz segs')
  end.

(** The buffer and the counter once the text [T] has been printed into a
    buffer of [N] bytes: all of [T] and a NUL after it when that fits, else
    the first [N - 1] characters of [T] and a NUL, with the counter at [N]. *)
Definition printed (N : nat) (T : list ascii) (st : buffer * Z) : Prop :=
  List.length (fst st) = N
  /\ (((List.length T < N)%nat
       /\ snd st = Z.of_nat (List.length T)
       /\ firstn (List.length T) (fst st) = T
       /\ (T <> [] -> nth (List.length T) (fst st) space = NUL))
      \/ ((N <= List.length T)%nat
          /\ snd st = Z.of_nat N
          /\ fst st = firstn (N - 1) T ++ [NUL])).

End RenderText.

(** ** The child process of one stage (pipeline.c: AST_execute, after fork) *)

Module Child.
Import Execute.

Local Open Scope Z_scope.

(** The descriptors the child handles: the ends of the pipes, by the index
    of the pipe, and the files it opens itself. *)
Inductive Fd : Type :=
| Pipe_fd (j : nat) (write_end : bool)
| File_fd (path : string) (for_writing : bool).

Inductive Std : Type :=
| STDIN_FILENO
| STDOUT_FILENO.

(** What the child does, in order. *)
Inductive Action : Type :=
| Close (fd : Fd)
| Dup2 (fd : Fd) (std : Std)
| Open_failed (path : option string) (for_writing : bool)
| Perror (s : string)
| Printf_permission_denied (path : option string)
| Printf_not_found (name : string) (errno : Z).

(** How the child ends: in the program it executes (with the argument
    array read up to its first NULL), in [_exit], or in an access through a
    NULL pointer. *)
Inductive End : Type :=
| Execvp (file : string) (args : list string)
| Execlp (file : string) (args : list string)
| Exit (status : Z)
| Fault.

(** The system as the child sees it: whether [open] succeeds on a path, and
    why [exec] fails on a program if it does ([strerror(errno)], [errno]). *)
Record System : Type := mkSystem {
  sys_open : string -> bool -> bool;
  sys_exec : string -> option (string * Z)
}.

Definition AUTHOR : string := "Jean Baptiste Kwizera".

(** [for (j = 0; j < num_pipes; j++)
       { if (j != i-1) close(fds[j][0]); if (j != i+0) close(fds[j][1]); }] *)
Definition close_others (i num_pipes : nat) : list Action :=
  flat_map (fun j =>
    (if Z.of_nat j =? Z.of_nat i - 1 then [] else [Close (Pipe_fd j false)])
    ++ (if Z.of_nat j =? Z.of_nat i + 0 then [] else [Close (Pipe_fd j true)]))
    (seq 0 num_pipes).

(** [for (j = 1; j < argc - 1; j++) { if (strcmp(argv[j], "<") == 0)
    lessthan = j; if (strcmp(argv[j], ">") == 0) greaterthan = j; }]:
    [count] turns from index [j]; [None] when [strcmp] gets a NULL. *)
Fixpoint scan (argv : argv_t) (j : nat) (count : nat) (lessthan greaterthan : Z)
    : option (Z * Z) :=
  match count with
  | O => Some (lessthan, greaterthan)
  | S count' =>
      match nth j argv None with
      | None => None
      | Some a =>
          scan argv (S j) count'
            (if String.eqb a "<" then Z.of_nat j else lessthan)
            (if String.eqb a ">" then Z.of_nat j else greaterthan)
      end
  end.

Fixpoint update (argv : argv_t) (j : nat) (x : option string) : argv_t :=
  match argv, j with
  | [], _ => []
  | _ :: tl, O => x :: tl
  | a :: tl, S j' => a :: update tl j' x
  end.

(** [for (j = k; j+offset <= argc; j++) argv[j] = argv[j+offset];] with
    [offset = 2]: [count] turns from index [j]. *)
Fixpoint shift (argv : argv_t) (j : nat) (count : nat) : argv_t :=
  match count with
  | O => argv
  | S count' => shift (update argv j (nth (j + 2) argv None)) (S j) count'
  end.

(** The array as [execvp] reads it: the entries before the first NULL. *)
Fixpoint until_null (argv : argv_t) : list string :=
  match argv with
  | Some a :: tl => a :: until_null tl
  | _ => []
  end.

(** [open]: a NULL path fails like any path the system refuses. *)
Definition opens (sys : System) (path : option string) (for_writing : bool)
    : bool :=
  match path with
  | Some p => sys_open sys p for_writing
  | None => false
  end.

(** The state the two redirection blocks work on. *)
Record Args : Type := mkArgs {
  argv : argv_t;
  argc : Z;
  greaterthan : Z
}.

(** [if (lessthan >= 0) { ... }]: the actions, and the arguments afterwards
    unless the child exits. *)
Definition redirect_input (sys : System) (lessthan : Z) (st : Args)
    : list Action * option Args :=
  if 0 <=? lessthan then
    let infile := nth (Z.to_nat (lessthan + 1)) (argv st) None in
    if opens sys infile false then
      match infile with
      | Some path =>
          ([Dup2 (File_fd path false) STDIN_FILENO; Close (File_fd path false)],
           Some (mkArgs
                   (shift (argv st) (Z.to_nat lessthan)
                      (Z.to_nat (argc st - 2 - lessthan + 1)))
                   (argc st - 2)
                   (if lessthan <? greaterthan st then greaterthan st - 2
                    else greaterthan st)))
      | None => ([], None)
      end
    else ([Open_failed infile false; Perror "open";
           Printf_permission_denied infile], None)
  else ([], Some st).

(** [if (greaterthan >= 0) { ... }] *)
Definition redirect_output (sys : System) (st : Args)
    : list Action * option Args :=
  if 0 <=? greaterthan st then
    let outfile := nth (Z.to_nat (greaterthan st + 1)) (argv st) None in
    if opens sys outfile true then
      match outfile with
      | Some path =>
          ([Dup2 (File_fd path true) STDOUT_FILENO; Close (File_fd path true)],
           Some (mkArgs
                   (shift (argv st) (Z.to_nat (greaterthan st))
                      (Z.to_nat (argc st - 2 - greaterthan st + 1)))
                   (argc st - 2)
                   (greaterthan st)))
      | None => ([], None)
      end
    else ([Open_failed outfile true; Printf_permission_denied outfile], None)
  else ([], Some st).

(** [if (i > 0) {...}] and [if (i < num_children-1) {...}] *)
Definition connect_pipes (i num_children : nat) : list Action :=
  (if 0 <? Z.of_nat i
   then [Dup2 (Pipe_fd (i - 1) false) STDIN_FILENO; Close (Pipe_fd (i - 1) false)]
   else [])
  ++ (if Z.of_nat i <? Z.of_nat num_children - 1
      then [Dup2 (Pipe_fd i true) STDOUT_FILENO; Close (Pipe_fd i true)]
      else []).

(** The last lines of the child: the [author] built-in or [execvp]. *)
Definition execute (sys : System) (argv : argv_t) : list Action * End :=
  match nth 0 argv None with
  | None => ([], Fault)
  | Some name =>
      if String.eqb name "author" then
        match sys_exec sys "echo" with
        | None => ([], Execlp "echo" ["echo"; AUTHOR]%string)
        | Some _ => ([Perror "echo"], Exit EXIT_FAILURE)
        end
      else
        match sys_exec sys name with
        | None => ([], Execvp name (until_null argv))
        | Some (text, errno) =>
            if String.eqb text "No such file or directory"
            then ([Printf_not_found name errno], Exit EXIT_FAILURE)
            else ([Perror name], Exit EXIT_FAILURE)
        end
  end.

(** The child of stage [i], from the line after [if (pids[i] == 0)].
    [argc] is [argcs[i]], the number of nodes of the stage's chain; for a
    chain of words and redirection operators, as [Parse] builds them, that
    is the number of entries [setargs] stores before the NULL. *)
Definition run (sys : System) (i num_pipes : nat) (args : argv_t)
    : list Action * End :=
  let num_children := (num_pipes + 1)%nat in
  let argc0 := Z.of_nat (List.length args) - 1 in
  let closes := close_others i num_pipes in
  match scan args 1 (Z.to_nat (argc0 - 2)) (-1) (-1) with
  | None => (closes, Fault)
  | Some (lessthan, greaterthan0) =>
      match redirect_input sys lessthan (mkArgs args argc0 greaterthan0) with
      | (input, None) => (closes ++ input, Exit EXIT_FAILURE)
      | (input, Some st1) =>
          match redirect_output sys st1 with
          | (output, None) => (closes ++ input ++ output, Exit EXIT_FAILURE)
          | (output, Some st2) =>
              let pipes := connect_pipes i num_children in
              let '(last, e) := execute sys (argv st2) in
              (closes ++ input ++ output ++ pipes ++ last, e)
          end
      end
  end.

(** Where a standard descriptor points in the end: the last [dup2] onto
    it, if any. *)
Fixpoint target (std : Std) (actions : list Action) (current : option Fd)
    : option Fd :=
  match actions with
  | [] => current
  | Dup2 fd STDIN_FILENO :: rest =>
      target std rest (match std with STDIN_FILENO => Some fd | _ => current end)
  | Dup2 fd STDOUT_FILENO :: rest =>
      target std rest (match std with STDOUT_FILENO => Some fd | _ => current end)
  | _ :: rest => target std rest current
  end.

(** How often a pipe end is closed. *)
Definition is_close (j : nat) (write_end : bool) (a : Action) : bool :=
  match a with
  | Close (Pipe_fd j' w) => Nat.eqb j j' && Bool.eqb write_end w
  | _ => false
  end.

Definition closes_of (j : nat) (write_end : bool) (actions : list Action) : nat :=
  List.length (filter (is_close j write_end) actions).

Definition is_operator (w : string) : bool :=
  String.eqb w "<" || String.eqb w ">".

(** No entry is a redirection operator. *)
Definition plain (words : list string) : Prop :=
  Forall (fun w => is_operator w = false) words.

(** The arguments of a command (after its name) with at most one
    redirection of each direction, each followed by its file: the file of
    the input redirection, the file of the output redirection, and the
    arguments without the redirections. *)
Inductive redirections
  : list string -> option string -> option string -> list string -> Prop :=
| no_redirection a :
    plain a -> redirections a None None a
| input_only a f b :
    plain (a ++ f :: b) ->
    redirections (a ++ "<"%string :: f :: b) (Some f) None (a ++ b)
| output_only a g b :
    plain (a ++ g :: b) ->
    redirections (a ++ ">"%string :: g :: b) None (Some g) (a ++ b)
| input_then_output a f b g c :
    plain (a ++ f :: b ++ g :: c) ->
    redirections (a ++ "<"%string :: f :: b ++ ">"%string :: g :: c)
      (Some f) (Some g) (a ++ b ++ c)
| output_then_input a g b f c :
    plain (a ++ g :: b ++ f :: c) ->
    redirections (a ++ ">"%string :: g :: b ++ "<"%string :: f :: c)
      (Some f) (Some g) (a ++ b ++ c).

(** The argument array of a command: its name, its arguments, NULL. *)
Definition array (name : string) (args : list string) : argv_t :=
  Some name :: map Some args ++ [None].

(** The actions of a redirection the system lets open its file. *)
Definition input_actions (infile : option string) : list Action :=
  match infile with
  | Some f => [Dup2 (File_fd f false) STDIN_FILENO; Close (File_fd f false)]
  | None => []
  end.

Definition output_actions (outfile : option string) : list Action :=
  match outfile with
  | Some g => [Dup2 (File_fd g true) STDOUT_FILENO; Close (File_fd g true)]
  | None => []
  end.

Definition may_open (sys : System) (file : option string) (for_writing : bool)
    : Prop :=
  match file with
  | Some f => sys_open sys f for_writing = true
  | None => True
  end.

(** What the last lines add to the actions: at most a message. *)
Definition is_message (a : Action) : bool :=
  match a with
  | Perror _ | Printf_not_found _ _ => true
  | _ => false
  end.

(** A system that opens every file and executes every program. *)
Definition sys_example : System := mkSystem (fun _ _ => true) (fun _ => None).

(** A system that lets no file be opened. *)
Definition sys_refusing : System :=
  mkSystem (fun _ _ => false) (fun _ => None).

End Child.
(** ** The shell process when a stage or a system call ends it *)

Module ShellEnd.
Import Pipeline Execute.

Local Open Scope Z_scope.

(** What the shell process has logged once the pipes exist and the first
    [forked] stages have their children. *)
Definition started (os : OS) (num_pipes forked : nat) : list Event :=
  map Pipe_created (seq 0 num_pipes)
  ++ map (fun j => Forked j (sys_fork os j)) (seq 0 forked).

(** [cat notes | exit] *)
Definition pipeline_exit : AST :=
  Node OP_PIPE None (word "cat" (word "notes" NULL)) (word "exit" NULL).

(** A system whose second [pipe] call fails. *)
Definition os_one_pipe : OS :=
  mkOS (fun i => Nat.eqb i 0) (fun i => 101 + Z.of_nat i)
       (Some "/home/user"%string) (fun _ d => Some d) (fun _ => (-1, 0)).

(** A system whose second [fork] call fails. *)
Definition os_one_fork : OS :=
  mkOS (fun _ => true) (fun i => if Nat.eqb i 1 then -1 else 101 + Z.of_nat i)
       (Some "/home/user"%string) (fun _ d => Some d) (fun _ => (-1, 0)).

End ShellEnd.

(** ** The stages of a pipeline and their redirections *)

Module Stage.
Import Pipeline Execute.

(** The command chains [setargs] makes arrays of, first stage first: the
    right child of each pipe node down the left spine, and the tree where
    the spine ends. *)
Fixpoint stages (pipeline : AST) : list AST :=
  match pipeline with
  | NULL => []
  | Node t _ l r =>
      if ASTNodeType_eqb t OP_PIPE then stages l ++ [r] else [pipeline]
  end.

(** Every redirect node has a word node on its right: its file. *)
Fixpoint file_follows (a : AST) : bool :=
  match a with
  | NULL => true
  | Node t _ l r =>
      file_follows l && file_follows r
      && (if is_redirect t
          then match r with
               | Node t' _ _ _ => isword t'
               | NULL => false
               end
          else true)
  end.

(** No word of the tree has the text of a redirection operator. *)
Fixpoint words_plain (a : AST) : bool :=
  match a with
  | NULL => true
  | Node t v l r =>
      (if isword t
       then match v with
            | Some s => negb (Child.is_operator s)
            | None => true
            end
       else true)
      && words_plain l && words_plain r
  end.

(** What a stage of a parsed tree inherits from the tree. *)
Definition stage_ok (c : AST) : Prop :=
  ParseTurn.command c = true /\ file_follows c = true /\ words_plain c = true
  /\ (count_type OP_LESSTHAN c <= 1)%nat
  /\ (count_type OP_GREATERTHAN c <= 1)%nat.

(** [sort < in | wc > out] as a token stream. *)
Definition tokens_example : CList :=
  [Parser.tok_word "sort"; Parser.tok_less; Parser.tok_word "in";
   Parser.tok_pipe; Parser.tok_word "wc"; Parser.tok_greater;
   Parser.tok_word "out"].

End Stage.

(** * Properties *)

(** ** Executor: aggregate exit status and the [cd] built-in *)

Module ExecuteProps.
Import Pipeline Execute.

Local Open Scope Z_scope.

Lemma wait_children_fold os : forall count i exit_val sh,
  fst (wait_children os i count exit_val sh)
  = fold_left wait_step (map (sys_wait os) (seq i count)) exit_val.
Proof.
  induction count as [|count IH]; intros i exit_val sh; simpl; [reflexivity|].
  unfold wait_step at 2, reaped_nonzero.
  destruct (sys_wait os i) as [pid st]; simpl.
  destruct ((0 <? pid) && negb (WEXITSTATUS st =? 0)); apply IH.
Qed.

Lemma find_append {A} (f : A -> bool) : forall l1 l2,
  find f (l1 ++ l2)
  = match find f l1 with Some x => Some x | None => find f l2 end.
Proof.
  induction l1 as [|x l1 IH]; intros l2; simpl; [reflexivity|].
  destruct (f x); [reflexivity|apply IH].
Qed.

Lemma fold_wait_step_find : forall reaped exit_val,
  fold_left wait_step reaped exit_val
  = match find reaped_nonzero (rev reaped) with
    | Some r => WEXITSTATUS (snd r)
    | None => exit_val
    end.
Proof.
  induction reaped as [|r reaped IH]; intros exit_val; simpl; [reflexivity|].
  rewrite IH, find_append.
  destruct (find reaped_nonzero (rev reaped)); [reflexivity|].
  simpl. unfold wait_step. destruct (reaped_nonzero r); reflexivity.
Qed.

Lemma wait_children_aggregate os count sh :
  fst (wait_children os 0 count 0 sh)
  = aggregate_status (map (sys_wait os) (seq 0 count)).
Proof.
  rewrite wait_children_fold, fold_wait_step_find. reflexivity.
Qed.

Lemma create_pipes_ok os : forall count i sh,
  (forall j, (i <= j < i + count)%nat -> sys_pipe os j = true) ->
  exists sh', create_pipes os i count sh = inl sh'.
Proof.
  induction count as [|count IH]; intros i sh Hp; simpl.
  - eauto.
  - rewrite (Hp i) by lia. apply IH. intros j Hj. apply Hp. lia.
Qed.

Lemma spawn_external os : forall argvs i sh,
  Forall external_stage argvs ->
  (forall j, (i <= j < i + List.length argvs)%nat -> 0 < sys_fork os j) ->
  exists sh', spawn os i argvs sh = inl sh'.
Proof.
  induction argvs as [|slot argvs IH]; intros i sh Hext Hfork; simpl.
  - eauto.
  - inversion Hext as [|? ? [argv [-> Hargv]] Hrest]; subst.
    unfold is_external in Hargv.
    destruct (arg argv 0) as [name|]; [|discriminate].
    apply negb_true_iff in Hargv.
    apply orb_false_iff in Hargv as [Hargv Hcd].
    rewrite Hargv, Hcd.
    pose proof (Hfork i ltac:(simpl; lia)) as Hpid.
    destruct (Z.eqb_spec (sys_fork os i) (-1)); [lia|].
    destruct (Z.eqb_spec (sys_fork os i) 0); [lia|].
    apply IH; [assumption|].
    intros j Hj. apply Hfork. simpl. lia.
Qed.

Lemma aggregate_all_zero reaped :
  Forall (fun r => 0 < fst r -> WEXITSTATUS (snd r) = 0) reaped ->
  aggregate_status reaped = 0.
Proof.
  intros Hall. unfold aggregate_status.
  destruct (find reaped_nonzero (rev reaped)) as [r|] eqn:Hfind; [|reflexivity].
  apply find_some in Hfind as [Hin Hnz].
  apply in_rev in Hin. rewrite Forall_forall in Hall.
  unfold reaped_nonzero in Hnz. apply andb_true_iff in Hnz as [Hpid Hst].
  apply Z.ltb_lt in Hpid. rewrite (Hall r Hin Hpid) in Hst. discriminate.
Qed.

Lemma find_none_of_Forall {A} (f : A -> bool) l :
  Forall (fun x => f x = false) l -> find f l = None.
Proof.
  induction 1 as [|x l Hx _ IH]; simpl; [reflexivity|]. now rewrite Hx.
Qed.

Lemma aggregate_last_nonzero pre r post :
  0 < fst r -> WEXITSTATUS (snd r) <> 0 ->
  Forall (fun r' => reaped_nonzero r' = false) post ->
  aggregate_status (pre ++ r :: post) = WEXITSTATUS (snd r).
Proof.
  intros Hpid Hst Hpost. unfold aggregate_status.
  rewrite rev_app_distr. simpl. rewrite <- app_assoc, find_append.
  rewrite find_none_of_Forall by (apply Forall_rev; assumption).
  simpl. unfold reaped_nonzero at 1.
  apply Z.ltb_lt in Hpid. rewrite Hpid.
  apply Z.eqb_neq in Hst. rewrite Hst. reflexivity.
Qed.

Lemma find_filter_weaker {A} (f g : A -> bool) :
  (forall x, f x = true -> g x = true) ->
  forall l, find f (filter g l) = find f l.
Proof.
  intros Hfg. induction l as [|x l IH]; simpl; [reflexivity|].
  destruct (g x) eqn:Hg; simpl.
  - now rewrite IH.
  - destruct (f x) eqn:Hf; [|exact IH].
    rewrite (Hfg x Hf) in Hg. discriminate.
Qed.

Lemma filter_rev {A} (g : A -> bool) : forall l,
  filter g (rev l) = rev (filter g l).
Proof.
  induction l as [|x l IH]; simpl; [reflexivity|].
  rewrite filter_app, IH. simpl. destruct (g x); simpl.
  - reflexivity.
  - now rewrite app_nil_r.
Qed.

Lemma aggregate_ignores_invalid reaped :
  aggregate_status (filter (fun r => 0 <? fst r) reaped)
  = aggregate_status reaped.
Proof.
  unfold aggregate_status. rewrite <- filter_rev, find_filter_weaker; [reflexivity|].
  intros r Hr. unfold reaped_nonzero in Hr.
  now apply andb_true_iff in Hr as [Hr _].
Qed.

Lemma argvs_of_length pipeline n :
  (List.length (setargs pipeline) <= n)%nat ->
  List.length (argvs_of pipeline n) = n.
Proof.
  intros Hle. unfold argvs_of.
  rewrite length_app, repeat_length, length_map. lia.
Qed.

Lemma setargs_length pipeline :
  (List.length (setargs pipeline) <= AST_countcommands pipeline)%nat.
Proof.
  unfold AST_countcommands.
  induction pipeline as [|t v l IHl r IHr]; simpl; [lia|].
  destruct t; simpl; try lia.
  rewrite length_app. simpl. lia.
Qed.

(** C1.  For a pipeline whose stages are all external commands, with every
    [pipe] and [fork] succeeding, [AST_execute] returns to the shell with the
    aggregate of what the [wait] calls reported: 0 if every reaped child
    exited with status 0, otherwise the exit status of the last child reaped
    with a non-zero status; a [wait] result whose pid is not positive changes
    nothing. *)
Theorem AST_execute_aggregate_status os pipeline sh :
  let n := AST_countcommands pipeline in
  let reaped := map (sys_wait os) (seq 0 n) in
  Forall external_stage (argvs_of pipeline n) ->
  (forall i, (i < AST_countpipes pipeline)%nat -> sys_pipe os i = true) ->
  (forall i, (i < n)%nat -> 0 < sys_fork os i) ->
  (exists sh', AST_execute os pipeline sh = Returned (aggregate_status reaped) sh')
  /\ (Forall (fun r => 0 < fst r -> WEXITSTATUS (snd r) = 0) reaped ->
      aggregate_status reaped = 0)
  /\ (forall pre r post,
        reaped = pre ++ r :: post ->
        0 < fst r -> WEXITSTATUS (snd r) <> 0 ->
        Forall (fun r' => reaped_nonzero r' = false) post ->
        aggregate_status reaped = WEXITSTATUS (snd r))
  /\ aggregate_status (filter (fun r => 0 <? fst r) reaped)
     = aggregate_status reaped.
Proof.
  intros n reaped Hext Hpipe Hfork.
  split; [|split; [|split]].
  - unfold AST_execute.
    destruct (create_pipes_ok os (AST_countpipes pipeline) 0%nat sh) as [sh1 ->].
    { intros j Hj. apply Hpipe. lia. }
    fold (AST_countcommands pipeline) in *.
    replace (AST_countpipes pipeline + 1)%nat with n by (unfold n, AST_countcommands; lia).
    destruct (spawn_external os (argvs_of pipeline n) 0%nat sh1 Hext) as [sh2 ->].
    { intros j Hj. apply Hfork.
      rewrite argvs_of_length in Hj; [lia|apply setargs_length]. }
    pose proof (wait_children_aggregate os n
                  (close_pipes (AST_countpipes pipeline) sh2)) as Hagg.
    destruct (wait_children os 0 n 0 (close_pipes (AST_countpipes pipeline) sh2))
      as [exit_val sh4].
    simpl in Hagg. subst exit_val. eauto.
  - apply aggregate_all_zero.
  - intros pre r post -> Hpid Hst Hpost.
    now apply aggregate_last_nonzero.
  - apply aggregate_ignores_invalid.
Qed.


Lemma AST_execute_aggregate_status_witness :
  exists sh',
    AST_execute os_example pipeline_example (mkShell "/" []) = Returned 1 sh'.
Proof.
  destruct (AST_execute_aggregate_status os_example pipeline_example (mkShell "/" []))
    as [Hret _].
  - repeat constructor; eexists; split; reflexivity.
  - intros i _. reflexivity.
  - intros i _. change (0 < 101 + Z.of_nat i). lia.
  - exact Hret.
Defined.


(** Scenario 6: the line [cd] alone moves the shell to the home directory
    and creates no process. *)
Example cd_alone :
  AST_execute os_example (word "cd" NULL) (mkShell "/" [])
  = Returned 0 (mkShell "/home/user" [Chdir (Some "/home/user"%string)]).
Proof. reflexivity. Qed.

(** What [argv[1]] is when a redirection follows the name at once: for
    [cd > out] the array is [cd], [>], [out], and [chdir] is called on the
    operator. *)
Example cd_before_redirection :
  setargs (word "cd" (Node OP_GREATERTHAN None NULL (word "out" NULL)))
  = [[Some "cd"; Some ">"; Some "out"; None]]%string
  /\ trace (builtin_cd os_example [Some "cd"; Some ">"; Some "out"; None]%string
              (mkShell "/" []))
     = [Chdir (Some ">"%string)].
Proof. split; reflexivity. Qed.

End ExecuteProps.

(** ** Parser: grammar errors and the redirection invariant *)

Module ParserProps.
Import Pipeline Parser.

Lemma count_set_last_right t : forall temp right,
  temp <> NULL ->
  count_type t (set_last_right temp right)
  = (count_type t temp + count_type t right)%nat.
Proof.
  induction temp as [|ty v l _ r IHr]; intros right Hne; [congruence|].
  destruct r as [|ty' v' l' r'].
  - simpl. lia.
  - change (set_last_right (Node ty v l (Node ty' v' l' r')) right)
      with (Node ty v l (set_last_right (Node ty' v' l' r') right)).
    cbn [count_type]. rewrite IHr by discriminate. cbn [count_type]. lia.
Qed.

Lemma count_AST_append t pipeline right :
  count_type t (AST_append pipeline right)
  = (count_type t pipeline + count_type t right)%nat.
Proof.
  destruct right as [|ty v l r]; simpl; [lia|].
  destruct pipeline as [|ty' v' l' r']; [reflexivity|].
  destruct r' as [|ty2 v2 l2 r2].
  - simpl. lia.
  - cbn [count_type]. rewrite count_set_last_right by discriminate.
    cbn [count_type]. lia.
Qed.

Lemma AST_append_not_null pipeline right :
  pipeline <> NULL -> AST_append pipeline right <> NULL.
Proof.
  destruct right, pipeline as [|? ? ? [|]]; simpl; congruence.
Qed.

Lemma AST_type_append pipeline right :
  pipeline <> NULL -> AST_type (AST_append pipeline right) = AST_type pipeline.
Proof.
  destruct right, pipeline as [|? ? ? [|]]; simpl; congruence.
Qed.

Lemma count_append_paths t : forall pathv pipeline,
  t <> WORD ->
  count_type t (append_paths pipeline pathv) = count_type t pipeline.
Proof.
  induction pathv as [|path pathv IH]; intros pipeline Ht;
    cbn [append_paths]; [reflexivity|].
  rewrite IH, count_AST_append by assumption. simpl.
  destruct t; simpl; try lia. congruence.
Qed.

Lemma append_paths_not_null : forall pathv pipeline,
  pipeline <> NULL -> append_paths pipeline pathv <> NULL.
Proof.
  induction pathv as [|path pathv IH]; intros pipeline Hne;
    cbn [append_paths]; [assumption|].
  apply IH. now apply AST_append_not_null.
Qed.

Lemma root_ok_append_paths : forall pathv pipeline,
  root_ok pipeline -> root_ok (append_paths pipeline pathv).
Proof.
  induction pathv as [|path pathv IH]; intros pipeline Hok;
    cbn [append_paths]; [assumption|].
  apply IH. destruct pipeline as [|ty v l r].
  - reflexivity.
  - unfold root_ok. rewrite AST_type_append by discriminate. exact Hok.
Qed.

Section WithGlob.

Variable glob : string -> Z * list string.

Lemma count_glob_append t pipeline value :
  t <> WORD ->
  count_type t (fst (glob_append glob pipeline value)) = count_type t pipeline.
Proof.
  intros Ht. unfold glob_append. destruct (glob value) as [globexit pathv].
  destruct (negb (globexit =? 0)%Z); simpl; [reflexivity|].
  now apply count_append_paths.
Qed.

Lemma glob_append_not_null pipeline value :
  pipeline <> NULL -> fst (glob_append glob pipeline value) <> NULL.
Proof.
  intros Hne. unfold glob_append. destruct (glob value) as [globexit pathv].
  destruct (negb (globexit =? 0)%Z); simpl; [assumption|].
  now apply append_paths_not_null.
Qed.

Lemma root_ok_glob_append pipeline value :
  root_ok pipeline -> root_ok (fst (glob_append glob pipeline value)).
Proof.
  intros Hok. unfold glob_append. destruct (glob value) as [globexit pathv].
  destruct (negb (globexit =? 0)%Z); simpl; [assumption|].
  now apply root_ok_append_paths.
Qed.

(** *** The loop of [Parse], one token type at a time *)

Lemma Parse_loop_quoted token tokens1 ret rin rout :
  type token = TOK_QUOTED_WORD ->
  Parse_loop glob (token :: tokens1) ret rin rout
  = match value token with
    | Some v =>
        Parse_loop glob tokens1
          (AST_append ret (Node QUOTED_WORD (Some v) NULL NULL)) rin rout
    | None => Aborts
    end.
Proof.
  intros Htt. cbn [Parse_loop]. rewrite Htt.
  destruct (value token); reflexivity.
Qed.

Lemma Parse_loop_word token tokens1 ret rin rout :
  type token = TOK_WORD ->
  Parse_loop glob (token :: tokens1) ret rin rout
  = match value token with
    | Some v =>
        if negb (snd (glob_append glob ret v) =? 0)%Z
        then Returns NULL "Glob encountered an error"
        else Parse_loop glob tokens1 (fst (glob_append glob ret v)) rin rout
    | None => Aborts
    end.
Proof.
  intros Htt. cbn [Parse_loop]. rewrite Htt.
  destruct (value token); [|reflexivity].
  destruct (glob_append glob ret s); reflexivity.
Qed.

Lemma Parse_loop_redirect token tokens1 ret rin rout :
  is_redirection (type token) = true ->
  let rin' := (rin + bool_to_int (TokenType_eqb (type token) TOK_LESSTHAN))%Z in
  let rout' := (rout + bool_to_int (TokenType_eqb (type token) TOK_GREATERTHAN))%Z in
  Parse_loop glob (token :: tokens1) ret rin rout
  = if is_null ret then Returns NULL "No command specified"
    else if match AST_type ret with Some t => is_redirect t | None => false end
         then Returns NULL "No command specified"
    else if ((1 <? rin') || (1 <? rout'))%Z
         then Returns NULL "Multiple redirection"
    else if negb (TokenType_eqb (TOK_next_type tokens1) TOK_WORD)
         then Returns NULL "Expect filename after redirection"
    else redirect_target glob (type token) tokens1 ret
           (fun tokens2 ret' => Parse_loop glob tokens2 ret' rin' rout').
Proof.
  intros Htt rin' rout'. unfold redirect_target.
  cbn [Parse_loop]. fold rin' rout'.
  destruct (type token); try discriminate Htt;
    (destruct ret as [|t v l r]; [reflexivity|]);
    cbn [is_null AST_type];
    (destruct (is_redirect t); [reflexivity|]);
    cbn [is_empty andb];
    (destruct ((1 <? rin') || (1 <? rout'))%Z; [reflexivity|]);
    cbn [is_empty andb];
    (destruct (negb (TokenType_eqb (TOK_next_type tokens1) TOK_WORD));
       [reflexivity|]);
    cbn [is_empty negb];
    (destruct tokens1 as [|next tokens2]; [reflexivity|]);
    (destruct (value next); [|reflexivity]);
    destruct (glob_append glob NULL s); reflexivity.
Qed.

Lemma Parse_loop_pipe token tokens1 ret rin rout :
  type token = TOK_PIPE ->
  Parse_loop glob (token :: tokens1) ret rin rout
  = if is_null ret then Returns NULL "No command specified"
    else if negb (TokenType_eqb (TOK_next_type tokens1) TOK_WORD)
            && negb (TokenType_eqb (TOK_next_type tokens1) TOK_QUOTED_WORD)
         then Returns NULL "No command specified"
    else pipe_command glob tokens1 ret
           (fun tokens2 ret' => Parse_loop glob tokens2 ret' rin rout).
Proof.
  intros Htt. unfold pipe_command. cbn [Parse_loop]. rewrite Htt.
  destruct ret as [|t v l r]; [reflexivity|].
  cbn [is_null is_empty andb].
  destruct tokens1 as [|next tokens2]; [reflexivity|].
  cbn [TOK_next_type].
  destruct (type next) eqn:Hnext; cbn; try reflexivity.
  - destruct (value next); [|reflexivity].
    destruct (glob_append glob NULL s); reflexivity.
  - destruct (value next); reflexivity.
Qed.

Lemma TokenType_eqb_eq a b : TokenType_eqb a b = true -> a = b.
Proof. destruct a, b; simpl; congruence. Qed.

Lemma count_tokens_cons tt t tokens :
  count_tokens tt (t :: tokens)
  = ((if TokenType_eqb (type t) tt then 1 else 0) + count_tokens tt tokens)%nat.
Proof.
  unfold count_tokens. simpl. destruct (TokenType_eqb (type t) tt); reflexivity.
Qed.

Lemma AST_redirect_inv t right node :
  AST_redirect t right = Some node ->
  node = Node t None NULL right /\ is_redirect t = true /\ right <> NULL.
Proof.
  unfold AST_redirect. destruct (is_redirect t); [|discriminate].
  destruct right as [|[] ? ? ?]; try discriminate.
  intros [= <-]. repeat split. discriminate.
Qed.

Lemma AST_pipe_inv left right node :
  AST_pipe left right = Some node -> node = Node OP_PIPE None left right.
Proof.
  unfold AST_pipe. destruct left; [discriminate|]. destruct right; [discriminate|].
  now intros [= <-].
Qed.

(** *** Running the loop over a prefix of the stream *)

(** When the loop runs through [pre] without an error, it is after [pre] in
    the state the counts of [pre] describe, whatever follows. *)
Lemma Parse_loop_prefix : forall n pre ret rin rout a,
  (List.length pre <= n)%nat ->
  materialized pre ->
  Parse_loop glob pre ret rin rout = Returns a "" ->
  (forall rest,
     Parse_loop glob (pre ++ rest) ret rin rout
     = Parse_loop glob rest a
         (rin + Z.of_nat (count_tokens TOK_LESSTHAN pre))%Z
         (rout + Z.of_nat (count_tokens TOK_GREATERTHAN pre))%Z)
  /\ (root_ok ret -> root_ok a)
  /\ (ret <> NULL -> a <> NULL)
  /\ ((0 < count_tokens TOK_LESSTHAN pre + count_tokens TOK_GREATERTHAN pre)%nat ->
      a <> NULL)
  /\ ((rin <= 1 /\ rout <= 1)%Z ->
      (rin + Z.of_nat (count_tokens TOK_LESSTHAN pre) <= 1
       /\ rout + Z.of_nat (count_tokens TOK_GREATERTHAN pre) <= 1)%Z).
Proof.
  induction n as [|n IH]; intros pre ret rin rout a Hlen Hmat Hrun.
  - destruct pre; [|simpl in Hlen; lia].
    simpl in Hrun. injection Hrun as <-.
    (split; [|split; [|split; [|split]]]); try tauto.
    + intros rest. simpl. now rewrite !Z.add_0_r.
    + unfold count_tokens. simpl. lia.
    + unfold count_tokens. simpl. lia.
  - destruct pre as [|token tokens1].
    { simpl in Hrun. injection Hrun as <-.
      (split; [|split; [|split; [|split]]]); try tauto.
      + intros rest. simpl. now rewrite !Z.add_0_r.
      + unfold count_tokens. simpl. lia.
      + unfold count_tokens. simpl. lia. }
    inversion Hmat as [|? ? Htok Hmat1]; subst.
    simpl in Hlen.
    rewrite !count_tokens_cons.
    destruct (type token) eqn:Htt; try congruence.
    + (* TOK_WORD *)
      rewrite Parse_loop_word in Hrun by assumption.
      destruct (value token) as [v|] eqn:Hv; [|discriminate].
      destruct (negb (snd (glob_append glob ret v) =? 0)%Z) eqn:Hg; [discriminate|].
      destruct (IH tokens1 _ _ _ _ ltac:(lia) Hmat1 Hrun) as (Happ & Hroot & Hnn & Hred & Hbound).
      split; [|split; [|split; [|split]]].
      * intros rest. cbn [app]. rewrite Parse_loop_word, Hv, Hg by assumption.
        rewrite Happ. cbn [TokenType_eqb]. reflexivity.
      * intros Hok. apply Hroot. now apply root_ok_glob_append.
      * intros Hne. apply Hnn. now apply glob_append_not_null.
      * cbn [TokenType_eqb]. exact Hred.
      * cbn [TokenType_eqb]. exact Hbound.
    + (* TOK_QUOTED_WORD *)
      rewrite Parse_loop_quoted in Hrun by assumption.
      destruct (value token) as [v|] eqn:Hv; [|discriminate].
      destruct (IH tokens1 _ _ _ _ ltac:(lia) Hmat1 Hrun) as (Happ & Hroot & Hnn & Hred & Hbound).
      split; [|split; [|split; [|split]]].
      * intros rest. cbn [app]. rewrite Parse_loop_quoted, Hv by assumption.
        rewrite Happ. cbn [TokenType_eqb]. reflexivity.
      * intros Hok. apply Hroot. destruct ret as [|ty v' l r]; [reflexivity|].
        unfold root_ok. rewrite AST_type_append by discriminate. exact Hok.
      * intros Hne. apply Hnn. now apply AST_append_not_null.
      * cbn [TokenType_eqb]. exact Hred.
      * cbn [TokenType_eqb]. exact Hbound.
    + (* TOK_LESSTHAN *)
      assert (Hr : is_redirection (type token) = true) by (rewrite Htt; reflexivity).
      rewrite (Parse_loop_redirect token tokens1 ret rin rout Hr) in Hrun.
      cbv zeta in Hrun.
      destruct (is_null ret) eqn:Hnull; [discriminate|].
      destruct (match AST_type ret with Some t => is_redirect t | None => false end)
        eqn:Hrt; [discriminate|].
      destruct ((1 <? rin + bool_to_int (TokenType_eqb (type token) TOK_LESSTHAN))
                || (1 <? rout + bool_to_int (TokenType_eqb (type token) TOK_GREATERTHAN)))%Z
        eqn:Hcnt; [discriminate|].
      destruct tokens1 as [|next tokens2]; [discriminate|].
      cbn [TOK_next_type] in Hrun.
      destruct (TokenType_eqb (type next) TOK_WORD) eqn:Hnext; [|discriminate].
      apply TokenType_eqb_eq in Hnext.
      cbn [negb redirect_target] in Hrun.
      destruct (value next) as [v|] eqn:Hv; [|discriminate].
      destruct (negb (snd (glob_append glob NULL v) =? 0)%Z) eqn:Hg; [discriminate|].
      destruct (ASTNodeType_of_TokenType (type token)) as [t|] eqn:Ht; [|discriminate].
      destruct (AST_redirect t (fst (glob_append glob NULL v))) as [node|] eqn:Hnode;
        [|discriminate].
      inversion Hmat1 as [|? ? Hnext_ok Hmat2]; subst.
      simpl in Hlen.
      destruct (IH tokens2 _ _ _ _ ltac:(lia) Hmat2 Hrun) as (Happ & Hroot & Hnn & Hred & Hbound).
      assert (Hne : ret <> NULL) by (destruct ret; [discriminate|congruence]).
      split; [|split; [|split; [|split]]].
      * intros rest. cbn [app].
        rewrite (Parse_loop_redirect token (next :: tokens2 ++ rest) ret rin rout Hr).
        cbv zeta. rewrite Hnull, Hrt, Hcnt. cbn [TOK_next_type].
        rewrite Hnext. cbn [TokenType_eqb negb redirect_target].
        rewrite Hv, Hg, Ht, Hnode, Happ.
        rewrite count_tokens_cons, (count_tokens_cons _ next), Hnext, Htt.
        cbn [TokenType_eqb bool_to_int]. f_equal; lia.
      * intros Hok. apply Hroot. unfold root_ok.
        rewrite AST_type_append by assumption. exact Hok.
      * intros _. apply Hnn. now apply AST_append_not_null.
      * intros _. apply Hnn. now apply AST_append_not_null.
      * intros _. apply orb_false_iff in Hcnt as [Hc1 Hc2].
        apply Z.ltb_ge in Hc1, Hc2.
        specialize (Hbound (conj Hc1 Hc2)).
        rewrite (count_tokens_cons _ next), (count_tokens_cons _ next), Hnext.
        rewrite Htt in Hbound. cbn [TokenType_eqb bool_to_int] in *. lia.
    + (* TOK_GREATERTHAN *)
      assert (Hr : is_redirection (type token) = true) by (rewrite Htt; reflexivity).
      rewrite (Parse_loop_redirect token tokens1 ret rin rout Hr) in Hrun.
      cbv zeta in Hrun.
      destruct (is_null ret) eqn:Hnull; [discriminate|].
      destruct (match AST_type ret with Some t => is_redirect t | None => false end)
        eqn:Hrt; [discriminate|].
      destruct ((1 <? rin + bool_to_int (TokenType_eqb (type token) TOK_LESSTHAN))
                || (1 <? rout + bool_to_int (TokenType_eqb (type token) TOK_GREATERTHAN)))%Z
        eqn:Hcnt; [discriminate|].
      destruct tokens1 as [|next tokens2]; [discriminate|].
      cbn [TOK_next_type] in Hrun.
      destruct (TokenType_eqb (type next) TOK_WORD) eqn:Hnext; [|discriminate].
      apply TokenType_eqb_eq in Hnext.
      cbn [negb redirect_target] in Hrun.
      destruct (value next) as [v|] eqn:Hv; [|discriminate].
      destruct (negb (snd (glob_append glob NULL v) =? 0)%Z) eqn:Hg; [discriminate|].
      destruct (ASTNodeType_of_TokenType (type token)) as [t|] eqn:Ht; [|discriminate].
      destruct (AST_redirect t (fst (glob_append glob NULL v))) as [node|] eqn:Hnode;
        [|discriminate].
      inversion Hmat1 as [|? ? Hnext_ok Hmat2]; subst.
      simpl in Hlen.
      destruct (IH tokens2 _ _ _ _ ltac:(lia) Hmat2 Hrun) as (Happ & Hroot & Hnn & Hred & Hbound).
      assert (Hne : ret <> NULL) by (destruct ret; [discriminate|congruence]).
      split; [|split; [|split; [|split]]].
      * intros rest. cbn [app].
        rewrite (Parse_loop_redirect token (next :: tokens2 ++ rest) ret rin rout Hr).
        cbv zeta. rewrite Hnull, Hrt, Hcnt. cbn [TOK_next_type].
        rewrite Hnext. cbn [TokenType_eqb negb redirect_target].
        rewrite Hv, Hg, Ht, Hnode, Happ.
        rewrite count_tokens_cons, (count_tokens_cons _ next), Hnext, Htt.
        cbn [TokenType_eqb bool_to_int]. f_equal; lia.
      * intros Hok. apply Hroot. unfold root_ok.
        rewrite AST_type_append by assumption. exact Hok.
      * intros _. apply Hnn. now apply AST_append_not_null.
      * intros _. apply Hnn. now apply AST_append_not_null.
      * intros _. apply orb_false_iff in Hcnt as [Hc1 Hc2].
        apply Z.ltb_ge in Hc1, Hc2.
        specialize (Hbound (conj Hc1 Hc2)).
        rewrite (count_tokens_cons _ next), (count_tokens_cons _ next), Hnext.
        rewrite Htt in Hbound. cbn [TokenType_eqb bool_to_int] in *. lia.
    + (* TOK_PIPE *)
      rewrite (Parse_loop_pipe token tokens1 ret rin rout Htt) in Hrun.
      destruct (is_null ret) eqn:Hnull; [discriminate|].
      destruct tokens1 as [|next tokens2]; [discriminate|].
      cbn [TOK_next_type] in Hrun.
      destruct (negb (TokenType_eqb (type next) TOK_WORD)
                && negb (TokenType_eqb (type next) TOK_QUOTED_WORD)) eqn:Hnext;
        [discriminate|].
      cbn [pipe_command] in Hrun.
      destruct (value next) as [v|] eqn:Hv; [|discriminate].
      cbv zeta in Hrun.
      set (tempcmd := if TokenType_eqb (type next) TOK_WORD
                      then glob_append glob NULL v
                      else (Node QUOTED_WORD (Some v) NULL NULL, 0%Z)) in *.
      destruct (negb (snd tempcmd =? 0)%Z) eqn:Hg; [discriminate|].
      destruct (AST_pipe ret (fst tempcmd)) as [node|] eqn:Hnode; [|discriminate].
      inversion Hmat1 as [|? ? Hnext_ok Hmat2]; subst.
      simpl in Hlen.
      destruct (IH tokens2 _ _ _ _ ltac:(lia) Hmat2 Hrun) as (Happ & Hroot & Hnn & Hred & Hbound).
      apply AST_pipe_inv in Hnode as Hshape.
      assert (Hnode_ne : node <> NULL) by (subst node; discriminate).
      assert (Hnext_word : TokenType_eqb (type next) TOK_LESSTHAN = false
                           /\ TokenType_eqb (type next) TOK_GREATERTHAN = false).
      { destruct (type next); simpl in Hnext; try discriminate; split; reflexivity. }
      destruct Hnext_word as [Hn1 Hn2].
      split; [|split; [|split; [|split]]].
      * intros rest. cbn [app].
        rewrite (Parse_loop_pipe token (next :: tokens2 ++ rest) ret rin rout Htt).
        rewrite Hnull. cbn [TOK_next_type]. rewrite Hnext.
        cbn [pipe_command]. rewrite Hv. cbv zeta. fold tempcmd.
        rewrite Hg, Hnode, Happ.
        rewrite (count_tokens_cons _ next), (count_tokens_cons _ next), Hn1, Hn2.
        cbn [TokenType_eqb]. reflexivity.
      * intros _. apply Hroot. subst node. reflexivity.
      * intros _. now apply Hnn.
      * intros _. now apply Hnn.
      * rewrite (count_tokens_cons _ next), (count_tokens_cons _ next), Hn1, Hn2.
        cbn [TokenType_eqb]. exact Hbound.
Qed.

(** *** The redirection counters follow the tree *)

Lemma counters_ok_append ret rin rout right :
  counters_ok ret rin rout ->
  count_type OP_LESSTHAN right = 0%nat ->
  count_type OP_GREATERTHAN right = 0%nat ->
  counters_ok (AST_append ret right) rin rout.
Proof.
  intros (Hin & Hout & Hi & Ho) Hl Hg. unfold counters_ok.
  rewrite !count_AST_append, Hl, Hg, !Nat.add_0_r. auto.
Qed.

Lemma Parse_loop_counts : forall n tokens ret rin rout a msg,
  (List.length tokens <= n)%nat ->
  counters_ok ret rin rout ->
  Parse_loop glob tokens ret rin rout = Returns a msg ->
  (count_type OP_LESSTHAN a <= 1)%nat /\ (count_type OP_GREATERTHAN a <= 1)%nat.
Proof.
  assert (Hnull : (count_type OP_LESSTHAN NULL <= 1)%nat
                  /\ (count_type OP_GREATERTHAN NULL <= 1)%nat) by (simpl; lia).
  assert (Hdone : forall ret rin rout, counters_ok ret rin rout ->
            (count_type OP_LESSTHAN ret <= 1)%nat
            /\ (count_type OP_GREATERTHAN ret <= 1)%nat).
  { intros ret rin rout (Hin & Hout & Hi & Ho). lia. }
  induction n as [|n IH]; intros tokens ret rin rout a msg Hlen Hok Hrun.
  - destruct tokens; [|simpl in Hlen; lia].
    simpl in Hrun. injection Hrun as <- _. eauto.
  - destruct tokens as [|token tokens1].
    { simpl in Hrun. injection Hrun as <- _. eauto. }
    simpl in Hlen.
    destruct (type token) eqn:Htt.
    + rewrite Parse_loop_word in Hrun by assumption.
      destruct (value token) as [v|]; [|discriminate].
      destruct (negb (snd (glob_append glob ret v) =? 0)%Z).
      { injection Hrun as <- _. exact Hnull. }
      apply (IH tokens1 _ _ _ _ _ ltac:(lia)) in Hrun; [assumption|].
      destruct Hok as (Hin & Hout & Hi & Ho). unfold counters_ok.
      rewrite !count_glob_append by discriminate. auto.
    + rewrite Parse_loop_quoted in Hrun by assumption.
      destruct (value token) as [v|]; [|discriminate].
      apply (IH tokens1 _ _ _ _ _ ltac:(lia)) in Hrun; [assumption|].
      now apply counters_ok_append.
    + assert (Hr : is_redirection (type token) = true) by (rewrite Htt; reflexivity).
      rewrite (Parse_loop_redirect token tokens1 ret rin rout Hr) in Hrun.
      cbv zeta in Hrun. rewrite Htt in Hrun. cbn [TokenType_eqb bool_to_int] in Hrun.
      destruct (is_null ret); [injection Hrun as <- _; exact Hnull|].
      destruct (match AST_type ret with Some t => is_redirect t | None => false end);
        [injection Hrun as <- _; exact Hnull|].
      destruct ((1 <? rin + 1) || (1 <? rout + 0))%Z eqn:Hcnt;
        [injection Hrun as <- _; exact Hnull|].
      destruct (negb (TokenType_eqb (TOK_next_type tokens1) TOK_WORD));
        [injection Hrun as <- _; exact Hnull|].
      destruct tokens1 as [|next tokens2]; [discriminate|].
      cbn [redirect_target] in Hrun.
      destruct (value next) as [v|]; [|discriminate].
      destruct (negb (snd (glob_append glob NULL v) =? 0)%Z);
        [injection Hrun as <- _; exact Hnull|].
      cbn [ASTNodeType_of_TokenType] in Hrun.
      destruct (AST_redirect OP_LESSTHAN (fst (glob_append glob NULL v)))
        as [node|] eqn:Hnode; [|discriminate].
      apply AST_redirect_inv in Hnode as (-> & _ & _).
      simpl in Hlen.
      apply (IH tokens2 _ _ _ _ _ ltac:(lia)) in Hrun; [assumption|].
      apply orb_false_iff in Hcnt as [Hc1 Hc2].
      apply Z.ltb_ge in Hc1, Hc2.
      destruct Hok as (Hin & Hout & Hi & Ho). unfold counters_ok.
      rewrite !count_AST_append. cbn [count_type ASTNodeType_eqb].
      rewrite !count_glob_append by discriminate. cbn [count_type]. lia.
    + assert (Hr : is_redirection (type token) = true) by (rewrite Htt; reflexivity).
      rewrite (Parse_loop_redirect token tokens1 ret rin rout Hr) in Hrun.
      cbv zeta in Hrun. rewrite Htt in Hrun. cbn [TokenType_eqb bool_to_int] in Hrun.
      destruct (is_null ret); [injection Hrun as <- _; exact Hnull|].
      destruct (match AST_type ret with Some t => is_redirect t | None => false end);
        [injection Hrun as <- _; exact Hnull|].
      destruct ((1 <? rin + 0) || (1 <? rout + 1))%Z eqn:Hcnt;
        [injection Hrun as <- _; exact Hnull|].
      destruct (negb (TokenType_eqb (TOK_next_type tokens1) TOK_WORD));
        [injection Hrun as <- _; exact Hnull|].
      destruct tokens1 as [|next tokens2]; [discriminate|].
      cbn [redirect_target] in Hrun.
      destruct (value next) as [v|]; [|discriminate].
      destruct (negb (snd (glob_append glob NULL v) =? 0)%Z);
        [injection Hrun as <- _; exact Hnull|].
      cbn [ASTNodeType_of_TokenType] in Hrun.
      destruct (AST_redirect OP_GREATERTHAN (fst (glob_append glob NULL v)))
        as [node|] eqn:Hnode; [|discriminate].
      apply AST_redirect_inv in Hnode as (-> & _ & _).
      simpl in Hlen.
      apply (IH tokens2 _ _ _ _ _ ltac:(lia)) in Hrun; [assumption|].
      apply orb_false_iff in Hcnt as [Hc1 Hc2].
      apply Z.ltb_ge in Hc1, Hc2.
      destruct Hok as (Hin & Hout & Hi & Ho). unfold counters_ok.
      rewrite !count_AST_append. cbn [count_type ASTNodeType_eqb].
      rewrite !count_glob_append by discriminate. cbn [count_type]. lia.
    + rewrite (Parse_loop_pipe token tokens1 ret rin rout Htt) in Hrun.
      destruct (is_null ret); [injection Hrun as <- _; exact Hnull|].
      destruct (negb (TokenType_eqb (TOK_next_type tokens1) TOK_WORD)
                && negb (TokenType_eqb (TOK_next_type tokens1) TOK_QUOTED_WORD));
        [injection Hrun as <- _; exact Hnull|].
      destruct tokens1 as [|next tokens2]; [discriminate|].
      cbn [pipe_command] in Hrun.
      destruct (value next) as [v|]; [|discriminate].
      cbv zeta in Hrun.
      set (tempcmd := if TokenType_eqb (type next) TOK_WORD
                      then glob_append glob NULL v
                      else (Node QUOTED_WORD (Some v) NULL NULL, 0%Z)) in *.
      assert (Htemp : count_type OP_LESSTHAN (fst tempcmd) = 0%nat
                      /\ count_type OP_GREATERTHAN (fst tempcmd) = 0%nat).
      { subst tempcmd. destruct (TokenType_eqb (type next) TOK_WORD).
        - rewrite !count_glob_append by discriminate. split; reflexivity.
        - split; reflexivity. }
      destruct (negb (snd tempcmd =? 0)%Z);
        [injection Hrun as <- _; exact Hnull|].
      destruct (AST_pipe ret (fst tempcmd)) as [node|] eqn:Hnode; [|discriminate].
      apply AST_pipe_inv in Hnode as ->.
      simpl in Hlen.
      apply (IH tokens2 _ _ _ _ _ ltac:(lia)) in Hrun; [assumption|].
      destruct Hok as (Hin & Hout & Hi & Ho). destruct Htemp as [Ht1 Ht2].
      unfold counters_ok. cbn [count_type ASTNodeType_eqb]. rewrite Ht1, Ht2. lia.
    + simpl in Hrun. rewrite Htt in Hrun. injection Hrun as <- _. eauto.
Qed.

(** C6.  Whatever tree [Parse] returns holds at most one input-redirect node
    and at most one output-redirect node, counted over the whole tree. *)
Theorem Parse_at_most_one_redirect_each tokens a msg :
  Parse glob tokens = Returns a msg ->
  (count_type OP_LESSTHAN a <= 1)%nat /\ (count_type OP_GREATERTHAN a <= 1)%nat.
Proof.
  intros Hrun.
  apply (Parse_loop_counts (List.length tokens) tokens NULL 0 0 a msg (le_n _)).
  - unfold counters_ok. simpl. lia.
  - exact Hrun.
Qed.

(** *** Grammar errors *)

Lemma count_tokens_pos tt t pre :
  In t pre -> type t = tt -> (0 < count_tokens tt pre)%nat.
Proof.
  intros Hin Htt. induction pre as [|x pre IH]; [contradiction|].
  rewrite count_tokens_cons. destruct Hin as [->|Hin].
  - rewrite Htt. destruct tt; simpl; lia.
  - specialize (IH Hin). lia.
Qed.

Lemma Parse_prefix pre a :
  materialized pre ->
  Parse glob pre = Returns a "" ->
  (forall rest,
     Parse glob (pre ++ rest)
     = Parse_loop glob rest a
         (Z.of_nat (count_tokens TOK_LESSTHAN pre))
         (Z.of_nat (count_tokens TOK_GREATERTHAN pre)))
  /\ root_ok a
  /\ ((0 < count_tokens TOK_LESSTHAN pre + count_tokens TOK_GREATERTHAN pre)%nat ->
      a <> NULL)
  /\ (count_tokens TOK_LESSTHAN pre <= 1 /\ count_tokens TOK_GREATERTHAN pre <= 1)%nat.
Proof.
  intros Hmat Hrun.
  destruct (Parse_loop_prefix (List.length pre) pre NULL 0 0 a (le_n _) Hmat Hrun)
    as (Happ & Hroot & _ & Hred & Hbound).
  repeat split.
  - intros rest. unfold Parse. rewrite Happ. reflexivity.
  - apply Hroot. exact I.
  - exact Hred.
  - lia.
  - lia.
Qed.

Lemma count_tokens_app tt l1 l2 :
  count_tokens tt (l1 ++ l2) = (count_tokens tt l1 + count_tokens tt l2)%nat.
Proof.
  unfold count_tokens. now rewrite filter_app, length_app.
Qed.

Lemma append_paths_root : forall pathv t v l r,
  exists r', append_paths (Node t v l r) pathv = Node t v l r'.
Proof.
  induction pathv as [|path pathv IH]; intros t v l r; cbn [append_paths].
  - eauto.
  - destruct r as [|t' v' l' r']; cbn [AST_append]; apply IH.
Qed.

Lemma glob_append_NULL_ok v paths :
  glob v = (0%Z, paths) -> paths <> [] ->
  snd (glob_append glob NULL v) = 0%Z
  /\ fst (glob_append glob NULL v) = append_paths NULL paths
  /\ exists s l r, append_paths NULL paths = Node WORD s l r.
Proof.
  intros Hglob Hne. unfold glob_append. rewrite Hglob. cbn.
  repeat split. destruct paths as [|path paths]; [congruence|].
  cbn [append_paths AST_append].
  destruct (append_paths_root paths WORD (Some path) NULL NULL) as [r' ->]. eauto.
Qed.

(** A redirection operator of a direction seen before. *)
Lemma Parse_second_redirection pre t rest a :
  materialized pre ->
  Parse glob pre = Returns a "" ->
  is_redirection (type t) = true ->
  (0 < count_tokens (type t) pre)%nat ->
  Parse glob (pre ++ t :: rest) = Returns NULL "Multiple redirection".
Proof.
  intros Hmat Hrun Hr Hpos.
  destruct (Parse_prefix pre a Hmat Hrun) as (Happ & Hroot & Hred & _).
  rewrite Happ, (Parse_loop_redirect t rest a _ _ Hr). cbv zeta.
  assert (Hne : a <> NULL).
  { apply Hred. unfold is_redirection in Hr.
    destruct (type t); simpl in Hr; try discriminate; lia. }
  destruct a as [|ty v l r]; [congruence|].
  cbn [is_null AST_type]. unfold root_ok in Hroot. cbn [AST_type] in Hroot.
  rewrite Hroot.
  destruct (type t); simpl in Hr; try discriminate; cbn [TokenType_eqb bool_to_int].
  - destruct (Z.ltb_spec 1 (Z.of_nat (count_tokens TOK_LESSTHAN pre) + 1)); [|lia].
    reflexivity.
  - destruct (Z.ltb_spec 1 (Z.of_nat (count_tokens TOK_GREATERTHAN pre) + 1)); [|lia].
    now rewrite orb_true_r.
Qed.

(** A redirection operator of a direction not seen before, arriving on a
    pipeline that is not empty. *)
Lemma Parse_first_redirection pre t a :
  materialized pre ->
  Parse glob pre = Returns a "" ->
  a <> NULL ->
  is_redirection (type t) = true ->
  count_tokens (type t) pre = 0%nat ->
  (forall rest,
     TOK_next_type rest <> TOK_WORD ->
     Parse glob (pre ++ t :: rest)
     = Returns NULL "Expect filename after redirection")
  /\ (forall g v paths ty,
        type g = TOK_WORD -> value g = Some v ->
        glob v = (0%Z, paths) -> paths <> [] ->
        ASTNodeType_of_TokenType (type t) = Some ty ->
        Parse glob (pre ++ [t; g])
        = Returns (AST_append a (Node ty None NULL (append_paths NULL paths))) "").
Proof.
  intros Hmat Hrun Hne Hr Hzero.
  destruct (Parse_prefix pre a Hmat Hrun) as (Happ & Hroot & _ & Hb1 & Hb2).
  assert (Htests : forall tokens1,
            Parse_loop glob (t :: tokens1) a
              (Z.of_nat (count_tokens TOK_LESSTHAN pre))
              (Z.of_nat (count_tokens TOK_GREATERTHAN pre))
            = if negb (TokenType_eqb (TOK_next_type tokens1) TOK_WORD)
              then Returns NULL "Expect filename after redirection"
              else redirect_target glob (type t) tokens1 a
                     (fun tokens2 ret' =>
                        Parse_loop glob tokens2 ret'
                          (Z.of_nat (count_tokens TOK_LESSTHAN pre)
                           + bool_to_int (TokenType_eqb (type t) TOK_LESSTHAN))
                          (Z.of_nat (count_tokens TOK_GREATERTHAN pre)
                           + bool_to_int (TokenType_eqb (type t) TOK_GREATERTHAN)))).
  { intros tokens1. rewrite (Parse_loop_redirect t tokens1 a _ _ Hr). cbv zeta.
    destruct a as [|ty v l r]; [congruence|].
    cbn [is_null AST_type]. unfold root_ok in Hroot. cbn [AST_type] in Hroot.
    rewrite Hroot.
    replace ((1 <? Z.of_nat (count_tokens TOK_LESSTHAN pre)
                   + bool_to_int (TokenType_eqb (type t) TOK_LESSTHAN))
             || (1 <? Z.of_nat (count_tokens TOK_GREATERTHAN pre)
                      + bool_to_int (TokenType_eqb (type t) TOK_GREATERTHAN)))%Z
      with false; [reflexivity|].
    symmetry. apply orb_false_iff.
    destruct (type t); simpl in Hr; try discriminate;
      cbn [TokenType_eqb bool_to_int]; split; apply Z.ltb_ge; lia. }
  split.
  - intros rest Hnext. rewrite Happ, Htests.
    destruct (TOK_next_type rest); try reflexivity. congruence.
  - intros g v paths ty Hg Hv Hglob Hpaths Hty.
    rewrite Happ, Htests. cbn [TOK_next_type]. rewrite Hg.
    cbn [TokenType_eqb negb redirect_target]. rewrite Hv.
    destruct (glob_append_NULL_ok v paths Hglob Hpaths) as (-> & -> & s & l & r & Hshape).
    cbn [Z.eqb negb]. rewrite Hty.
    unfold AST_redirect.
    replace (is_redirect ty) with true
      by (destruct (type t); simpl in Hr, Hty; try discriminate;
          injection Hty as <-; reflexivity).
    rewrite Hshape. cbn [Parse_loop]. now rewrite <- Hshape.
Qed.

Lemma materialized_app l1 l2 :
  materialized l1 -> materialized l2 -> materialized (l1 ++ l2).
Proof. intros H1 H2. apply Forall_app. now split. Qed.

(** C3.  When the stream parsed without error so far already holds a
    redirection of some direction, a further redirection operator of that
    direction makes [Parse] fail with ["Multiple redirection"] and return
    no tree. *)
Theorem Parse_multiple_redirection pre t rest a :
  materialized pre ->
  Parse glob pre = Returns a "" ->
  is_redirection (type t) = true ->
  (exists t', In t' pre /\ type t' = type t) ->
  Parse glob (pre ++ t :: rest) = Returns NULL "Multiple redirection".
Proof.
  intros Hmat Hrun Hr (t' & Hin & Htt').
  apply (Parse_second_redirection pre t rest a Hmat Hrun Hr).
  exact (count_tokens_pos (type t) t' pre Hin Htt').
Qed.

(** C4.  When a pipe token arrives while the pipeline built so far is empty,
    or is not directly followed by a Word or QuotedWord token, [Parse] fails
    with ["No command specified"] and returns no tree. *)
Theorem Parse_pipe_no_command pre t rest a :
  materialized pre ->
  Parse glob pre = Returns a "" ->
  type t = TOK_PIPE ->
  a = NULL \/ (TOK_next_type rest <> TOK_WORD /\ TOK_next_type rest <> TOK_QUOTED_WORD) ->
  Parse glob (pre ++ t :: rest) = Returns NULL "No command specified".
Proof.
  intros Hmat Hrun Htt Hcase.
  destruct (Parse_prefix pre a Hmat Hrun) as (Happ & _ & _ & _).
  rewrite Happ, (Parse_loop_pipe t rest a _ _ Htt).
  destruct Hcase as [->|[Hw Hq]]; [reflexivity|].
  destruct (is_null a); [reflexivity|].
  destruct (TOK_next_type rest); try reflexivity; congruence.
Qed.

(** C2, amended.  After a completed redirection -- the node appended last is
    its Redirect node -- a further redirection operator is not answered with
    ["No command specified"]: [Parse] fails with ["Multiple redirection"]
    when a redirection of that direction was seen before, with
    ["Expect filename after redirection"] when no Word follows, and
    otherwise accepts it and appends a second Redirect node. *)
Theorem Parse_redirect_after_redirect pre t1 f v paths t2 a0 :
  materialized pre ->
  Parse glob pre = Returns a0 "" ->
  a0 <> NULL ->
  is_redirection (type t1) = true ->
  count_tokens (type t1) pre = 0%nat ->
  type f = TOK_WORD -> value f = Some v ->
  glob v = (0%Z, paths) -> paths <> [] ->
  is_redirection (type t2) = true ->
  exists ty1 a,
    ASTNodeType_of_TokenType (type t1) = Some ty1
    /\ a = AST_append a0 (Node ty1 None NULL (append_paths NULL paths))
    /\ Parse glob (pre ++ [t1; f]) = Returns a ""
    /\ (forall rest,
          type t2 = type t1 \/ (0 < count_tokens (type t2) pre)%nat ->
          Parse glob ((pre ++ [t1; f]) ++ t2 :: rest)
          = Returns NULL "Multiple redirection")
    /\ (forall rest,
          type t2 <> type t1 -> count_tokens (type t2) pre = 0%nat ->
          TOK_next_type rest <> TOK_WORD ->
          Parse glob ((pre ++ [t1; f]) ++ t2 :: rest)
          = Returns NULL "Expect filename after redirection")
    /\ (forall g v2 paths2 ty2,
          type t2 <> type t1 -> count_tokens (type t2) pre = 0%nat ->
          type g = TOK_WORD -> value g = Some v2 ->
          glob v2 = (0%Z, paths2) -> paths2 <> [] ->
          ASTNodeType_of_TokenType (type t2) = Some ty2 ->
          Parse glob ((pre ++ [t1; f]) ++ [t2; g])
          = Returns (AST_append a (Node ty2 None NULL (append_paths NULL paths2))) "").
Proof.
  intros Hmat Hrun Hne Hr1 Hzero Hf Hv Hglob Hpaths Hr2.
  assert (Hty1 : exists ty1, ASTNodeType_of_TokenType (type t1) = Some ty1).
  { destruct (type t1); simpl in Hr1; try discriminate; cbn; eauto. }
  destruct Hty1 as [ty1 Hty1].
  destruct (Parse_first_redirection pre t1 a0 Hmat Hrun Hne Hr1 Hzero) as [_ Hacc].
  specialize (Hacc f v paths ty1 Hf Hv Hglob Hpaths Hty1).
  set (a := AST_append a0 (Node ty1 None NULL (append_paths NULL paths))) in *.
  assert (Hmat' : materialized (pre ++ [t1; f])).
  { apply materialized_app; [assumption|].
    repeat constructor.
    - destruct (type t1); simpl in Hr1; discriminate.
    - rewrite Hf. discriminate. }
  assert (Ha : a <> NULL) by (now apply AST_append_not_null).
  assert (Hcount : forall tt, is_redirection tt = true ->
            count_tokens tt (pre ++ [t1; f])
            = (count_tokens tt pre + if TokenType_eqb (type t1) tt then 1 else 0)%nat).
  { intros tt Htt. rewrite count_tokens_app, !count_tokens_cons, Hf.
    destruct tt; simpl in Htt; try discriminate;
      destruct (TokenType_eqb (type t1) _); reflexivity. }
  assert (Hsame : forall x y, is_redirection x = true -> is_redirection y = true ->
            (if TokenType_eqb y x then 1 else 0)%nat = 0%nat <-> x <> y).
  { intros x y Hx Hy. destruct x, y; simpl in *; try discriminate;
      split; congruence. }
  exists ty1, a. repeat split; try assumption; try reflexivity.
  - intros rest Hseen.
    apply (Parse_second_redirection _ t2 rest a Hmat' Hacc Hr2).
    rewrite (Hcount _ Hr2).
    destruct Hseen as [Heq|Hpos]; [|lia].
    rewrite Heq. destruct (type t1); simpl in Hr1; try discriminate; simpl; lia.
  - intros rest Hdiff Hz Hnext.
    destruct (Parse_first_redirection _ t2 a Hmat' Hacc Ha Hr2) as [Hexp _].
    + rewrite (Hcount _ Hr2), Hz. apply (Hsame _ _ Hr2 Hr1). exact Hdiff.
    + now apply Hexp.
  - intros g v2 paths2 ty2 Hdiff Hz Hg Hv2 Hglob2 Hpaths2 Hty2.
    destruct (Parse_first_redirection _ t2 a Hmat' Hacc Ha Hr2) as [_ Hacc2].
    + rewrite (Hcount _ Hr2), Hz. apply (Hsame _ _ Hr2 Hr1). exact Hdiff.
    + now apply (Hacc2 g v2 paths2 ty2).
Qed.

End WithGlob.

(** *** The statements at concrete streams *)

(** C2 as stated fails on [ls > file < in]: after [ls > file] the node
    appended last is the Redirect node, and the operator [<] that follows is
    accepted. *)
Lemma chained_redirect_not_rejected :
  Tokenize.TOK_tokenize_input "ls > file < in"
  = Tokenize.Tokens [tok_word "ls"; tok_greater; tok_word "file";
                     tok_less; tok_word "in"]
  /\ Parse glob_nocheck [tok_word "ls"; tok_greater; tok_word "file"]
     = Returns (AST_append (ast_word "ls" NULL)
                  (ast_redirect OP_GREATERTHAN (ast_word "file" NULL))) ""
  /\ Parse glob_nocheck [tok_word "ls"; tok_greater; tok_word "file";
                         tok_less; tok_word "in"]
     = Returns (ast_word "ls" (ast_redirect OP_GREATERTHAN (ast_word "file"
                  (ast_redirect OP_LESSTHAN (ast_word "in" NULL))))) ""
  /\ ~ chained_redirect_rejected glob_nocheck
         [tok_word "ls"] tok_greater (tok_word "file") tok_less [tok_word "in"].
Proof.
  repeat split; try reflexivity.
  unfold chained_redirect_rejected. cbn. discriminate.
Qed.

Lemma Parse_redirect_after_redirect_witness :
  Parse glob_nocheck (([tok_word "ls"] ++ [tok_greater; tok_word "file"])
                      ++ [tok_less; tok_word "in"])
  = Returns (ast_word "ls" (ast_redirect OP_GREATERTHAN (ast_word "file"
               (ast_redirect OP_LESSTHAN (ast_word "in" NULL))))) "".
Proof.
  assert (Hmat : materialized [tok_word "ls"]) by (repeat constructor; discriminate).
  destruct (Parse_redirect_after_redirect glob_nocheck
              [tok_word "ls"] tok_greater (tok_word "file") "file" ["file"%string]
              tok_less (ast_word "ls" NULL)
              Hmat eq_refl ltac:(discriminate) eq_refl eq_refl eq_refl eq_refl
              eq_refl ltac:(discriminate) eq_refl)
    as (ty1 & a & Hty1 & Ha & _ & _ & _ & Hacc).
  injection Hty1 as <-. subst a.
  apply (Hacc (tok_word "in") "in"%string ["in"%string] OP_LESSTHAN);
    try reflexivity; discriminate.
Defined.

(** Scenario 4: [ls > file > file]. *)
Lemma Parse_multiple_redirection_witness :
  Parse glob_nocheck ([tok_word "ls"; tok_greater; tok_word "file"]
                      ++ tok_greater :: [tok_word "file"])
  = Returns NULL "Multiple redirection".
Proof.
  apply (Parse_multiple_redirection glob_nocheck
           [tok_word "ls"; tok_greater; tok_word "file"] tok_greater
           [tok_word "file"]
           (ast_word "ls" (ast_redirect OP_GREATERTHAN (ast_word "file" NULL)))).
  - repeat constructor; discriminate.
  - reflexivity.
  - reflexivity.
  - exists tok_greater. split; [simpl; auto | reflexivity].
Defined.

(** Scenario 3: the line [|] alone. *)
Lemma Parse_pipe_no_command_witness :
  Tokenize.TOK_tokenize_input "|" = Tokenize.Tokens [tok_pipe]
  /\ Parse glob_nocheck ([] ++ tok_pipe :: [])
     = Returns NULL "No command specified".
Proof.
  split; [reflexivity|].
  apply (Parse_pipe_no_command glob_nocheck [] tok_pipe [] NULL).
  - constructor.
  - reflexivity.
  - reflexivity.
  - left. reflexivity.
Defined.

Lemma Parse_at_most_one_redirect_each_witness :
  (count_type OP_LESSTHAN
     (ast_word "sed" (ast_redirect OP_LESSTHAN (ast_word "in"
        (ast_redirect OP_GREATERTHAN (ast_word "out" NULL))))) <= 1)%nat
  /\ (count_type OP_GREATERTHAN
        (ast_word "sed" (ast_redirect OP_LESSTHAN (ast_word "in"
           (ast_redirect OP_GREATERTHAN (ast_word "out" NULL))))) <= 1)%nat.
Proof.
  apply (Parse_at_most_one_redirect_each glob_nocheck
           [tok_word "sed"; tok_less; tok_word "in"; tok_greater; tok_word "out"]
           _ "").
  reflexivity.
Defined.

(** The other parse errors the tests of the repository check. *)
Example Parse_errors :
  Parse glob_nocheck [tok_word "cat"; tok_pipe] = Returns NULL "No command specified"
  /\ Parse glob_nocheck [tok_greater] = Returns NULL "No command specified"
  /\ Parse glob_nocheck [tok_word "ls"; tok_less]
     = Returns NULL "Expect filename after redirection"
  /\ Parse glob_nocheck [tok_word "ls"; tok_less; tok_quoted "file.txt"]
     = Returns NULL "Expect filename after redirection"
  /\ Parse glob_nocheck [tok_word "ls"; tok_pipe; tok_less; tok_quoted "file.txt"]
     = Returns NULL "No command specified"
  /\ Parse glob_nocheck [tok_word "ls"; tok_less; tok_word "file";
                         tok_less; tok_word "file"]
     = Returns NULL "Multiple redirection".
Proof. repeat split. Qed.

End ParserProps.

(** ** Rendering: buffer bounds and the round trip *)

Module RenderProps.
Import Pipeline Render.

Local Open Scope Z_scope.

(** *** Where the buffer is too small *)

Lemma min_one_text (s : string) :
  Z.min 1 (Z.of_nat (List.length (list_ascii_of_string (s ++ " ")))) = 1.
Proof.
  apply Z.min_l. induction s as [|c s IH]; simpl List.length; lia.
Qed.

(** C7, at the failing capacity.  With a buffer of one byte and any pipeline
    that starts with a word, [AST_pipeline2str] stores its truncation mark
    one byte before the buffer, at index [size - 1] for [size = 0]. *)
Theorem AST_pipeline2str_writes_before_buffer s left right c :
  AST_pipeline2str (Node WORD (Some s) left right) [c]
  = OutOfBoundsWrite (size_max - 1).
Proof.
  unfold AST_pipeline2str. cbn [List.length Z.of_nat AST_sprint].
  change (Z.pos (Pos.of_succ_nat 0) <=? 0) with false. cbv iota.
  cbn [ASTNodeType_eqb node_text isword orb].
  unfold snprintf.
  change (usize (Z.pos (Pos.of_succ_nat 0) - 0)) with 1.
  change (1 =? 0) with false. cbv iota.
  change (Z.to_nat (1 - 1)) with 0%nat.
  cbn [firstn app store_bytes].
  change (store [c] 0 NUL) with (Done (A := buffer) [NUL]).
  cbn [bind store_bytes]. rewrite min_one_text.
  change (usize (0 + 1)) with 1.
  assert (Hrest : AST_sprint right [NUL] (Z.pos (Pos.of_succ_nat 0)) 1
                  = Done ([NUL], 1)) by (destruct right; reflexivity).
  rewrite Hrest. reflexivity.
Qed.

(** The empty pipeline: the trimming loop starts by reading [buf[size-1]]
    with [size = 0], whatever the capacity. *)
Lemma AST_pipeline2str_empty_reads_before_buffer buf :
  Z.of_nat (List.length buf) < size_max ->
  AST_pipeline2str NULL buf = OutOfBoundsRead (size_max - 1).
Proof.
  intros Hsz. unfold AST_pipeline2str. cbn [AST_sprint bind trim_spaces].
  change (usize (0 - 1)) with (size_max - 1).
  unfold load, in_bounds.
  destruct (Z.ltb_spec (size_max - 1) (Z.of_nat (List.length buf))); [lia|].
  rewrite andb_false_r. reflexivity.
Qed.

(** The text fits exactly ([ls --color] and its NUL in 11 bytes), and is
    truncated all the same; one byte more and it is whole. *)
Example AST_pipeline2str_exact_fit :
  (exists buf', AST_pipeline2str (chain ["ls"; "--color"]%string) (repeat NUL 11)
                = Done (buf', 10) /\ c_string buf' = "ls --colo$"%string)
  /\ (exists buf', AST_pipeline2str (chain ["ls"; "--color"]%string) (repeat NUL 12)
                   = Done (buf', 10) /\ c_string buf' = "ls --color"%string).
Proof. split; eexists; split; reflexivity. Qed.

(** *** Stores that stay inside the buffer *)

Lemma usize_small z : 0 <= z < size_max -> usize z = z.
Proof. apply Z.mod_small. Qed.

Lemma set_nth_app (pre : buffer) b post c :
  set_nth (pre ++ b :: post) (List.length pre) c = pre ++ c :: post.
Proof.
  induction pre as [|x pre IH]; simpl; [reflexivity|]. now rewrite IH.
Qed.

Lemma store_at (pre : buffer) b post c :
  store (pre ++ b :: post) (Z.of_nat (List.length pre)) c = Done (pre ++ c :: post).
Proof.
  unfold store, in_bounds. rewrite length_app. simpl List.length.
  destruct (Z.leb_spec 0 (Z.of_nat (List.length pre))); [|lia].
  destruct (Z.ltb_spec (Z.of_nat (List.length pre))
              (Z.of_nat (List.length pre + S (List.length post)))); [|lia].
  simpl. now rewrite Nat2Z.id, set_nth_app.
Qed.

Lemma load_at (pre : buffer) b post :
  load (pre ++ b :: post) (Z.of_nat (List.length pre)) = Done b.
Proof.
  unfold load, in_bounds. rewrite length_app. simpl List.length.
  destruct (Z.leb_spec 0 (Z.of_nat (List.length pre))); [|lia].
  destruct (Z.ltb_spec (Z.of_nat (List.length pre))
              (Z.of_nat (List.length pre + S (List.length post)))); [|lia].
  simpl. now rewrite Nat2Z.id, nth_middle.
Qed.

Lemma store_bytes_at : forall bytes (pre mid post : buffer),
  List.length mid = List.length bytes ->
  store_bytes (pre ++ mid ++ post) (Z.of_nat (List.length pre)) bytes
  = Done (pre ++ bytes ++ post).
Proof.
  induction bytes as [|b bytes IH]; intros pre mid post Hlen.
  - destruct mid; [reflexivity|discriminate].
  - destruct mid as [|m mid]; [discriminate|]. injection Hlen as Hlen.
    cbn [store_bytes app]. rewrite store_at. cbn [bind].
    replace (Z.of_nat (List.length pre) + 1)
      with (Z.of_nat (List.length (pre ++ [b])))
      by (rewrite length_app; simpl; lia).
    replace (pre ++ b :: mid ++ post) with ((pre ++ [b]) ++ mid ++ post)
      by (now rewrite <- app_assoc).
    rewrite IH by assumption. now rewrite <- app_assoc.
Qed.

(** [snprintf] when the text and its NUL fit in the [n] bytes left. *)
Lemma snprintf_fits (pre free : buffer) s :
  (List.length (chars s) + 1 <= List.length free)%nat ->
  snprintf (pre ++ free) (Z.of_nat (List.length pre))
    (Z.of_nat (List.length free)) s
  = (Done (pre ++ chars s ++ NUL :: skipn (List.length (chars s) + 1) free),
     Z.of_nat (List.length (chars s))).
Proof.
  intros Hfit. unfold snprintf. fold (chars s).
  destruct (Z.eqb_spec (Z.of_nat (List.length free)) 0); [lia|].
  f_equal.
  rewrite firstn_all2 by lia.
  rewrite <- (firstn_skipn (List.length (chars s) + 1) free) at 1.
  rewrite store_bytes_at.
  - now rewrite <- app_assoc.
  - rewrite firstn_length_le, length_app by lia. simpl. lia.
Qed.

Lemma chars_app a b : chars (a ++ b) = chars a ++ chars b.
Proof.
  unfold chars. induction a as [|c a IH]; simpl; [reflexivity|]. now rewrite IH.
Qed.

(** *** Rendering a chain of words that fits *)

Lemma AST_sprint_chain : forall words (pre free : buffer),
  words <> [] ->
  (List.length (chain_text words) + 1 <= List.length free)%nat ->
  Z.of_nat (List.length (pre ++ free)) < size_max ->
  AST_sprint (chain words) (pre ++ free) (Z.of_nat (List.length (pre ++ free)))
    (Z.of_nat (List.length pre))
  = Done (pre ++ chain_text words
              ++ NUL :: skipn (List.length (chain_text words) + 1) free,
          Z.of_nat (List.length pre + List.length (chain_text words))).
Proof.
  induction words as [|w words IH]; intros pre free Hne Hfit Hsz; [congruence|].
  cbn [chain chain_text AST_sprint] in *.
  rewrite length_app in Hfit.
  rewrite length_app in Hsz |- *.
  destruct (Z.leb_spec (Z.of_nat (List.length pre + List.length free))
              (Z.of_nat (List.length pre))); [lia|].
  cbn [ASTNodeType_eqb node_text isword orb].
  replace (Z.of_nat (List.length pre + List.length free) - Z.of_nat (List.length pre))
    with (Z.of_nat (List.length free)) by lia.
  rewrite usize_small by lia.
  rewrite snprintf_fits by lia. cbn [bind].
  rewrite Z.min_r by lia.
  rewrite usize_small by lia.
  destruct words as [|w' words'].
  - cbn [chain chain_text AST_sprint]. rewrite app_nil_r.
    f_equal. f_equal. lia.
  - set (P := chars (w ++ " ")) in *.
    set (T := chain_text (w' :: words')) in *.
    replace (pre ++ P ++ NUL :: skipn (List.length P + 1) free)
      with ((pre ++ P) ++ NUL :: skipn (List.length P + 1) free)
      by (now rewrite <- app_assoc).
    replace (Z.of_nat (List.length pre) + Z.of_nat (List.length P))
      with (Z.of_nat (List.length (pre ++ P)))
      by (rewrite length_app; lia).
    assert (Hlen : List.length ((pre ++ P) ++ NUL :: skipn (List.length P + 1) free)
                   = (List.length pre + List.length free)%nat).
    { rewrite !length_app. cbn [List.length]. rewrite length_skipn. lia. }
    rewrite <- Hlen.
    rewrite IH.
    + rewrite length_app. f_equal. f_equal.
      * rewrite <- !app_assoc. f_equal. f_equal. f_equal. f_equal.
        cbn [skipn]. rewrite Nat.add_1_r. cbn [skipn].
        rewrite skipn_skipn, length_app. f_equal. lia.
      * rewrite length_app. lia.
    + discriminate.
    + cbn [List.length]. rewrite length_skipn. lia.
    + rewrite Hlen. lia.
Qed.

Lemma chain_text_command_text : forall words,
  words <> [] ->
  chain_text words = chars (command_text words) ++ [space].
Proof.
  induction words as [|w words IH]; intros Hne; [congruence|].
  destruct words as [|w' words'].
  - cbn [chain_text]. rewrite app_nil_r. unfold command_text. cbn [String.concat].
    now rewrite chars_app.
  - cbn [chain_text] in *. rewrite IH by discriminate.
    unfold command_text. cbn [String.concat].
    rewrite !chars_app. now rewrite <- !app_assoc.
Qed.

Lemma chars_length s : List.length (chars s) = String.length s.
Proof.
  unfold chars. induction s as [|c s IH]; simpl; [reflexivity|]. now rewrite IH.
Qed.

Lemma c_string_chars s (tl : buffer) :
  ~ In NUL (chars s) -> c_string (chars s ++ NUL :: tl) = s.
Proof.
  unfold chars. induction s as [|c s IH]; intros Hnul; simpl.
  - reflexivity.
  - simpl in Hnul.
    destruct (Ascii.eqb_spec c NUL) as [->|_]; [tauto|].
    rewrite IH; [reflexivity|tauto].
Qed.

Lemma last_not_default {A} (l : list A) (d : A) :
  last l d <> d -> exists l' c, l = l' ++ [c] /\ c <> d.
Proof.
  intros Hlast. destruct l as [|x l]; [simpl in Hlast; congruence|].
  destruct (exists_last (l := x :: l)) as (l' & c & Heq); [discriminate|].
  exists l', c. split; [assumption|].
  rewrite Heq, last_last in Hlast. exact Hlast.
Qed.

(** C8, amended.  For a chain of Word nodes whose command text does not end
    in a space, and a buffer with room for the text, the separator printed
    after the last word and the NUL, [AST_pipeline2str] leaves the words
    joined by single spaces in the buffer, NUL-terminated, and returns the
    length of that text. *)
Theorem AST_pipeline2str_round_trip words (buf : buffer) :
  let text := chars (command_text words) in
  last text space <> space ->
  (List.length text + 2 <= List.length buf)%nat ->
  Z.of_nat (List.length buf) < size_max ->
  AST_pipeline2str (chain words) buf
  = Done (text ++ NUL :: NUL :: skipn (List.length text + 2) buf,
          Z.of_nat (List.length text))
  /\ (~ In NUL text -> renders_command_text words buf).
Proof.
  intros text Hlast Hfit Hsz.
  assert (Hne : words <> []).
  { intros ->. apply Hlast. reflexivity. }
  assert (Hrun : AST_pipeline2str (chain words) buf
                 = Done (text ++ NUL :: NUL :: skipn (List.length text + 2) buf,
                         Z.of_nat (List.length text))).
  { unfold AST_pipeline2str.
    pose proof (AST_sprint_chain words [] buf Hne) as Hsprint.
    rewrite chain_text_command_text in Hsprint by assumption.
    fold text in Hsprint. rewrite length_app in Hsprint. cbn [List.length app] in Hsprint.
    change (Z.of_nat 0) with 0 in Hsprint.
    rewrite Hsprint by lia. cbn [bind].
    rewrite <- app_assoc. cbn [app].
    replace (skipn (List.length text + 1 + 1) buf)
      with (skipn (List.length text + 2) buf) by (f_equal; lia).
    set (tail := skipn (List.length text + 2) buf).
    destruct (List.length buf) as [|[|k]] eqn:Hbuf; try lia.
    cbn [trim_spaces].
    replace (Z.of_nat (0 + (List.length text + 1)) - 1)
      with (Z.of_nat (List.length text)) by lia.
    rewrite usize_small by lia.
    rewrite load_at. cbn [bind].
    change (Ascii.eqb space space) with true. cbv iota.
    destruct (last_not_default text space Hlast) as (text' & c & Htext & Hc).
    rewrite Htext at 1. rewrite <- app_assoc. cbn [app].
    replace (Z.of_nat (List.length text) - 1) with (Z.of_nat (List.length text'))
      by (rewrite Htext, length_app; simpl; lia).
    rewrite usize_small by (rewrite Htext, length_app in Hfit; simpl in Hfit; lia).
    rewrite load_at. cbn [bind].
    destruct (Ascii.eqb_spec c space) as [|_]; [congruence|].
    cbn [bind].
    destruct (Z.ltb_spec (Z.of_nat (List.length text)) (Z.of_nat (S (S k)))); [|lia].
    replace (text' ++ c :: space :: NUL :: tail)
      with (text ++ space :: NUL :: tail)
      by (rewrite Htext, <- app_assoc; reflexivity).
    rewrite store_at. reflexivity. }
  split; [exact Hrun|].
  intros Hnul. unfold renders_command_text.
  eexists. split.
  - rewrite Hrun. f_equal. f_equal. unfold text. now rewrite chars_length.
  - unfold text. now apply c_string_chars.
Qed.

(** *** The round trip at concrete lines *)

Lemma AST_pipeline2str_round_trip_witness :
  renders_command_text ["ls"; "--color"]%string (repeat NUL 128).
Proof.
  destruct (AST_pipeline2str_round_trip ["ls"; "--color"]%string (repeat NUL 128))
    as [_ Hrender].
  - vm_compute. discriminate.
  - vm_compute. lia.
  - vm_compute. reflexivity.
  - apply Hrender. vm_compute. intuition discriminate.
Defined.

(** C8 as stated fails on the line [ls a\ ], whose second word ends in an
    escaped space: the words come back from the tokenizer and the parser as
    a chain of two Word nodes, and the rendering drops the final space with
    the separator. *)
Lemma round_trip_loses_escaped_space :
  Tokenize.TOK_tokenize_input "ls a\ "
  = Tokenize.Tokens [Parser.tok_word "ls"; Parser.tok_word "a\ "]
  /\ Parser.Parse Parser.glob_nocheck [Parser.tok_word "ls"; Parser.tok_word "a\ "]
     = Parser.Returns (chain ["ls"; "a\ "]%string) ""
  /\ (exists buf',
        AST_pipeline2str (chain ["ls"; "a\ "]%string) (repeat NUL 128)
        = Done (buf', 5) /\ c_string buf' = "ls a\"%string)
  /\ ~ renders_command_text ["ls"; "a\ "]%string (repeat NUL 128).
Proof.
  split; [reflexivity|]. split; [reflexivity|]. split.
  - eexists. split; reflexivity.
  - intros (buf' & Hrun & _). vm_compute in Hrun. discriminate.
Qed.

End RenderProps.

(** ** Tokenizer: quotes after a word, escapes *)

Module TokenizeProps.
Import Tokenize.

Local Open Scope string_scope.

(** *** Strings *)

Lemma str_length_app (a b : string) :
  String.length (a ++ b) = (String.length a + String.length b)%nat.
Proof. induction a as [|c a IH]; simpl; [reflexivity|]. now rewrite IH. Qed.

Lemma str_app_assoc (a b c : string) : (a ++ b) ++ c = a ++ b ++ c.
Proof. induction a as [|x a IH]; simpl; [reflexivity|]. now rewrite IH. Qed.

Lemma str_app_nil_r (a : string) : a ++ "" = a.
Proof. induction a as [|x a IH]; simpl; [reflexivity|]. now rewrite IH. Qed.

Lemma strndup_app (w r : string) : strndup (w ++ r) (String.length w) = w.
Proof. induction w as [|c w IH]; simpl; [reflexivity|]. now rewrite IH. Qed.

Lemma strndup_all (s : string) n : (String.length s <= n)%nat -> strndup s n = s.
Proof.
  revert n. induction s as [|c s IH]; intros [|n] Hn; simpl in *;
    try reflexivity; try lia.
  rewrite IH by lia. reflexivity.
Qed.

Lemma strndup_app_le (s z : string) n :
  (n <= String.length s)%nat -> strndup (s ++ z) n = strndup s n.
Proof.
  revert n. induction s as [|c s IH]; intros [|n] Hn; simpl in *;
    try reflexivity; try lia.
  rewrite IH by lia. reflexivity.
Qed.

(** *** The inner loop *)

Lemma scan_quoted_stop : forall r stop,
  scan_quoted r = inl stop ->
  exists body, r = body ++ stop
               /\ (stop = "" \/ exists after, stop = String dquote after).
Proof.
  induction r as [|ch rest IH]; intros stop Hscan; simpl in Hscan.
  - injection Hscan as <-. exists "". split; [reflexivity|now left].
  - destruct (Ascii.eqb_spec ch dquote) as [->|Hq].
    + injection Hscan as <-. exists "". split; [reflexivity|right; eauto].
    + destruct (Ascii.eqb ch backslash && negb (isescape (deref rest)));
        [discriminate|].
      destruct (IH stop Hscan) as (body & -> & Hstop).
      exists (String ch body). split; [reflexivity|assumption].
Qed.

Lemma scan_quoted_app_found : forall r q after z,
  scan_quoted r = inl (String q after) ->
  scan_quoted (r ++ z) = inl (String q (after ++ z)).
Proof.
  induction r as [|ch rest IH]; intros q after z Hscan; simpl in Hscan.
  - discriminate.
  - simpl. destruct (Ascii.eqb ch dquote).
    + now injection Hscan as <- <-.
    + destruct rest as [|c rest'].
      * simpl in Hscan. destruct (Ascii.eqb ch backslash && _); discriminate.
      * cbn [deref append] in *.
        destruct (Ascii.eqb ch backslash && negb (isescape c)); [discriminate|].
        now apply IH.
Qed.

Lemma scan_quoted_app_end : forall r z,
  scan_quoted r = inl "" ->
  scan_quoted (r ++ z) = scan_quoted z.
Proof.
  induction r as [|ch rest IH]; intros z Hscan; [reflexivity|].
  simpl in Hscan. cbn [append scan_quoted].
  destruct (Ascii.eqb ch dquote); [discriminate|].
  destruct rest as [|c rest'].
  - cbn [deref] in Hscan.
    destruct (Ascii.eqb ch backslash); [discriminate|].
    cbn [andb append]. reflexivity.
  - cbn [deref append] in *.
    destruct (Ascii.eqb ch backslash && negb (isescape c)); [discriminate|].
    now apply IH.
Qed.

Lemma scan_quoted_length r stop :
  scan_quoted r = inl stop -> (String.length stop <= String.length r)%nat.
Proof.
  intros Hscan. destruct (scan_quoted_stop r stop Hscan) as (body & -> & _).
  rewrite str_length_app. lia.
Qed.

(** *** One turn of the main loop *)

Lemma tokenize_step_not_tokens ch rest start tokens result :
  tokenize_step (String ch rest) start tokens <> Stop (Tokens result).
Proof.
  cbn [tokenize_step].
  destruct (Ascii.eqb ch dquote).
  { destruct (scan_quoted rest) as [[|q after]|]; discriminate. }
  destruct (Ascii.eqb ch "<" || Ascii.eqb ch ">" || Ascii.eqb ch "|" || isspace ch);
    [discriminate|].
  destruct (Ascii.eqb ch backslash).
  - destruct (negb (isescape (deref rest))); [discriminate|].
    destruct (end_of_line _ _ _). discriminate.
  - destruct (end_of_line _ _ _). discriminate.
Qed.

Lemma tokenize_step_shorter input start tokens input' start' tokens' :
  tokenize_step input start tokens = Continue input' start' tokens' ->
  (String.length input' < String.length input)%nat.
Proof.
  destruct input as [|ch rest]; [discriminate|]. cbn [tokenize_step].
  destruct (Ascii.eqb ch dquote).
  { destruct (scan_quoted rest) as [[|q after]|] eqn:Hscan; try discriminate.
    intros [= <- _ _]. apply scan_quoted_length in Hscan. simpl in *. lia. }
  destruct (Ascii.eqb ch "<" || Ascii.eqb ch ">" || Ascii.eqb ch "|" || isspace ch).
  { intros [= <- _ _]. simpl. lia. }
  destruct (Ascii.eqb ch backslash).
  - destruct (negb (isescape (deref rest))); [discriminate|].
    destruct (end_of_line _ _ _). intros [= <- _ _].
    destruct rest; simpl; lia.
  - destruct (end_of_line _ _ _). intros [= <- _ _]. simpl. lia.
Qed.

Lemma tokenize_loop_fuel : forall fuel1 fuel2 input start tokens,
  (String.length input < fuel1)%nat ->
  (String.length input < fuel2)%nat ->
  tokenize_loop fuel1 input start tokens = tokenize_loop fuel2 input start tokens.
Proof.
  induction fuel1 as [|fuel1 IH]; intros fuel2 input start tokens H1 H2; [lia|].
  destruct fuel2 as [|fuel2]; [lia|]. cbn [tokenize_loop].
  destruct (tokenize_step input start tokens) as [|input' start' tokens'] eqn:Hstep;
    [reflexivity|].
  apply tokenize_step_shorter in Hstep. apply IH; lia.
Qed.

(** The loop, freed from its fuel. *)
Lemma tokenize_from_step input start tokens :
  tokenize_from input start tokens
  = match tokenize_step input start tokens with
    | Stop result => result
    | Continue input' start' tokens' => tokenize_from input' start' tokens'
    end.
Proof.
  unfold tokenize_from at 1. cbn [tokenize_loop].
  destruct (tokenize_step input start tokens) as [|input' start' tokens'] eqn:Hstep;
    [reflexivity|].
  apply tokenize_step_shorter in Hstep. unfold tokenize_from.
  apply tokenize_loop_fuel; lia.
Qed.

(** The tokenizer is total: the fuel it is given always suffices. *)
Lemma tokenize_from_terminates : forall n input start tokens,
  (String.length input <= n)%nat ->
  tokenize_from input start tokens <> OutOfFuel.
Proof.
  induction n as [|n IH]; intros input start tokens Hlen;
    rewrite tokenize_from_step;
    destruct (tokenize_step input start tokens) as [r|input' start' tokens'] eqn:Hstep.
  - destruct input; [|simpl in Hlen; lia]. injection Hstep as <-. discriminate.
  - apply tokenize_step_shorter in Hstep. lia.
  - destruct input as [|ch rest]; [injection Hstep as <-; discriminate|].
    cbn [tokenize_step] in Hstep.
    destruct (Ascii.eqb ch dquote).
    { destruct (scan_quoted rest) as [[|q after]|];
        try discriminate; injection Hstep as <-; discriminate. }
    destruct (Ascii.eqb ch "<" || Ascii.eqb ch ">" || Ascii.eqb ch "|" || isspace ch);
      [discriminate|].
    destruct (Ascii.eqb ch backslash).
    + destruct (negb (isescape (deref rest))).
      * injection Hstep as <-. discriminate.
      * destruct (end_of_line _ _ _). discriminate.
    + destruct (end_of_line _ _ _). discriminate.
  - apply tokenize_step_shorter in Hstep. apply IH. lia.
Qed.

Lemma TOK_nnew_word st len :
  len <> O -> TOK_nnew TOK_WORD st len = word_token (strndup st len).
Proof.
  intros Hlen. unfold TOK_nnew, word_token.
  destruct (Nat.eqb_spec len 0); [contradiction|reflexivity].
Qed.

Lemma str_length_pos (w : string) : w <> "" -> (0 < String.length w)%nat.
Proof. destruct w; [congruence|simpl; lia]. Qed.

Lemma flush_pending tokens (w r : string) :
  w <> "" ->
  flush_word tokens (Some (w ++ r)) r = (tokens ++ [word_token w])%list.
Proof.
  intros Hw. unfold flush_word, ptrdiff. rewrite str_length_app.
  pose proof (str_length_pos w Hw).
  replace (String.length w + String.length r - String.length r)%nat
    with (String.length w) by lia.
  rewrite TOK_nnew_word by lia. now rewrite strndup_app.
Qed.

Lemma end_of_line_flush tokens (st : string) :
  end_of_line tokens (Some st) "" = ((tokens ++ [word_token st])%list, None).
Proof.
  unfold end_of_line, ptrdiff. rewrite TOK_nnew_word by (simpl; lia).
  rewrite strndup_all by (simpl; lia). reflexivity.
Qed.

Lemma end_of_line_more tokens start (input : string) :
  input <> "" -> end_of_line tokens start input = (tokens, start).
Proof. destruct input; [congruence|reflexivity]. Qed.

Lemma str_app_not_nil_r (a z : string) : z <> "" -> a ++ z <> "".
Proof. destruct a, z; simpl; congruence. Qed.

(** After an ordinary character or an escape: the word [w'] is in progress
    on both lines, unless the short line ends here. *)
Lemma sim_pending z done' i' p' w' tokens :
  z <> "" -> w' <> "" -> done' = p' ++ w' ->
  exists ss' ts',
    end_of_line tokens (Some (w' ++ i')) i' = (ts', ss')
    /\ end_of_line tokens (Some (w' ++ i' ++ z)) (i' ++ z)
       = (tokens, Some (w' ++ i' ++ z))
    /\ sim z done' i' ss' ts' (Some (w' ++ i' ++ z)) tokens.
Proof.
  intros Hz Hw Hdone.
  destruct i' as [|c i'].
  - exists None, (tokens ++ [word_token w'])%list.
    rewrite str_app_nil_r, end_of_line_flush. cbn [append].
    rewrite end_of_line_more by assumption.
    repeat split. now apply (sim_flushed z done' "" p' w').
  - exists (Some (w' ++ String c i')), tokens.
    rewrite !end_of_line_more by (try apply str_app_not_nil_r; discriminate).
    repeat split. apply (sim_word z done' (String c i') p' w'); try assumption.
    discriminate.
Qed.

(** One turn on the short line is matched by one turn on the long line. *)
Lemma tokenize_step_sim z done input ss ts sl tl input' ss' ts' :
  z <> "" ->
  sim z done input ss ts sl tl ->
  tokenize_step input ss ts = Continue input' ss' ts' ->
  exists consumed sl' tl',
    input = consumed ++ input'
    /\ tokenize_step (input ++ z) sl tl = Continue (input' ++ z) sl' tl'
    /\ sim z (done ++ consumed) input' ss' ts' sl' tl'.
Proof.
  intros Hz Hsim Hstep.
  destruct input as [|ch rest]; [discriminate|].
  assert (Hflush : flush_word tl sl (String ch rest ++ z)
                   = flush_word ts ss (String ch rest)).
  { inversion Hsim; subst; try reflexivity; try discriminate.
    now rewrite !flush_pending. }
  cbn [tokenize_step append] in *.
  destruct (Ascii.eqb ch dquote) eqn:Hq.
  { (* the quoted branch *)
    destruct (scan_quoted rest) as [[|q after]|] eqn:Hscan; try discriminate.
    injection Hstep as <- <- <-.
    rewrite (scan_quoted_app_found rest q after z Hscan).
    destruct (scan_quoted_stop rest _ Hscan) as (body & Hrest & _).
    exists (String ch (body ++ String q "")), None.
    eexists. split; [cbn [append]; now rewrite Hrest, str_app_assoc|].
    split; [reflexivity|].
    rewrite Hflush.
    assert (Htok : TOK_nnew TOK_QUOTED_WORD (String ch (rest ++ z))
                     (ptrdiff (String q (after ++ z)) (String ch (rest ++ z)) + 1)
                   = TOK_nnew TOK_QUOTED_WORD (String ch rest)
                       (ptrdiff (String q after) (String ch rest) + 1)).
    { unfold ptrdiff, TOK_nnew. cbn [String.length].
      rewrite !str_length_app.
      apply scan_quoted_length in Hscan. cbn [String.length] in Hscan.
      replace (S (String.length rest + String.length z)
               - S (String.length after + String.length z) + 1)%nat
        with (S (String.length rest) - S (String.length after) + 1)%nat by lia.
      destruct (Nat.eqb_spec (S (String.length rest) - S (String.length after) + 1) 0);
        [lia|].
      f_equal. f_equal.
      change (String ch (rest ++ z)) with (String ch rest ++ z).
      apply strndup_app_le. cbn [String.length]. lia. }
    rewrite Htok. apply sim_idle. }
  destruct (Ascii.eqb ch "<" || Ascii.eqb ch ">" || Ascii.eqb ch "|" || isspace ch).
  { (* operators and whitespace *)
    injection Hstep as <- <- <-.
    exists (String ch ""), None. eexists.
    split; [reflexivity|]. split; [reflexivity|].
    rewrite Hflush. apply sim_idle. }
  (* a character of a word *)
  assert (Hstart : exists p w,
            w <> "" /\ done ++ String ch "" = p ++ w
            /\ match ss with Some _ => ss | None => Some (String ch rest) end
               = Some (w ++ rest)
            /\ match sl with Some _ => sl | None => Some (String ch (rest ++ z)) end
               = Some (w ++ rest ++ z)
            /\ tl = ts).
  { inversion Hsim; subst; try discriminate.
    - exists done, (String ch ""). repeat split. discriminate.
    - exists p, (w ++ String ch ""). rewrite !str_app_assoc. repeat split.
      destruct w; discriminate. }
  destruct Hstart as (p & w & Hw & Hdone & Hss & Hsl & ->).
  rewrite Hss in Hstep. rewrite Hsl. clear Hss Hsl Hflush Hsim.
  destruct (Ascii.eqb ch backslash) eqn:Hb.
  - destruct rest as [|c rest']; [discriminate|].
    cbn [deref append] in *.
    destruct (negb (isescape c)); [discriminate|].
    destruct (sim_pending z (done ++ String ch (String c "")) rest' p
                (w ++ String c "") ts Hz) as (ss2 & ts2 & Hs & Hl & Hsim2).
    { destruct w; discriminate. }
    { change (String ch (String c "")) with (String ch "" ++ String c "").
      now rewrite <- !str_app_assoc, Hdone. }
    rewrite str_app_assoc in Hs, Hl. cbn [append] in Hs, Hl.
    rewrite Hs in Hstep. injection Hstep as <- <- <-.
    rewrite Hl.
    exists (String ch (String c "")). do 2 eexists.
    split; [reflexivity|]. split; [reflexivity|].
    rewrite str_app_assoc in Hsim2. exact Hsim2.
  - destruct (sim_pending z (done ++ String ch "") rest p w ts Hz Hw Hdone)
      as (ss2 & ts2 & Hs & Hl & Hsim2).
    rewrite Hs in Hstep. injection Hstep as <- <- <-.
    rewrite Hl.
    exists (String ch ""). do 2 eexists.
    split; [reflexivity|]. split; [reflexivity|]. exact Hsim2.
Qed.

(** *** A line and its continuation *)

(** When the short line tokenizes, the long line reaches the place where the
    short one ended, in a state that matches its tokens. *)
Lemma tokenize_sim_success z : z <> "" ->
  forall n input done ss ts sl tl tokens,
  (String.length input <= n)%nat ->
  sim z done input ss ts sl tl ->
  tokenize_from input ss ts = Tokens tokens ->
  exists sl' tl',
    tokenize_from (input ++ z) sl tl = tokenize_from z sl' tl'
    /\ sim z (done ++ input) "" None tokens sl' tl'.
Proof.
  intros Hz. induction n as [|n IH];
    intros input done ss ts sl tl tokens Hlen Hsim Hrun;
    rewrite tokenize_from_step in Hrun;
    destruct (tokenize_step input ss ts) as [r|input' ss' ts'] eqn:Hstep.
  - destruct input; [|simpl in Hlen; lia].
    injection Hstep as <-. injection Hrun as <-.
    exists sl, tl. split; [reflexivity|]. rewrite str_app_nil_r.
    inversion Hsim; subst; try congruence; econstructor; eauto.
  - apply tokenize_step_shorter in Hstep. lia.
  - destruct input as [|ch rest].
    + injection Hstep as <-. injection Hrun as <-.
      exists sl, tl. split; [reflexivity|]. rewrite str_app_nil_r.
      inversion Hsim; subst; try congruence; econstructor; eauto.
    + subst r. exfalso. exact (tokenize_step_not_tokens _ _ _ _ _ Hstep).
  - destruct (tokenize_step_sim z done input ss ts sl tl input' ss' ts' Hz Hsim Hstep)
      as (consumed & sl1 & tl1 & Hinput & Hlong & Hsim1).
    apply tokenize_step_shorter in Hstep.
    destruct (IH input' (done ++ consumed) ss' ts' sl1 tl1 tokens ltac:(lia) Hsim1 Hrun)
      as (sl' & tl' & Heq & Hsim').
    exists sl', tl'. split.
    + rewrite tokenize_from_step, Hlong. exact Heq.
    + rewrite Hinput, <- str_app_assoc. exact Hsim'.
Qed.

(** When the short line ends inside a quoted word, the long line reaches the
    quote that opens it with nothing pending. *)
Lemma tokenize_sim_unterminated z : z <> "" ->
  forall n input done ss ts sl tl,
  (String.length input <= n)%nat ->
  sim z done input ss ts sl tl ->
  tokenize_from input ss ts = LexError "Unterminated quote" ->
  exists p body tl',
    input = p ++ String dquote body
    /\ scan_quoted body = inl ""
    /\ tokenize_from (input ++ z) sl tl
       = tokenize_from (String dquote (body ++ z)) None tl'.
Proof.
  intros Hz. induction n as [|n IH];
    intros input done ss ts sl tl Hlen Hsim Hrun;
    rewrite tokenize_from_step in Hrun;
    destruct (tokenize_step input ss ts) as [r|input' ss' ts'] eqn:Hstep.
  - destruct input; [|simpl in Hlen; lia]. injection Hstep as <-. discriminate.
  - apply tokenize_step_shorter in Hstep. lia.
  - subst r. destruct input as [|ch rest]; [discriminate|].
    cbn [tokenize_step] in Hstep.
    destruct (Ascii.eqb_spec ch dquote) as [->|Hq].
    + destruct (scan_quoted rest) as [[|q after]|] eqn:Hscan; try discriminate.
      exists "", rest, (flush_word tl sl (String dquote rest ++ z)).
      split; [reflexivity|]. split; [assumption|].
      rewrite !(tokenize_from_step (String dquote rest ++ z)).
      cbn [append tokenize_step].
      change (Ascii.eqb dquote dquote) with true. cbv iota. reflexivity.
    + exfalso.
      destruct (Ascii.eqb ch "<" || Ascii.eqb ch ">" || Ascii.eqb ch "|" || isspace ch);
        [discriminate|].
      destruct (Ascii.eqb ch backslash).
      * destruct (negb (isescape (deref rest))).
        -- injection Hstep as Herr. unfold illegal_escape in Herr. discriminate.
        -- destruct (end_of_line _ _ _). discriminate.
      * destruct (end_of_line _ _ _). discriminate.
  - destruct (tokenize_step_sim z done input ss ts sl tl input' ss' ts' Hz Hsim Hstep)
      as (consumed & sl1 & tl1 & Hinput & Hlong & Hsim1).
    apply tokenize_step_shorter in Hstep.
    destruct (IH input' (done ++ consumed) ss' ts' sl1 tl1 ltac:(lia) Hsim1 Hrun)
      as (p & body & tl' & Hp & Hbody & Heq).
    exists (consumed ++ p), body, tl'. split; [|split].
    + now rewrite Hinput, Hp, str_app_assoc.
    + assumption.
    + rewrite tokenize_from_step, Hlong. exact Heq.
Qed.

(** *** Tokens only accumulate *)

Lemma flush_word_prepend earlier tokens start input :
  flush_word (earlier ++ tokens)%list start input
  = (earlier ++ flush_word tokens start input)%list.
Proof. destruct start; simpl; [now rewrite app_assoc|reflexivity]. Qed.

Lemma end_of_line_prepend earlier tokens start input :
  end_of_line (earlier ++ tokens)%list start input
  = ((earlier ++ fst (end_of_line tokens start input))%list,
     snd (end_of_line tokens start input)).
Proof. destruct input, start; simpl; try reflexivity. now rewrite app_assoc. Qed.

Lemma tokenize_step_prepend earlier input start tokens :
  tokenize_step input start (earlier ++ tokens)%list
  = match tokenize_step input start tokens with
    | Stop r => Stop (prepend earlier r)
    | Continue input' start' tokens' =>
        Continue input' start' (earlier ++ tokens')%list
    end.
Proof.
  destruct input as [|ch rest]; [reflexivity|]. cbn [tokenize_step].
  rewrite !flush_word_prepend, !end_of_line_prepend.
  destruct (Ascii.eqb ch dquote).
  { destruct (scan_quoted rest) as [[|q after]|]; try reflexivity.
    now rewrite app_assoc. }
  destruct (Ascii.eqb ch "<" || Ascii.eqb ch ">" || Ascii.eqb ch "|" || isspace ch).
  { destruct (Ascii.eqb ch "<"); [now rewrite app_assoc|].
    destruct (Ascii.eqb ch ">"); [now rewrite app_assoc|].
    destruct (Ascii.eqb ch "|"); [now rewrite app_assoc|reflexivity]. }
  destruct (Ascii.eqb ch backslash).
  - destruct (negb (isescape (deref rest))); [reflexivity|].
    destruct (end_of_line tokens _ _). reflexivity.
  - destruct (end_of_line tokens _ _). reflexivity.
Qed.

Lemma tokenize_from_prepend earlier : forall n input start tokens,
  (String.length input <= n)%nat ->
  tokenize_from input start (earlier ++ tokens)%list
  = prepend earlier (tokenize_from input start tokens).
Proof.
  induction n as [|n IH]; intros input start tokens Hlen;
    rewrite !(tokenize_from_step input), tokenize_step_prepend;
    destruct (tokenize_step input start tokens) as [r|input' start' tokens'] eqn:Hstep;
    try reflexivity;
    apply tokenize_step_shorter in Hstep; [lia|].
  apply IH. lia.
Qed.

Lemma tokenize_from_extends input start tokens result :
  tokenize_from input start tokens = Tokens result ->
  exists more, result = (tokens ++ more)%list.
Proof.
  rewrite <- (app_nil_r tokens) at 1.
  rewrite (tokenize_from_prepend tokens (String.length input)) by lia.
  destruct (tokenize_from input start []) as [more| |]; try discriminate.
  intros [= <-]. eauto.
Qed.

(** *** A quote right after a word *)

Lemma quoted_token_text (q rest : string) :
  TOK_nnew TOK_QUOTED_WORD (String dquote (q ++ String dquote rest))
    (ptrdiff (String dquote rest) (String dquote (q ++ String dquote rest)) + 1)
  = quoted_token (String dquote (q ++ String dquote "")).
Proof.
  unfold TOK_nnew, quoted_token, ptrdiff. cbn [String.length].
  rewrite str_length_app. cbn [String.length].
  replace (S (String.length q + S (String.length rest)) - S (String.length rest) + 1)%nat
    with (S (String.length q + 1)) by lia.
  cbn [Nat.eqb]. f_equal. f_equal.
  cbn [strndup]. f_equal.
  replace (String dquote rest) with (String dquote "" ++ rest) by reflexivity.
  rewrite <- str_app_assoc.
  replace (String.length q + 1)%nat with (String.length (q ++ String dquote ""))
    by (rewrite str_length_app; reflexivity).
  apply strndup_app.
Qed.

(** C10.  A double quote met in the unquoted region ends the word in
    progress: the tokens of what precedes the quote are emitted exactly as if
    the line ended there -- the pending Word last -- then the QuotedWord with
    both its quotes, then the tokens of the rest of the line. *)
Theorem quote_ends_word pre q rest tokens :
  TOK_tokenize_input pre = Tokens tokens ->
  scan_quoted q = inl "" ->
  TOK_tokenize_input (pre ++ String dquote (q ++ String dquote rest))
  = prepend (tokens ++ [quoted_token (String dquote (q ++ String dquote ""))])
      (TOK_tokenize_input rest).
Proof.
  intros Hpre Hq. unfold TOK_tokenize_input in *.
  set (z := String dquote (q ++ String dquote rest)).
  assert (Hz : z <> "") by discriminate.
  destruct (tokenize_sim_success z Hz (String.length pre) pre "" None [] None []
              tokens (le_n _) (sim_idle z "" pre []) Hpre)
    as (sl' & tl' & Heq & Hsim).
  rewrite Heq, tokenize_from_step. unfold z at 1. cbn [tokenize_step].
  change (Ascii.eqb dquote dquote) with true. cbv iota.
  rewrite (scan_quoted_app_end q _ Hq). cbn [scan_quoted].
  change (Ascii.eqb dquote dquote) with true. cbv iota.
  assert (Hflush : flush_word tl' sl' z = tokens).
  { inversion Hsim; subst; [reflexivity|]. now rewrite flush_pending. }
  fold z. rewrite Hflush. unfold z. rewrite quoted_token_text.
  rewrite <- (app_nil_r (tokens ++ [_])) at 1.
  apply (tokenize_from_prepend _ (String.length rest)). lia.
Qed.

(** The line of the repository's test: [seq 10 | wc"-l"]. *)
Lemma quote_ends_word_witness :
  TOK_tokenize_input ("seq 10 | wc" ++ String dquote ("-l" ++ String dquote ""))
  = Tokens [word_token "seq"; word_token "10"; TOK_op TOK_PIPE; word_token "wc";
            quoted_token (String dquote ("-l" ++ String dquote ""))].
Proof.
  exact (quote_ends_word "seq 10 | wc" "-l" ""
           [word_token "seq"; word_token "10"; TOK_op TOK_PIPE; word_token "wc"]
           eq_refl eq_refl).
Defined.

(** *** Escapes *)

(** A word in progress ends up in a Word token that extends it. *)
Lemma pending_word_emitted : forall n input w tokens result,
  (String.length input <= n)%nat ->
  w <> "" -> input <> "" ->
  tokenize_from input (Some (w ++ input)) tokens = Tokens result ->
  exists ext r, input = ext ++ r /\ In (word_token (w ++ ext)) result.
Proof.
  induction n as [|n IH]; intros input w tokens result Hlen Hw Hne Hrun;
    (destruct input as [|ch rest]; [congruence|]); [simpl in Hlen; lia|].
  rewrite tokenize_from_step in Hrun.
  assert (Hflushed : forall input' start' tokens',
            tokenize_from input' start' (tokens ++ [word_token w] ++ tokens')%list
            = Tokens result ->
            exists ext r, String ch rest = ext ++ r /\ In (word_token (w ++ ext)) result).
  { intros input' start' tokens' Hrest.
    apply tokenize_from_extends in Hrest as [more ->].
    exists "", (String ch rest). split; [reflexivity|].
    rewrite str_app_nil_r. rewrite <- !app_assoc.
    apply in_or_app. right. now left. }
  assert (Hnext : forall w' input',
            (String.length input' <= n)%nat -> w' <> "" ->
            (exists mid, w' = w ++ mid /\ String ch rest = mid ++ input') ->
            (let '(tokens2, start2) := end_of_line tokens (Some (w' ++ input')) input' in
             tokenize_from input' start2 tokens2) = Tokens result ->
            exists ext r, String ch rest = ext ++ r /\ In (word_token (w ++ ext)) result).
  { intros w' input' Hlen' Hw' (mid & -> & Hmid) Hrest.
    destruct input' as [|c' input''].
    - rewrite str_app_nil_r, end_of_line_flush in Hrest.
      rewrite tokenize_from_step in Hrest. injection Hrest as <-.
      exists mid, "". split; [assumption|].
      apply in_or_app. right. now left.
    - rewrite end_of_line_more in Hrest by discriminate.
      destruct (IH _ _ _ _ Hlen' Hw' ltac:(discriminate) Hrest) as (ext & r & Hext & Hin).
      exists (mid ++ ext), r. split.
      + now rewrite Hmid, Hext, str_app_assoc.
      + now rewrite <- str_app_assoc. }
  cbn [tokenize_step] in Hrun. rewrite flush_pending in Hrun by assumption.
  destruct (Ascii.eqb ch dquote).
  { destruct (scan_quoted rest) as [[|q after]|]; try discriminate.
    rewrite <- app_assoc in Hrun. exact (Hflushed _ _ _ Hrun). }
  destruct (Ascii.eqb ch "<" || Ascii.eqb ch ">" || Ascii.eqb ch "|" || isspace ch).
  { destruct (Ascii.eqb ch "<"); [rewrite <- app_assoc in Hrun; exact (Hflushed _ _ _ Hrun)|].
    destruct (Ascii.eqb ch ">"); [rewrite <- app_assoc in Hrun; exact (Hflushed _ _ _ Hrun)|].
    destruct (Ascii.eqb ch "|"); [rewrite <- app_assoc in Hrun; exact (Hflushed _ _ _ Hrun)|].
    rewrite <- (app_nil_r (tokens ++ [word_token w])), <- app_assoc in Hrun.
    exact (Hflushed _ _ _ Hrun). }
  simpl in Hlen.
  destruct (Ascii.eqb ch backslash).
  - destruct rest as [|c rest']; [discriminate|]. cbn [deref] in Hrun.
    destruct (negb (isescape c)); [discriminate|].
    apply (Hnext (w ++ String ch (String c "")) rest').
    + simpl in Hlen. lia.
    + destruct w; discriminate.
    + exists (String ch (String c "")). split; reflexivity.
    + rewrite str_app_assoc. cbn [append].
      destruct (end_of_line tokens (Some (w ++ String ch (String c rest'))) rest').
      exact Hrun.
  - apply (Hnext (w ++ String ch "") rest).
    + lia.
    + destruct w; discriminate.
    + exists (String ch ""). split; reflexivity.
    + rewrite str_app_assoc. cbn [append].
      destruct (end_of_line tokens (Some (w ++ String ch rest)) rest).
      exact Hrun.
Qed.

(** A word that has just received its first or a further character. *)
Lemma started_word_emitted w' rest tokens result :
  w' <> "" ->
  (let '(tokens2, start2) := end_of_line tokens (Some (w' ++ rest)) rest in
   tokenize_from rest start2 tokens2) = Tokens result ->
  exists ext r, rest = ext ++ r /\ In (word_token (w' ++ ext)) result.
Proof.
  intros Hw Hrun. destruct rest as [|c rest'].
  - rewrite str_app_nil_r, end_of_line_flush in Hrun.
    rewrite tokenize_from_step in Hrun. injection Hrun as <-.
    exists "", "". split; [reflexivity|].
    rewrite str_app_nil_r. apply in_or_app. right. now left.
  - rewrite end_of_line_more in Hrun by discriminate.
    apply (pending_word_emitted (String.length (String c rest')) _ w' tokens result
             (le_n _) Hw); [discriminate|exact Hrun].
Qed.

Lemma quoted_token_slice (text : string) q after :
  TOK_nnew TOK_QUOTED_WORD (text ++ String q after)
    (ptrdiff (String q after) (text ++ String q after) + 1)
  = quoted_token (text ++ String q "").
Proof.
  unfold TOK_nnew, quoted_token, ptrdiff.
  rewrite str_length_app. cbn [String.length].
  replace (String.length text + S (String.length after) - S (String.length after) + 1)%nat
    with (String.length (text ++ String q ""))
    by (rewrite str_length_app; simpl; lia).
  destruct (Nat.eqb_spec (String.length (text ++ String q "")) 0) as [Hzero|_].
  { rewrite str_length_app in Hzero. simpl in Hzero. lia. }
  f_equal. f_equal.
  replace (text ++ String q after) with ((text ++ String q "") ++ after)
    by (now rewrite str_app_assoc).
  apply strndup_app.
Qed.

Lemma scan_quoted_escape c rest :
  scan_quoted (String backslash (String c rest))
  = if negb (isescape c) then inr c else scan_quoted (String c rest).
Proof. reflexivity. Qed.



(** The lines of the repository's tests on escapes. *)
Example escapes_of_the_tests :
  TOK_tokenize_input "a\nb" = Tokens [word_token "a\nb"]
  /\ TOK_tokenize_input "a\ b" = Tokens [word_token "a\ b"]
  /\ TOK_tokenize_input "a\\b" = Tokens [word_token "a\\b"]
  /\ TOK_tokenize_input "cd Plaid\ Shell\ Playground"
     = Tokens [word_token "cd"; word_token "Plaid\ Shell\ Playground"]
  /\ TOK_tokenize_input ("echo " ++ String dquote ("\b" ++ String dquote ""))
     = LexError "Illegal escape character b"
  /\ TOK_tokenize_input ("echo " ++ String dquote "hi")
     = LexError "Unterminated quote"
  /\ TOK_tokenize_input "" = Tokens [].
Proof. repeat split. Qed.

(** *** Totality *)

Lemma TOK_tokenize_input_total input : TOK_tokenize_input input <> OutOfFuel.
Proof. apply (tokenize_from_terminates (String.length input)). lia. Qed.

End TokenizeProps.

(** ** Linked list: indexing, insertion and removal, joining, reversal *)

Module CLProps.
Import CL.

Local Open Scope Z_scope.

Section WithElement.

Variable E : Type.
Variable INVALID_RETURN : E.

Implicit Types (list : clist E) (node : list E).

Lemma count_nodes_length : forall node len,
  count_nodes E node len = len + Z.of_nat (List.length node).
Proof.
  induction node as [|x node IH]; intros len; simpl count_nodes.
  - simpl. lia.
  - rewrite IH. simpl List.length. lia.
Qed.

Lemma CL_length_iff list n :
  CL_length list = Some n
  <-> consistent list /\ n = Z.of_nat (List.length (head list)).
Proof.
  unfold CL_length, consistent. rewrite count_nodes_length.
  destruct (Z.eqb_spec (0 + Z.of_nat (List.length (head list))) (length list)) as [H|H].
  - split.
    + intros [= <-]. lia.
    + intros [H1 ->]. f_equal. lia.
  - split; [discriminate|]. intros [H1 _]. lia.
Qed.

Lemma set_tail_next_app : forall node temp,
  node <> [] -> set_tail_next E node temp = Some (node ++ temp).
Proof.
  induction node as [|x node IH]; intros temp Hne; [congruence|].
  destruct node as [|y node]; [reflexivity|].
  change (option_map (cons x) (set_tail_next E (y :: node) temp)
          = Some (x :: (y :: node) ++ temp)).
  rewrite IH by discriminate. reflexivity.
Qed.

Lemma nth_node_nth : forall node i,
  0 <= i -> nth_node E INVALID_RETURN node i = nth (Z.to_nat i) node INVALID_RETURN.
Proof.
  induction node as [|x node IH]; intros i Hi; simpl nth_node.
  - destruct (Z.to_nat i); reflexivity.
  - destruct (Z.eqb_spec i 0) as [->|Hne]; [reflexivity|].
    rewrite IH by lia.
    replace (Z.to_nat i) with (S (Z.to_nat (i - 1))) by lia. reflexivity.
Qed.

Lemma insert_walk_at : forall node pos element,
  1 <= pos <= Z.of_nat (List.length node) ->
  insert_walk E node pos element
  = Some (firstn (Z.to_nat pos) node ++ element :: skipn (Z.to_nat pos) node).
Proof.
  induction node as [|x node IH]; intros pos element Hpos; simpl List.length in Hpos.
  - lia.
  - simpl insert_walk. destruct (Z.eqb_spec (pos - 1) 0) as [Hz|Hne].
    + replace (Z.to_nat pos) with 1%nat by lia. reflexivity.
    + rewrite IH by lia.
      replace (Z.to_nat pos) with (S (Z.to_nat (pos - 1))) by lia. reflexivity.
Qed.

Lemma remove_walk_at : forall prev pos,
  1 <= pos < Z.of_nat (List.length prev) ->
  remove_walk E prev pos
  = Some (nth (Z.to_nat pos) prev INVALID_RETURN,
          firstn (Z.to_nat pos) prev ++ skipn (S (Z.to_nat pos)) prev).
Proof.
  induction prev as [|x prev IH]; intros pos Hpos; simpl List.length in Hpos.
  - lia.
  - simpl remove_walk. destruct (Z.eqb_spec (pos - 1) 0) as [Hz|Hne].
    + replace (Z.to_nat pos) with 1%nat by lia.
      destruct prev as [|y prev]; [simpl in Hpos; lia|reflexivity].
    + rewrite IH by lia.
      replace (Z.to_nat pos) with (S (Z.to_nat (pos - 1))) by lia. reflexivity.
Qed.

Lemma reverse_loop_rev : forall node reverse,
  reverse_loop E node reverse = rev node ++ reverse.
Proof.
  induction node as [|x node IH]; intros reverse; simpl; [reflexivity|].
  rewrite IH, <- app_assoc. reflexivity.
Qed.

Lemma consistent_of_elements (elements : list E) : consistent (of_elements elements).
Proof. reflexivity. Qed.

Lemma of_elements_head list : consistent list -> list = of_elements (head list).
Proof. destruct list as [h l]; unfold consistent; simpl; intros ->; reflexivity. Qed.

Lemma consistent_inv list :
  consistent list -> exists elements, list = of_elements elements.
Proof. intros Hc. exists (head list). apply of_elements_head, Hc. Qed.

Lemma CL_append_elements (elements : list E) element :
  CL_append (of_elements elements) element
  = Some (of_elements (elements ++ [element])).
Proof.
  unfold CL_append, of_elements; simpl head; simpl length.
  rewrite length_app; simpl List.length.
  replace (Z.of_nat (List.length elements + 1)) with (Z.of_nat (List.length elements) + 1) by lia.
  destruct elements as [|x elements]; [reflexivity|].
  destruct (Z.eqb_spec (Z.of_nat (List.length (x :: elements))) 0) as [H|H];
    [simpl in H; lia|].
  rewrite set_tail_next_app by discriminate. reflexivity.
Qed.

Lemma CL_insert_elements (elements : list E) element pos :
  - Z.of_nat (List.length elements) - 1 <= pos <= Z.of_nat (List.length elements) ->
  let k := normalize (Z.of_nat (List.length elements) + 1) pos in
  CL_insert (of_elements elements) element pos
  = Some (true, of_elements (firstn k elements ++ element :: skipn k elements)).
Proof.
  intros Hpos k. unfold CL_insert, of_elements; simpl head; simpl length.
  set (n := Z.of_nat (List.length elements)) in *.
  assert (Hlen : forall j, (j <= List.length elements)%nat ->
            Z.of_nat (List.length (firstn j elements ++ element :: skipn j elements)) = n + 1).
  { intros j Hj. rewrite length_app, length_firstn; simpl List.length.
    rewrite length_skipn. unfold n. lia. }
  destruct (Z.ltb_spec pos (- n - 1)); [lia|].
  destruct (Z.ltb_spec n pos); [lia|]. simpl orb. cbv iota.
  unfold k, normalize. destruct (Z.ltb_spec pos 0) as [Hneg|Hnn].
  - destruct (Z.eqb_spec (pos + (n + 1)) 0) as [Hz|Hne].
    + rewrite Hz. simpl. unfold CL_push, n. simpl. do 3 f_equal. lia.
    + rewrite (insert_walk_at elements) by (fold n; lia). simpl option_map.
      rewrite Hlen by lia. reflexivity.
  - destruct (Z.eqb_spec pos 0) as [Hz|Hne].
    + rewrite Hz. simpl. unfold CL_push, n. simpl. do 3 f_equal. lia.
    + rewrite (insert_walk_at elements) by (fold n; lia). simpl option_map.
      rewrite Hlen by lia. reflexivity.
Qed.

Lemma CL_nth_elements (elements : list E) pos :
  - Z.of_nat (List.length elements) <= pos < Z.of_nat (List.length elements) ->
  CL_nth INVALID_RETURN (of_elements elements) pos
  = nth (normalize (Z.of_nat (List.length elements)) pos) elements INVALID_RETURN.
Proof.
  intros Hpos. unfold CL_nth, of_elements; simpl head; simpl length.
  set (n := Z.of_nat (List.length elements)) in *.
  destruct (Z.ltb_spec pos (- n)); [lia|].
  destruct (Z.leb_spec n pos); [lia|]. simpl orb. cbv iota.
  unfold normalize. destruct (Z.ltb_spec pos 0) as [Hneg|Hnn].
  - rewrite Z.rem_small by lia. apply nth_node_nth. lia.
  - replace (pos + n) with (pos + 1 * n) by lia.
    rewrite Z.rem_add by lia. rewrite Z.rem_small by lia.
    apply nth_node_nth. lia.
Qed.

Lemma CL_nth_invalid list pos :
  pos < - length list \/ length list <= pos ->
  CL_nth INVALID_RETURN list pos = INVALID_RETURN.
Proof.
  intros H. unfold CL_nth.
  destruct (Z.ltb_spec pos (- length list)); [reflexivity|].
  destruct (Z.leb_spec (length list) pos); [reflexivity|]. lia.
Qed.

Lemma CL_remove_elements (elements : list E) pos :
  - Z.of_nat (List.length elements) <= pos < Z.of_nat (List.length elements) ->
  let k := normalize (Z.of_nat (List.length elements)) pos in
  CL_remove INVALID_RETURN (of_elements elements) pos
  = Some (nth k elements INVALID_RETURN,
          of_elements (firstn k elements ++ skipn (S k) elements)).
Proof.
  intros Hpos k. unfold CL_remove, of_elements; cbn [head length].
  set (n := Z.of_nat (List.length elements)) in *.
  assert (Hlen : forall j, (j < List.length elements)%nat ->
            Z.of_nat (List.length (firstn j elements ++ skipn (S j) elements)) = n - 1).
  { intros j Hj. rewrite length_app, length_firstn, length_skipn. unfold n. lia. }
  destruct (Z.ltb_spec pos (- n)); [lia|].
  destruct (Z.ltb_spec (n - 1) pos); [lia|]. simpl orb. cbv iota.
  assert (Hpop : k = 0%nat ->
            Some (CL_pop INVALID_RETURN (mk_clist elements n))
            = Some (nth k elements INVALID_RETURN,
                    mk_clist (firstn k elements ++ skipn (S k) elements)
                      (Z.of_nat (List.length (firstn k elements ++ skipn (S k) elements))))).
  { intros ->. destruct elements as [|x elements]; [simpl in n; lia|].
    unfold CL_pop. cbn [head length firstn skipn app nth].
    do 3 f_equal. unfold n. cbn [List.length]. lia. }
  unfold k, normalize in *. destruct (Z.ltb_spec pos 0) as [Hneg|Hnn].
  - destruct (Z.eqb_spec (pos + n) 0) as [Hz|Hne].
    + apply Hpop. lia.
    + rewrite (remove_walk_at elements (pos + n)) by (fold n; lia).
      simpl option_map. simpl fst. simpl snd. rewrite Hlen by lia. reflexivity.
  - destruct (Z.eqb_spec pos 0) as [Hz|Hne].
    + apply Hpop. lia.
    + rewrite (remove_walk_at elements pos) by (fold n; lia).
      simpl option_map. simpl fst. simpl snd. rewrite Hlen by lia. reflexivity.
Qed.

Lemma copy_nodes_elements : forall node (acc : list E),
  copy_nodes E node (of_elements acc) = Some (of_elements (acc ++ node)).
Proof.
  induction node as [|x node IH]; intros acc; simpl copy_nodes.
  - rewrite app_nil_r. reflexivity.
  - rewrite CL_append_elements, IH, <- app_assoc. reflexivity.
Qed.

Lemma normalize_bound len pos :
  - len <= pos < len -> (Z.of_nat (normalize len pos) < len).
Proof. unfold normalize. destruct (Z.ltb_spec pos 0); lia. Qed.

(** X1.  On a list whose stored length is its number of nodes, [CL_length]
    passes its consistency check and returns that number, no operation
    follows a NULL node pointer, and every operation leaves a list with the
    same property; [CL_copy] yields a list with the same elements. *)
Theorem CL_operations_keep_length list element pos :
  consistent list ->
  CL_length list = Some (Z.of_nat (List.length (head list)))
  /\ consistent (CL_push list element)
  /\ consistent (snd (CL_pop INVALID_RETURN list))
  /\ (exists list', CL_append list element = Some list' /\ consistent list')
  /\ (exists ok list',
        CL_insert list element pos = Some (ok, list') /\ consistent list')
  /\ (exists x list',
        CL_remove INVALID_RETURN list pos = Some (x, list') /\ consistent list')
  /\ CL_copy list = Some list
  /\ consistent (CL_reverse list).
Proof.
  intros Hc. pose proof (of_elements_head list Hc) as Heq.
  set (elements := head list) in *. clearbody elements. subst list.
  cbn [head of_elements].
  split; [apply CL_length_iff; split; reflexivity|].
  split; [unfold consistent, CL_push; cbn [head length of_elements List.length]; lia|].
  split.
  { unfold CL_pop; cbn [head of_elements]. destruct elements as [|x elements].
    - reflexivity.
    - unfold consistent; cbn [snd head length of_elements List.length]. lia. }
  split; [rewrite CL_append_elements; eauto using consistent_of_elements|].
  split.
  { destruct (Z.ltb_spec pos (- Z.of_nat (List.length elements) - 1)) as [Hlo|Hlo];
      [|destruct (Z.ltb_spec (Z.of_nat (List.length elements)) pos) as [Hhi|Hhi]].
    - exists false, (of_elements elements). split; [|reflexivity].
      unfold CL_insert; cbn [head length of_elements].
      destruct (Z.ltb_spec pos (- Z.of_nat (List.length elements) - 1)); [reflexivity|lia].
    - exists false, (of_elements elements). split; [|reflexivity].
      unfold CL_insert; cbn [head length of_elements].
      destruct (Z.ltb_spec (Z.of_nat (List.length elements)) pos); [|lia].
      rewrite orb_true_r. reflexivity.
    - rewrite CL_insert_elements by lia. eauto using consistent_of_elements. }
  split.
  { destruct (Z.ltb_spec pos (- Z.of_nat (List.length elements))) as [Hlo|Hlo];
      [|destruct (Z.ltb_spec (Z.of_nat (List.length elements) - 1) pos) as [Hhi|Hhi]].
    - exists INVALID_RETURN, (of_elements elements). split; [|reflexivity].
      unfold CL_remove; cbn [head length of_elements].
      destruct (Z.ltb_spec pos (- Z.of_nat (List.length elements))); [reflexivity|lia].
    - exists INVALID_RETURN, (of_elements elements). split; [|reflexivity].
      unfold CL_remove; cbn [head length of_elements].
      destruct (Z.ltb_spec (Z.of_nat (List.length elements) - 1) pos); [|lia].
      rewrite orb_true_r. reflexivity.
    - rewrite CL_remove_elements by lia. eauto using consistent_of_elements. }
  split.
  { unfold CL_copy; cbn [head of_elements].
    exact (copy_nodes_elements elements []). }
  unfold consistent, CL_reverse; cbn [head length of_elements].
  rewrite reverse_loop_rev, app_nil_r, length_rev. reflexivity.
Qed.

(** X2.  [CL_nth] counts a position that is not negative from the front and
    a negative one from the back ([-1] is the last element); every other
    position, and so every position of an empty list, yields
    [INVALID_RETURN]. *)
Theorem CL_nth_index list pos :
  consistent list ->
  (0 <= pos < length list ->
     CL_nth INVALID_RETURN list pos
     = nth (Z.to_nat pos) (head list) INVALID_RETURN)
  /\ (- length list <= pos < 0 ->
        CL_nth INVALID_RETURN list pos
        = nth (Z.to_nat (length list + pos)) (head list) INVALID_RETURN)
  /\ (pos < - length list \/ length list <= pos ->
        CL_nth INVALID_RETURN list pos = INVALID_RETURN).
Proof.
  intros Hc. split; [|split]; [| |apply CL_nth_invalid].
  - intros Hpos. rewrite (of_elements_head list Hc) at 1.
    rewrite CL_nth_elements by (rewrite <- Hc; lia).
    unfold normalize. destruct (Z.ltb_spec pos 0); [lia|reflexivity].
  - intros Hpos. rewrite (of_elements_head list Hc) at 1.
    rewrite CL_nth_elements by (rewrite <- Hc; lia).
    unfold normalize. destruct (Z.ltb_spec pos 0); [|lia].
    rewrite <- Hc. f_equal. lia.
Qed.

Lemma nth_middle_at (l1 l2 : list E) (x d : E) k :
  k = List.length l1 -> nth k (l1 ++ x :: l2) d = x.
Proof. intros ->. apply nth_middle. Qed.

(** X3.  [CL_insert] succeeds exactly for the positions from
    [-length - 1] to [length]; the list then has one element more and
    [CL_nth] at the same position reads the inserted element.  For any other
    position it returns false and the list is unchanged. *)
Theorem CL_insert_then_nth list element pos :
  consistent list ->
  (- length list - 1 <= pos <= length list ->
     exists list',
       CL_insert list element pos = Some (true, list')
       /\ length list' = length list + 1
       /\ CL_nth INVALID_RETURN list' pos = element)
  /\ (pos < - length list - 1 \/ length list < pos ->
        CL_insert list element pos = Some (false, list)).
Proof.
  intros Hc. destruct (consistent_inv list Hc) as [elements ->]. clear Hc.
  cbn [length of_elements]. split.
  - intros Hpos. rewrite CL_insert_elements by lia.
    set (n := Z.of_nat (List.length elements)) in *.
    set (k := normalize (n + 1) pos).
    assert (Hk : (k <= List.length elements)%nat).
    { unfold k, normalize. destruct (Z.ltb_spec pos 0); lia. }
    assert (Hlen : Z.of_nat (List.length
                     (firstn k elements ++ element :: skipn k elements))
                   = n + 1).
    { rewrite length_app, length_firstn; cbn [List.length].
      rewrite length_skipn. lia. }
    eexists. split; [reflexivity|]. split; [exact Hlen|].
    rewrite CL_nth_elements by (rewrite Hlen; lia).
    rewrite Hlen. fold k. apply nth_middle_at.
    rewrite length_firstn. lia.
  - intros Hpos. unfold CL_insert; cbn [length of_elements].
    destruct (Z.ltb_spec pos (- Z.of_nat (List.length elements) - 1)); [reflexivity|].
    destruct (Z.ltb_spec (Z.of_nat (List.length elements)) pos); [reflexivity|lia].
Qed.

Lemma firstn_skipn_middle (l : list E) (x : E) k :
  (k <= List.length l)%nat ->
  firstn k (firstn k l ++ x :: skipn k l)
  ++ skipn (S k) (firstn k l ++ x :: skipn k l) = l.
Proof.
  intros Hk.
  assert (Hf : List.length (firstn k l) = k) by (rewrite length_firstn; lia).
  rewrite firstn_app, Hf, Nat.sub_diag, firstn_O, app_nil_r.
  rewrite firstn_all2 by lia.
  rewrite skipn_app, Hf.
  rewrite (skipn_all2 (firstn k l)) by lia.
  replace (S k - k)%nat with 1%nat by lia. cbn [skipn app].
  apply firstn_skipn.
Qed.



(** X6.  [CL_append] puts the element after the last one, and is the same as
    [CL_insert] at position [-1] or at position [length]. *)
Theorem CL_append_at_end list element :
  consistent list ->
  let list' := of_elements (head list ++ [element]) in
  CL_append list element = Some list'
  /\ CL_insert list element (-1) = Some (true, list')
  /\ CL_insert list element (length list) = Some (true, list').
Proof.
  intros Hc. destruct (consistent_inv list Hc) as [elements ->]. clear Hc.
  cbn [length head of_elements]. cbv zeta.
  rewrite CL_append_elements. split; [reflexivity|].
  assert (Hn : 0 <= Z.of_nat (List.length elements)) by lia.
  split.
  - rewrite CL_insert_elements by lia. unfold normalize.
    change (-1 <? 0) with true. cbv iota.
    replace (Z.to_nat _) with (List.length elements) by lia.
    rewrite firstn_all, skipn_all. reflexivity.
  - rewrite CL_insert_elements by lia. unfold normalize.
    destruct (Z.ltb_spec (Z.of_nat (List.length elements)) 0); [lia|].
    rewrite Nat2Z.id, firstn_all, skipn_all. reflexivity.
Qed.

(** X7.  [CL_reverse] reverses the order of the elements and keeps the
    length; reversing twice restores the list, and position [pos] of the
    reversed list is position [-1 - pos] of the original one. *)
Theorem CL_reverse_mirrors_index list :
  consistent list ->
  head (CL_reverse list) = rev (head list)
  /\ CL_reverse (CL_reverse list) = list
  /\ forall pos,
       CL_nth INVALID_RETURN (CL_reverse list) pos
       = CL_nth INVALID_RETURN list (-1 - pos).
Proof.
  intros Hc. destruct (consistent_inv list Hc) as [elements ->]. clear Hc.
  assert (Hrev : CL_reverse (of_elements elements) = of_elements (rev elements)).
  { unfold CL_reverse, of_elements; cbn [head length].
    rewrite reverse_loop_rev, app_nil_r, length_rev. reflexivity. }
  split; [rewrite Hrev; reflexivity|]. split.
  - rewrite Hrev. unfold CL_reverse, of_elements; cbn [head length].
    rewrite reverse_loop_rev, app_nil_r, rev_involutive, length_rev.
    reflexivity.
  - intros pos. rewrite Hrev. set (n := Z.of_nat (List.length elements)).
    assert (Hn : Z.of_nat (List.length (rev elements)) = n)
      by (rewrite length_rev; reflexivity).
    destruct (Z.ltb_spec pos (- n)) as [Hlo|Hlo];
      [|destruct (Z.leb_spec n pos) as [Hhi|Hhi]].
    + rewrite !CL_nth_invalid; [reflexivity| |]; cbn [length of_elements]; lia.
    + rewrite !CL_nth_invalid; [reflexivity| |]; cbn [length of_elements]; lia.
    + rewrite !CL_nth_elements by lia.
      rewrite Hn. fold n.
      pose proof (normalize_bound n pos ltac:(lia)) as Hb.
      rewrite rev_nth by lia.
      f_equal. unfold normalize in *. fold n.
      destruct (Z.ltb_spec pos 0); destruct (Z.ltb_spec (-1 - pos) 0); lia.
Qed.

Lemma join_loop_elements : forall (l2 l1 : list E) fuel,
  (List.length l2 < fuel)%nat ->
  join_loop INVALID_RETURN fuel (of_elements l1) (of_elements l2)
  = Finished (of_elements (l1 ++ l2), CL_new).
Proof.
  induction l2 as [|x l2 IH]; intros l1 fuel Hfuel;
    (destruct fuel as [|fuel]; [simpl in Hfuel; lia|]).
  - simpl. rewrite app_nil_r. reflexivity.
  - cbn [join_loop].
    assert (Hlen : CL_length (of_elements (x :: l2))
                   = Some (Z.of_nat (List.length (x :: l2)))).
    { apply CL_length_iff. split; reflexivity. }
    rewrite Hlen.
    destruct (Z.eqb_spec (Z.of_nat (List.length (x :: l2))) 0) as [Hz|_];
      [simpl in Hz; lia|].
    rewrite CL_remove_elements by (simpl List.length; lia).
    unfold normalize. cbn [Z.ltb Z.compare Z.to_nat nth firstn skipn app].
    rewrite CL_append_elements.
    rewrite IH by (simpl in Hfuel; lia).
    rewrite <- app_assoc. reflexivity.
Qed.



End WithElement.

Lemma CL_operations_keep_length_witness :
  CL_length sample = Some 3 /\ CL_copy sample = Some sample.
Proof.
  destruct (CL_operations_keep_length Z 0 sample 40 1 eq_refl)
    as (Hlen & _ & _ & _ & _ & _ & Hcopy & _).
  split; [exact Hlen | exact Hcopy].
Defined.

Lemma CL_nth_index_witness :
  CL_nth 0 sample 2 = 30 /\ CL_nth 0 sample (-1) = 30 /\ CL_nth 0 sample 3 = 0.
Proof.
  split; [|split].
  - apply (proj1 (CL_nth_index Z 0 sample 2 eq_refl)). cbn. lia.
  - apply (proj1 (proj2 (CL_nth_index Z 0 sample (-1) eq_refl))). cbn. lia.
  - apply (proj2 (proj2 (CL_nth_index Z 0 sample 3 eq_refl))). cbn. lia.
Defined.

Lemma CL_insert_then_nth_witness :
  (exists list',
     CL_insert sample 15 (-3) = Some (true, list')
     /\ length list' = 4 /\ CL_nth 0 list' (-3) = 15)
  /\ CL_insert sample 15 4 = Some (false, sample).
Proof.
  split.
  - apply (proj1 (CL_insert_then_nth Z 0 sample 15 (-3) eq_refl)). cbn. lia.
  - apply (proj2 (CL_insert_then_nth Z 0 sample 15 4 eq_refl)). cbn. lia.
Defined.



Lemma CL_append_at_end_witness :
  CL_append sample 40 = Some (of_elements [10; 20; 30; 40])
  /\ CL_insert sample 40 (-1) = Some (true, of_elements [10; 20; 30; 40])
  /\ CL_insert sample 40 3 = Some (true, of_elements [10; 20; 30; 40]).
Proof. exact (CL_append_at_end Z sample 40 eq_refl). Defined.

Lemma CL_reverse_mirrors_index_witness :
  head (CL_reverse sample) = [30; 20; 10]
  /\ CL_nth 0 (CL_reverse sample) 0 = CL_nth 0 sample (-1).
Proof.
  destruct (CL_reverse_mirrors_index Z 0 sample eq_refl) as (Hhead & _ & Hnth).
  split; [exact Hhead | exact (Hnth 0)].
Defined.



End CLProps.

(** ** Token stream: the list functions behind the parser's view *)

Module TokenStreamProps.
Import CL.

Local Open Scope Z_scope.

(** X10.  On a token list whose stored length is its number of nodes, the
    three stream functions are the head and tail of the token sequence:
    [TOK_next_type] is the type of the first token, [TOK_END] when there is
    none; [TOK_next] is the first token; [TOK_consume] drops it, and does
    nothing on the empty list. *)
Theorem token_stream_is_sequence INVALID_RETURN (tokens : clist Token) :
  consistent tokens ->
  TokenStream.TOK_next_type INVALID_RETURN tokens
  = Some (TOK_next_type (head tokens))
  /\ (head tokens <> [] ->
        Some (TokenStream.TOK_next INVALID_RETURN tokens) = TOK_next (head tokens))
  /\ exists tokens',
        TokenStream.TOK_consume INVALID_RETURN tokens = Some tokens'
        /\ consistent tokens'
        /\ head tokens' = TOK_consume (head tokens).
Proof.
  intros Hc. destruct (CLProps.consistent_inv _ tokens Hc) as [elements ->].
  clear Hc. unfold TokenStream.TOK_next_type, TokenStream.TOK_next,
    TokenStream.TOK_consume.
  assert (Hlen : CL_length (of_elements elements)
                 = Some (Z.of_nat (List.length elements))).
  { apply CLProps.CL_length_iff. split; reflexivity. }
  rewrite Hlen. cbn [head of_elements].
  destruct elements as [|t elements].
  - split; [reflexivity|]. split; [congruence|].
    exists (of_elements []). repeat split.
  - split; [|split].
    + destruct (Z.eqb_spec (Z.of_nat (List.length (t :: elements))) 0) as [Hz|_];
        [simpl in Hz; lia|].
      rewrite CLProps.CL_nth_elements by (simpl List.length; lia). reflexivity.
    + intros _.
      rewrite CLProps.CL_nth_elements by (simpl List.length; lia). reflexivity.
    + rewrite CLProps.CL_remove_elements by (simpl List.length; lia).
      exists (of_elements elements). repeat split.
Qed.

Lemma token_stream_is_sequence_witness :
  TokenStream.TOK_next_type (TOK_op TOK_END)
    (of_elements [Tokenize.word_token "ls"; TOK_op TOK_PIPE])
  = Some TOK_WORD.
Proof.
  exact (proj1 (token_stream_is_sequence (TOK_op TOK_END)
                  (of_elements [Tokenize.word_token "ls"; TOK_op TOK_PIPE])
                  eq_refl)).
Defined.

End TokenStreamProps.

(** ** Tokenizer: separators, outcomes and the shape of tokens *)

Module TokenShapeProps.
Import Tokenize TokenShape TokenizeProps.

Local Open Scope string_scope.

Lemma separator_not_quote ch : is_separator ch = true -> Ascii.eqb ch dquote = false.
Proof.
  intros Hsep. destruct (Ascii.eqb_spec ch dquote) as [->|_]; [|reflexivity].
  discriminate Hsep.
Qed.

(** X11.  A separator (an operator character or white space) met in an
    unquoted region ends the word in progress: the tokens of what precedes
    it are emitted as if the line ended there, then the operator's token if
    it is one, then the tokens of the rest of the line. *)
Theorem separator_splits_line pre ch rest tokens :
  TOK_tokenize_input pre = Tokens tokens ->
  is_separator ch = true ->
  TOK_tokenize_input (pre ++ String ch rest)
  = prepend (tokens ++ separator_tokens ch)%list (TOK_tokenize_input rest).
Proof.
  intros Hpre Hsep. unfold TOK_tokenize_input in *.
  set (z := String ch rest).
  assert (Hz : z <> "") by discriminate.
  destruct (tokenize_sim_success z Hz (String.length pre) pre "" None [] None []
              tokens (le_n _) (sim_idle z "" pre []) Hpre)
    as (sl' & tl' & Heq & Hsim).
  assert (Hflush : flush_word tl' sl' z = tokens).
  { inversion Hsim; subst; [reflexivity|]. now rewrite flush_pending. }
  rewrite Heq, tokenize_from_step. unfold z at 1. cbn [tokenize_step].
  rewrite (separator_not_quote ch Hsep).
  unfold is_separator in Hsep. rewrite Hsep. fold z. rewrite Hflush.
  unfold separator_tokens.
  assert (Hpre' : forall more,
            tokenize_from rest None (tokens ++ more)%list
            = prepend (tokens ++ more)%list (tokenize_from rest None [])).
  { intros more. rewrite <- (app_nil_r (tokens ++ more)%list) at 1.
    apply (tokenize_from_prepend _ (String.length rest)). lia. }
  destruct (Ascii.eqb ch "<"); [apply Hpre'|].
  destruct (Ascii.eqb ch ">"); [apply Hpre'|].
  destruct (Ascii.eqb ch "|"); [apply Hpre'|].
  rewrite <- (app_nil_r tokens) at 1. apply Hpre'.
Qed.

Lemma separator_splits_line_witness :
  TOK_tokenize_input ("ls -l" ++ String "|" "wc")
  = Tokens [word_token "ls"; word_token "-l"; TOK_op TOK_PIPE; word_token "wc"].
Proof.
  exact (separator_splits_line "ls -l" "|" "wc" [word_token "ls"; word_token "-l"]
           eq_refl eq_refl).
Defined.

Lemma scan_quoted_illegal : forall r c,
  scan_quoted r = inr c -> isescape c = false.
Proof.
  induction r as [|ch rest IH]; intros c Hscan; simpl in Hscan; [discriminate|].
  destruct (Ascii.eqb ch dquote); [discriminate|].
  destruct (Ascii.eqb ch backslash); cbn [andb] in Hscan.
  - destruct (isescape (deref rest)) eqn:Hesc; cbn [negb] in Hscan.
    + now apply IH.
    + injection Hscan as <-. exact Hesc.
  - now apply IH.
Qed.

Lemma tokenize_from_outcomes : forall n input start tokens,
  (String.length input <= n)%nat ->
  outcome_ok (tokenize_from input start tokens).
Proof.
  induction n as [|n IH]; intros input start tokens Hlen;
    rewrite tokenize_from_step;
    (destruct input as [|ch rest]; [left; eexists; reflexivity|]);
    [simpl in Hlen; lia|].
  simpl in Hlen. cbn [tokenize_step].
  destruct (Ascii.eqb ch dquote).
  { destruct (scan_quoted rest) as [[|q after]|c] eqn:Hscan.
    - right. left. reflexivity.
    - apply IH. apply scan_quoted_length in Hscan. simpl in Hscan. lia.
    - right. right. exists c. split; [|reflexivity].
      exact (scan_quoted_illegal _ _ Hscan). }
  destruct (Ascii.eqb ch "<" || Ascii.eqb ch ">" || Ascii.eqb ch "|" || isspace ch).
  { apply IH. lia. }
  destruct (Ascii.eqb ch backslash).
  - destruct (isescape (deref rest)) eqn:Hesc; cbn [negb].
    + destruct (end_of_line _ _ _). apply IH. destruct rest; simpl in *; lia.
    + right. right. exists (deref rest). split; [assumption|reflexivity].
  - destruct (end_of_line _ _ _). apply IH. lia.
Qed.

(** X12.  The tokenizer always terminates, and in one of three ways: with
    the list of tokens, with the message [Unterminated quote], or with the
    message that names a character which follows a backslash without being
    in the escape set. *)
Theorem TOK_tokenize_input_outcomes input :
  outcome_ok (TOK_tokenize_input input).
Proof.
  unfold TOK_tokenize_input.
  apply (tokenize_from_outcomes (String.length input)). lia.
Qed.

Lemma space_not_operator ch :
  isspace ch = true ->
  Ascii.eqb ch "<" = false /\ Ascii.eqb ch ">" = false /\ Ascii.eqb ch "|" = false.
Proof.
  intros Hsp. repeat split;
    match goal with
    | |- Ascii.eqb ch ?c = false =>
        destruct (Ascii.eqb_spec ch c) as [->|_]; [discriminate Hsp|reflexivity]
    end.
Qed.

Lemma blank_from : forall s tokens,
  blank s = true -> tokenize_from s None tokens = Tokens tokens.
Proof.
  induction s as [|ch rest IH]; intros tokens Hblank;
    rewrite tokenize_from_step; [reflexivity|].
  cbn [blank] in Hblank. apply andb_prop in Hblank as [Hsp Hrest].
  cbn [tokenize_step].
  assert (Hsep : is_separator ch = true) by (unfold is_separator; rewrite Hsp; apply orb_true_r).
  rewrite (separator_not_quote ch Hsep).
  unfold is_separator in Hsep. rewrite Hsep.
  destruct (space_not_operator ch Hsp) as (-> & -> & ->).
  cbn [flush_word]. apply IH, Hrest.
Qed.

(** X13.  A line of white space only gives the empty list of tokens, and
    white space added in front of a line or after a line that tokenizes
    changes none of its tokens. *)
Theorem blank_adds_no_token (spaces line : string) :
  blank spaces = true ->
  TOK_tokenize_input spaces = Tokens []
  /\ TOK_tokenize_input (spaces ++ line) = TOK_tokenize_input line
  /\ forall tokens,
       TOK_tokenize_input line = Tokens tokens ->
       TOK_tokenize_input (line ++ spaces) = Tokens tokens.
Proof.
  intros Hblank. split; [apply blank_from, Hblank|]. split.
  - unfold TOK_tokenize_input. revert Hblank.
    induction spaces as [|ch rest IH]; intros Hblank; [reflexivity|].
    cbn [blank] in Hblank. apply andb_prop in Hblank as [Hsp Hrest].
    cbn [append]. rewrite tokenize_from_step. cbn [tokenize_step].
    assert (Hsep : is_separator ch = true)
      by (unfold is_separator; rewrite Hsp; apply orb_true_r).
    rewrite (separator_not_quote ch Hsep).
    unfold is_separator in Hsep. rewrite Hsep.
    destruct (space_not_operator ch Hsp) as (-> & -> & ->).
    cbn [flush_word]. apply IH, Hrest.
  - intros tokens Hline. destruct spaces as [|ch rest].
    + rewrite str_app_nil_r. exact Hline.
    + unfold TOK_tokenize_input in *.
      set (z := String ch rest).
      assert (Hz : z <> "") by discriminate.
      destruct (tokenize_sim_success z Hz (String.length line) line "" None [] None []
                  tokens (le_n _) (sim_idle z "" line []) Hline)
        as (sl' & tl' & Heq & Hsim).
      assert (Hflush : flush_word tl' sl' z = tokens).
      { inversion Hsim; subst; [reflexivity|]. now rewrite flush_pending. }
      rewrite Heq, tokenize_from_step. unfold z at 1. cbn [tokenize_step].
      cbn [blank] in Hblank. apply andb_prop in Hblank as [Hsp Hrest].
      assert (Hsep : is_separator ch = true)
        by (unfold is_separator; rewrite Hsp; apply orb_true_r).
      rewrite (separator_not_quote ch Hsep).
      unfold is_separator in Hsep. rewrite Hsep.
      destruct (space_not_operator ch Hsp) as (-> & -> & ->).
      fold z. rewrite Hflush. apply blank_from, Hrest.
Qed.

Lemma blank_adds_no_token_witness :
  TOK_tokenize_input "  " = Tokens []
  /\ TOK_tokenize_input ("  " ++ "ls") = TOK_tokenize_input "ls".
Proof.
  destruct (blank_adds_no_token "  " "ls" eq_refl) as (Hnone & Hfront & _).
  split; [exact Hnone | exact Hfront].
Defined.

(** *** Shapes *)

Lemma word_text_app : forall n w v,
  (String.length w <= n)%nat ->
  word_text w = true -> word_text v = true -> word_text (w ++ v) = true.
Proof.
  induction n as [|n IH]; intros w v Hlen Hw Hv;
    (destruct w as [|ch w]; [exact Hv|]); [simpl in Hlen; lia|].
  simpl in Hlen. cbn [append word_text] in *.
  destruct (Ascii.eqb ch dquote || is_separator ch); [discriminate|].
  destruct (Ascii.eqb ch backslash).
  - destruct w as [|c w]; [discriminate|]. cbn [append].
    apply andb_prop in Hw as [Hc Hw]. rewrite Hc. cbn [andb].
    apply IH; [simpl in Hlen; lia|assumption|assumption].
  - apply IH; [lia|assumption|assumption].
Qed.

Lemma scan_quoted_body : forall r stop,
  scan_quoted r = inl stop ->
  exists body, r = body ++ stop /\ has_char dquote body = false.
Proof.
  induction r as [|ch rest IH]; intros stop Hscan; simpl in Hscan.
  - injection Hscan as <-. exists "". split; reflexivity.
  - destruct (Ascii.eqb ch dquote) eqn:Hq.
    + injection Hscan as <-. exists "". split; reflexivity.
    + destruct (Ascii.eqb ch backslash && negb (isescape (deref rest)));
        [discriminate|].
      destruct (IH stop Hscan) as (body & -> & Hbody).
      exists (String ch body). split; [reflexivity|].
      cbn [has_char]. rewrite Hq, Hbody. reflexivity.
Qed.

Lemma word_token_shape w :
  w <> "" -> word_text w = true -> token_shape (word_token w).
Proof. intros Hne Hw. exists w. repeat split; assumption. Qed.

Lemma flush_word_shape tokens start input :
  pending_ok input start -> Forall token_shape tokens ->
  Forall token_shape (flush_word tokens start input).
Proof.
  intros Hp Hts. destruct start as [st|]; [|exact Hts].
  destruct Hp as (w & -> & Hne & Hw). rewrite flush_pending by assumption.
  apply Forall_app. split; [assumption|].
  constructor; [now apply word_token_shape|constructor].
Qed.

Lemma end_of_line_shape tokens w input tokens' start' :
  w <> "" -> word_text w = true -> Forall token_shape tokens ->
  end_of_line tokens (Some (w ++ input)) input = (tokens', start') ->
  pending_ok input start' /\ Forall token_shape tokens'.
Proof.
  intros Hne Hw Hts Heol. destruct input as [|c input].
  - rewrite str_app_nil_r, end_of_line_flush in Heol.
    injection Heol as <- <-. split; [exact I|].
    apply Forall_app. split; [assumption|].
    constructor; [now apply word_token_shape|constructor].
  - rewrite end_of_line_more in Heol by discriminate.
    injection Heol as <- <-. split; [|assumption].
    exists w. repeat split; assumption.
Qed.

Lemma start_extended start (v tail : string) :
  pending_ok (v ++ tail) start -> v <> "" -> word_text v = true ->
  exists w,
    match start with Some _ => start | None => Some (v ++ tail) end
    = Some (w ++ tail)
    /\ w <> "" /\ word_text w = true.
Proof.
  intros Hp Hne Hv. destruct start as [st|].
  - destruct Hp as (w0 & -> & Hne0 & Hw0). exists (w0 ++ v).
    split; [now rewrite str_app_assoc|].
    split; [destruct w0; [congruence|discriminate]|].
    apply (word_text_app (String.length w0)); auto.
  - exists v. repeat split; assumption.
Qed.

Lemma tokenize_step_shape input start tokens input' start' tokens' :
  tokenize_step input start tokens = Continue input' start' tokens' ->
  pending_ok input start -> Forall token_shape tokens ->
  pending_ok input' start' /\ Forall token_shape tokens'.
Proof.
  intros Hstep Hp Hts. destruct input as [|ch rest]; [discriminate|].
  pose proof (flush_word_shape tokens start (String ch rest) Hp Hts) as Hflush.
  cbn [tokenize_step] in Hstep.
  destruct (Ascii.eqb ch dquote) eqn:Hq.
  { destruct (scan_quoted rest) as [[|q after]|] eqn:Hscan; try discriminate.
    injection Hstep as <- <- <-. split; [exact I|].
    apply Forall_app. split; [assumption|].
    constructor; [|constructor].
    destruct (scan_quoted_body rest _ Hscan) as (body & Hrest & Hbody).
    destruct (scan_quoted_stop rest _ Hscan) as (_ & _ & [Hnil|[after' Hstop]]);
      [discriminate|].
    injection Hstop as -> <-.
    apply Ascii.eqb_eq in Hq. subst ch. rewrite Hrest.
    change (token_shape
              (TOK_nnew TOK_QUOTED_WORD (String dquote body ++ String dquote after)
                 (ptrdiff (String dquote after)
                    (String dquote body ++ String dquote after) + 1))).
    rewrite quoted_token_slice.
    exists body. split; [reflexivity|assumption]. }
  destruct (Ascii.eqb ch "<" || Ascii.eqb ch ">" || Ascii.eqb ch "|" || isspace ch)
    eqn:Hsep.
  { injection Hstep as <- <- <-. split; [exact I|].
    destruct (Ascii.eqb ch "<");
      [apply Forall_app; split; [assumption|repeat constructor]|].
    destruct (Ascii.eqb ch ">");
      [apply Forall_app; split; [assumption|repeat constructor]|].
    destruct (Ascii.eqb ch "|");
      [apply Forall_app; split; [assumption|repeat constructor]|].
    assumption. }
  destruct (Ascii.eqb ch backslash) eqn:Hb.
  - destruct rest as [|c rest']; [discriminate|]. cbn [deref] in Hstep.
    destruct (isescape c) eqn:Hc; [|discriminate]. cbn [negb] in Hstep.
    destruct (start_extended start (String ch (String c "")) rest' Hp)
      as (w & Heq & Hne & Hw); [discriminate| |].
    { cbn [word_text]. unfold is_separator. rewrite Hq, Hsep, Hb, Hc. reflexivity. }
    cbn [append] in Heq. rewrite Heq in Hstep.
    destruct (end_of_line tokens _ rest') as [tokens2 start2] eqn:Heol.
    injection Hstep as <- <- <-.
    exact (end_of_line_shape tokens w rest' tokens2 start2 Hne Hw Hts Heol).
  - destruct (start_extended start (String ch "") rest Hp)
      as (w & Heq & Hne & Hw); [discriminate| |].
    { cbn [word_text]. unfold is_separator. rewrite Hq, Hsep, Hb. reflexivity. }
    cbn [append] in Heq. rewrite Heq in Hstep.
    destruct (end_of_line tokens _ rest) as [tokens2 start2] eqn:Heol.
    injection Hstep as <- <- <-.
    exact (end_of_line_shape tokens w rest tokens2 start2 Hne Hw Hts Heol).
Qed.

Lemma tokenize_from_shape : forall n input start tokens result,
  (String.length input <= n)%nat ->
  pending_ok input start -> Forall token_shape tokens ->
  tokenize_from input start tokens = Tokens result ->
  Forall token_shape result.
Proof.
  induction n as [|n IH]; intros input start tokens result Hlen Hp Hts Hrun;
    rewrite tokenize_from_step in Hrun;
    destruct (tokenize_step input start tokens) as [r|input' start' tokens'] eqn:Hstep.
  - destruct input; [|simpl in Hlen; lia].
    injection Hstep as <-. injection Hrun as <-. assumption.
  - apply tokenize_step_shorter in Hstep. lia.
  - destruct input as [|ch rest].
    + injection Hstep as <-. injection Hrun as <-. assumption.
    + subst r. exfalso. exact (tokenize_step_not_tokens _ _ _ _ _ Hstep).
  - destruct (tokenize_step_shape _ _ _ _ _ _ Hstep Hp Hts) as [Hp' Hts'].
    apply tokenize_step_shorter in Hstep.
    apply (IH input' start' tokens' result); [lia|assumption..].
Qed.

(** X14.  Every token the tokenizer returns has the shape of its type: a
    Word carries a non-empty text in which a double quote or a separator
    occurs only after a backslash and every backslash is followed by a
    character of the escape set; a QuotedWord carries its text with both
    quotes and no quote in between; an operator carries no text; and no
    token has the type [TOK_END]. *)
Theorem tokens_have_shape input tokens :
  TOK_tokenize_input input = Tokens tokens ->
  Forall token_shape tokens /\ Parser.materialized tokens.
Proof.
  intros Hrun.
  assert (Hshape : Forall token_shape tokens).
  { apply (tokenize_from_shape (String.length input) input None [] tokens);
      [lia|exact I|constructor|exact Hrun]. }
  split; [exact Hshape|].
  unfold Parser.materialized. apply (Forall_impl _ (P := token_shape)); [|exact Hshape].
  intros t Ht Hend. unfold token_shape in Ht. rewrite Hend in Ht. exact Ht.
Qed.

Lemma tokens_have_shape_witness :
  Forall token_shape
    [word_token "cat"; TOK_op TOK_LESSTHAN; word_token "a\ b"; TOK_op TOK_PIPE;
     quoted_token (String dquote ("x y" ++ String dquote ""))].
Proof.
  apply (tokens_have_shape ("cat<a\ b|" ++ String dquote ("x y" ++ String dquote ""))).
  reflexivity.
Defined.

End TokenShapeProps.

(** ** Parser: outcomes, the shape of the tree, and what the executor gets *)

Module ParseTurnProps.
Import Pipeline Parser ParseTurn ParserProps.

Local Open Scope Z_scope.

Section WithGlob.

Variable glob : string -> Z * list string.

Lemma glob_append_eq pipeline value :
  glob_append glob pipeline value
  = if negb (fst (glob value) =? 0) then (pipeline, fst (glob value))
    else (append_paths pipeline (snd (glob value)), 0).
Proof. unfold glob_append. destruct (glob value). reflexivity. Qed.

Lemma TokenType_eqb_neq a b : TokenType_eqb a b = false -> a <> b.
Proof. destruct a, b; simpl; congruence. Qed.

Lemma Parse_loop_turn_redirect token tokens1 ret rin rout :
  is_redirection (type token) = true ->
  exists t,
    turn glob token tokens1 ret rin rout t
    /\ Parse_loop glob (token :: tokens1) ret rin rout = resume glob ret t
    /\ forall tokens' ret' rin' rout',
         t = Goes tokens' ret' rin' rout' ->
         (List.length tokens' <= List.length tokens1)%nat.
Proof.
  intros Hr. rewrite (Parse_loop_redirect glob token tokens1 ret rin rout Hr).
  cbv zeta.
  set (rin' := rin + bool_to_int (TokenType_eqb (type token) TOK_LESSTHAN)).
  set (rout' := rout + bool_to_int (TokenType_eqb (type token) TOK_GREATERTHAN)).
  destruct ret as [|t v l r] eqn:Hret.
  { eexists. split; [apply turn_redirect_no_command; [assumption|reflexivity]|].
    split; [reflexivity|]. discriminate. }
  cbn [is_null AST_type]. rewrite <- Hret.
  destruct (is_redirect t) eqn:Ht.
  { eexists. split; [eapply turn_redirect_root; eauto|].
    split; [reflexivity|]. discriminate. }
  destruct ((1 <? rin') || (1 <? rout')) eqn:Hcnt.
  { eexists. split.
    - eapply turn_redirect_multiple; eauto.
      apply orb_true_iff in Hcnt as [H|H]; apply Z.ltb_lt in H; [left|right]; exact H.
    - split; [reflexivity|]. discriminate. }
  apply orb_false_iff in Hcnt as [Hc1 Hc2]. apply Z.ltb_ge in Hc1, Hc2.
  destruct (TokenType_eqb (TOK_next_type tokens1) TOK_WORD) eqn:Hw; cbn [negb].
  2:{ eexists. split;
        [eapply turn_redirect_no_file; eauto using TokenType_eqb_neq|].
      split; [reflexivity|]. discriminate. }
  destruct tokens1 as [|next tokens2]; [discriminate|].
  cbn [TOK_next_type] in Hw. pose proof (TokenType_eqb_eq _ _ Hw) as Hnext.
  cbn [redirect_target].
  destruct (value next) as [file|] eqn:Hv.
  2:{ eexists. split; [eapply turn_redirect_file_no_value; eauto|].
      split; [reflexivity|]. discriminate. }
  rewrite glob_append_eq. destruct (glob file) as [globexit pathv] eqn:Hg.
  cbn [fst snd].
  destruct (Z.eqb_spec globexit 0) as [->|Hge]; cbn [negb fst snd].
  2:{ rewrite (proj2 (Z.eqb_neq globexit 0) Hge). cbn [negb].
      eexists. split; [eapply turn_redirect_glob_error; eauto|].
      split; [reflexivity|]. discriminate. }
  assert (Hop : exists op, ASTNodeType_of_TokenType (type token) = Some op
                           /\ is_redirect op = true).
  { destruct (type token); try discriminate Hr; eexists; split; reflexivity. }
  destruct Hop as (op & Hop & Hopr). rewrite Hop.
  destruct pathv as [|path pathv].
  - cbn [append_paths]. unfold AST_redirect. rewrite Hopr.
    eexists. split; [eapply turn_redirect_no_path; eauto|].
    split; [reflexivity|]. discriminate.
  - destruct (append_paths_root pathv WORD (Some path) NULL NULL)
      as (r' & Hap).
    assert (Hap' : append_paths NULL (path :: pathv) = Node WORD (Some path) NULL r')
      by exact Hap.
    unfold AST_redirect. rewrite Hopr, Hap'.
    eexists. split; [eapply turn_redirect; eauto|].
    rewrite Hap'.
    split; [reflexivity|]. intros ? ? ? ? [= <- _ _ _]. simpl. lia.
Qed.

(** Every turn of the loop is one of the cases of [turn]. *)
Lemma Parse_loop_turn token tokens1 ret rin rout :
  exists t,
    turn glob token tokens1 ret rin rout t
    /\ Parse_loop glob (token :: tokens1) ret rin rout = resume glob ret t
    /\ forall tokens' ret' rin' rout',
         t = Goes tokens' ret' rin' rout' ->
         (List.length tokens' <= List.length tokens1)%nat.
Proof.
  destruct (type token) eqn:Htt.
  - (* TOK_WORD *)
    rewrite Parse_loop_word by assumption.
    destruct (value token) as [v|] eqn:Hv.
    + rewrite glob_append_eq. destruct (glob v) as [globexit pathv] eqn:Hg.
      cbn [fst snd]. destruct (Z.eqb_spec globexit 0) as [->|Hne]; cbn [negb fst snd].
      * eexists. split; [eapply turn_word; eassumption|].
        split; [reflexivity|]. intros ? ? ? ? [= <- _ _ _]. lia.
      * rewrite (proj2 (Z.eqb_neq globexit 0) Hne). cbn [negb].
        eexists. split; [eapply turn_word_glob_error; eassumption|].
        split; [reflexivity|]. discriminate.
    + eexists. split; [apply turn_no_value; [right|]; assumption|].
      split; [reflexivity|]. discriminate.
  - (* TOK_QUOTED_WORD *)
    rewrite Parse_loop_quoted by assumption.
    destruct (value token) as [v|] eqn:Hv.
    + eexists. split; [eapply turn_quoted; eassumption|].
      split; [reflexivity|]. intros ? ? ? ? [= <- _ _ _]. lia.
    + eexists. split; [apply turn_no_value; [left|]; assumption|].
      split; [reflexivity|]. discriminate.
  - (* TOK_LESSTHAN *)
    apply Parse_loop_turn_redirect. rewrite Htt. reflexivity.
  - apply Parse_loop_turn_redirect. rewrite Htt. reflexivity.
  - (* TOK_PIPE *)
    rewrite Parse_loop_pipe by assumption.
    destruct ret as [|t v l r] eqn:Hret.
    { eexists. split; [apply turn_pipe_no_command; [assumption|reflexivity]|].
      split; [reflexivity|]. discriminate. }
    cbn [is_null]. rewrite <- Hret.
    assert (Hne : ret <> NULL) by (rewrite Hret; discriminate).
    destruct (TokenType_eqb (TOK_next_type tokens1) TOK_WORD) eqn:Hw;
      cbn [negb andb].
    + destruct tokens1 as [|next tokens2]; [discriminate|].
      cbn [TOK_next_type] in Hw. pose proof (TokenType_eqb_eq _ _ Hw) as Hnext.
      cbn [pipe_command]. rewrite Hw.
      destruct (value next) as [v'|] eqn:Hv.
      * rewrite glob_append_eq. destruct (glob v') as [globexit pathv] eqn:Hg.
        cbn [fst snd].
        destruct (Z.eqb_spec globexit 0) as [->|Hge]; cbn [negb fst snd].
        -- destruct pathv as [|path pathv].
           ++ cbn [append_paths AST_pipe]. subst ret.
              eexists. split; [eapply turn_pipe_no_path; eauto; discriminate|].
              split; [reflexivity|]. discriminate.
           ++ assert (Hnn : append_paths NULL (path :: pathv) <> NULL).
              { cbn [append_paths AST_append].
                apply append_paths_not_null. discriminate. }
              destruct (append_paths NULL (path :: pathv)) as [|t2 v2 l2 r2] eqn:Hap;
                [congruence|].
              subst ret. cbn [AST_pipe].
              eexists. split; [eapply turn_pipe_word; eauto; discriminate|].
              rewrite Hap.
              split; [reflexivity|]. intros ? ? ? ? [= <- _ _ _]. simpl. lia.
        -- rewrite (proj2 (Z.eqb_neq globexit 0) Hge). cbn [negb].
           eexists. split; [eapply turn_pipe_glob_error; eauto|].
           split; [reflexivity|]. discriminate.
      * eexists. split; [eapply turn_pipe_no_value; eauto|].
        split; [reflexivity|]. discriminate.
    + destruct (TokenType_eqb (TOK_next_type tokens1) TOK_QUOTED_WORD) eqn:Hq;
        cbn [negb].
      * destruct tokens1 as [|next tokens2]; [discriminate|].
        cbn [TOK_next_type] in Hw, Hq.
        pose proof (TokenType_eqb_eq _ _ Hq) as Hnext.
        cbn [pipe_command]. rewrite Hw.
        destruct (value next) as [v'|] eqn:Hv.
        -- cbn [fst snd Z.eqb negb]. subst ret. cbn [AST_pipe].
           eexists. split; [eapply turn_pipe_quoted; eauto; discriminate|].
           split; [reflexivity|]. intros ? ? ? ? [= <- _ _ _]. simpl. lia.
        -- eexists. split; [eapply turn_pipe_no_value; eauto|].
           split; [reflexivity|]. discriminate.
      * eexists. split;
          [apply turn_pipe_no_right; auto using TokenType_eqb_neq|].
        split; [reflexivity|]. discriminate.
  - (* TOK_END *)
    eexists. split; [apply turn_end; assumption|].
    split; [cbn [Parse_loop]; rewrite Htt; reflexivity|]. discriminate.
Qed.

(** *** Outcomes *)

Lemma Parse_loop_errors : forall n tokens ret rin rout a msg,
  (List.length tokens <= n)%nat ->
  Parse_loop glob tokens ret rin rout = Returns a msg ->
  msg = ""%string \/ (a = NULL /\ In msg parse_errors).
Proof.
  induction n as [|n IH]; intros tokens ret rin rout a msg Hlen Hrun;
    (destruct tokens as [|token tokens1];
     [injection Hrun as <- <-; left; reflexivity|]);
    [simpl in Hlen; lia|].
  simpl in Hlen.
  destruct (Parse_loop_turn token tokens1 ret rin rout) as (t & Hturn & Heq & Hshort).
  rewrite Heq in Hrun.
  inversion Hturn; subst; cbn [resume] in Hrun; try discriminate Hrun;
    try (injection Hrun as <- <-;
         first [left; reflexivity | right; split; [reflexivity|simpl; tauto]]);
    try (eapply IH; [|exact Hrun]; specialize (Hshort _ _ _ _ eq_refl); lia).
Qed.

(** X15.  [Parse] returns a tree only together with an empty message: when
    it leaves a message in [errmsg] it returns NULL, and the message is one
    of four (never the one for an unexpected token). *)
Theorem Parse_error_returns_NULL tokens a msg :
  Parse glob tokens = Returns a msg ->
  msg = ""%string \/ (a = NULL /\ In msg parse_errors).
Proof.
  intros Hrun.
  exact (Parse_loop_errors (List.length tokens) tokens NULL 0 0 a msg
           (le_n _) Hrun).
Qed.

(** *** No failed assertion *)

Lemma Parse_loop_no_abort : forall n tokens ret rin rout,
  (List.length tokens <= n)%nat ->
  glob_yields_paths glob ->
  Forall TokenShape.token_shape tokens ->
  Parse_loop glob tokens ret rin rout <> Aborts.
Proof.
  induction n as [|n IH]; intros tokens ret rin rout Hlen Hglob Hshape;
    (destruct tokens as [|token tokens1]; [discriminate|]);
    [simpl in Hlen; lia|].
  simpl in Hlen. inversion Hshape as [|? ? Htok Hshape1]; subst.
  destruct (Parse_loop_turn token tokens1 ret rin rout) as (t & Hturn & Heq & Hshort).
  rewrite Heq.
  assert (Hval : forall tk, TokenShape.token_shape tk ->
            type tk = TOK_QUOTED_WORD \/ type tk = TOK_WORD ->
            value tk <> None).
  { intros tk Hs [Hty|Hty]; unfold TokenShape.token_shape in Hs; rewrite Hty in Hs.
    - destruct Hs as (body & -> & _). discriminate.
    - destruct Hs as (w & -> & _). discriminate. }
  inversion Hturn; subst; cbn [resume]; try discriminate;
    try (apply IH;
         [simpl in Hlen |- *; lia
         |assumption
         |first [exact Hshape1 | exact (Forall_inv_tail Hshape1)]]);
    exfalso;
    match goal with
    | H : glob _ = (0, []) |- _ => exact (Hglob _ _ H eq_refl)
    | H : value token = None |- _ =>
        apply (Hval token Htok); [tauto|exact H]
    | H : value ?next = None, HS : Forall _ (?next :: _) |- _ =>
        apply (Hval next (Forall_inv HS)); [tauto|exact H]
    end.
Qed.

(** X16.  When the pattern service yields at least one path on success, the
    tokens of any line that tokenizes are parsed without a failed
    assertion: [Parse] returns, with a tree or with a message. *)
Theorem Parse_of_tokenized_line_returns line tokens :
  glob_yields_paths glob ->
  Tokenize.TOK_tokenize_input line = Tokenize.Tokens tokens ->
  exists a msg, Parse glob tokens = Returns a msg.
Proof.
  intros Hglob Hline.
  assert (Hshape : Forall TokenShape.token_shape tokens).
  { apply (TokenShapeProps.tokenize_from_shape (String.length line) line None []
             tokens); [lia|exact I|constructor|exact Hline]. }
  pose proof (Parse_loop_no_abort (List.length tokens) tokens NULL 0 0
                (le_n _) Hglob Hshape) as Hno.
  unfold Parse. destruct (Parse_loop glob tokens NULL 0 0) as [a msg|];
    [eauto|congruence].
Qed.

(** *** Pipes and commands *)

Lemma countpipes_AST_append pipeline t v l r :
  t <> OP_PIPE ->
  AST_countpipes (AST_append pipeline (Node t v l r)) = AST_countpipes pipeline.
Proof.
  intros Ht. destruct pipeline as [|t' v' l' [|]]; cbn [AST_append].
  - destruct t; try reflexivity. congruence.
  - destruct t'; reflexivity.
  - destruct t'; reflexivity.
Qed.

Lemma countpipes_append_paths : forall pathv pipeline,
  AST_countpipes (append_paths pipeline pathv) = AST_countpipes pipeline.
Proof.
  induction pathv as [|path pathv IH]; intros pipeline; cbn [append_paths];
    [reflexivity|].
  rewrite IH. apply countpipes_AST_append. discriminate.
Qed.

Lemma Parse_loop_countpipes : forall n tokens ret rin rout a,
  (List.length tokens <= n)%nat ->
  materialized tokens ->
  Parse_loop glob tokens ret rin rout = Returns a "" ->
  AST_countpipes a = (AST_countpipes ret + count_tokens TOK_PIPE tokens)%nat.
Proof.
  induction n as [|n IH]; intros tokens ret rin rout a Hlen Hmat Hrun;
    (destruct tokens as [|token tokens1];
     [injection Hrun as <-; unfold count_tokens; simpl; lia|]);
    [simpl in Hlen; lia|].
  simpl in Hlen. inversion Hmat as [|? ? Htok Hmat1]; subst.
  destruct (Parse_loop_turn token tokens1 ret rin rout) as (t & Hturn & Heq & Hshort).
  rewrite Heq in Hrun. rewrite count_tokens_cons.
  inversion Hturn; subst; cbn [resume] in Hrun; try discriminate Hrun;
    try congruence;
    try (inversion Hmat1 as [|? ? Hnext Hmat2]; subst; rewrite count_tokens_cons);
    match goal with
    | H : Parse_loop _ _ _ _ _ = _ |- _ =>
        apply IH in H; [|simpl in Hlen |- *; lia|assumption]; rewrite H
    end;
    repeat match goal with
    | H : type _ = _ |- _ => rewrite H
    end;
    cbn [TokenType_eqb AST_countpipes];
    rewrite ?countpipes_AST_append, ?countpipes_append_paths by discriminate;
    try lia.
  - destruct (type token); try discriminate; cbn [TokenType_eqb];
      rewrite countpipes_AST_append; try lia;
      destruct op; try discriminate; cbn in *; congruence.
Qed.

(** X17.  A successful [Parse] of a stream without stored [TOK_END] tokens
    yields a tree with one command more than the stream has pipe tokens:
    [AST_countcommands], the number of children [AST_execute] prepares, is
    the number of pipe tokens plus one. *)
Theorem Parse_counts_commands tokens a :
  materialized tokens ->
  Parse glob tokens = Returns a "" ->
  AST_countcommands a = (1 + count_tokens TOK_PIPE tokens)%nat.
Proof.
  intros Hmat Hrun. unfold AST_countcommands.
  rewrite (Parse_loop_countpipes (List.length tokens) tokens NULL 0 0 a
             (le_n _) Hmat Hrun).
  reflexivity.
Qed.

(** *** The shape of the tree *)

Lemma arguments_set_last_right : forall temp right,
  arguments temp = true -> arguments right = true ->
  arguments (set_last_right temp right) = true.
Proof.
  induction temp as [|t v l _ r IHr]; intros right Ht Hr; [reflexivity|].
  cbn [arguments] in Ht. apply andb_prop in Ht as [Ht Hrest].
  destruct r as [|t' v' l' r'].
  - cbn [set_last_right arguments]. rewrite Ht. exact Hr.
  - change (set_last_right (Node t v l (Node t' v' l' r')) right)
      with (Node t v l (set_last_right (Node t' v' l' r') right)).
    cbn [arguments]. rewrite Ht. cbn [andb]. now apply IHr.
Qed.

Lemma arguments_AST_append c node :
  arguments c = true -> arguments node = true ->
  arguments (AST_append c node) = true.
Proof.
  intros Hc Hn. destruct node as [|tn vn ln rn]; [exact Hc|].
  destruct c as [|t v l r]; [exact Hn|].
  cbn [arguments] in Hc. apply andb_prop in Hc as [Ht Hr].
  destruct r as [|t' v' l' r'].
  - cbn [AST_append arguments]. rewrite Ht. exact Hn.
  - cbn [AST_append]. cbn [arguments]. rewrite Ht. cbn [andb].
    now apply arguments_set_last_right.
Qed.

Lemma command_AST_append c node :
  command c = true -> arguments node = true ->
  command (AST_append c node) = true.
Proof.
  intros Hc Hn. destruct node as [|tn vn ln rn]; [exact Hc|].
  destruct c as [|t [s|] l r]; try discriminate.
  cbn [command] in Hc. apply andb_prop in Hc as [Ht Hr].
  destruct r as [|t' v' l' r'].
  - cbn [AST_append command]. rewrite Ht. exact Hn.
  - cbn [AST_append command]. rewrite Ht. cbn [andb].
    now apply arguments_set_last_right.
Qed.

Lemma command_not_pipe c : command c = true -> pipeline_tree c = true.
Proof.
  destruct c as [|t [s|] l r]; try discriminate. cbn [command].
  intros Hc. apply andb_prop in Hc as [Ht Hr].
  destruct t; try discriminate; cbn [pipeline_tree command isword];
    cbn [ASTNodeType_eqb orb andb]; exact Hr.
Qed.

Lemma pipeline_tree_AST_append p node :
  pipeline_tree p = true -> arguments node = true ->
  pipeline_tree (AST_append p node) = true.
Proof.
  intros Hp Hn. destruct node as [|tn vn ln rn] eqn:Hnode; [exact Hp|].
  rewrite <- Hnode in *.
  assert (Hnn : node <> NULL) by (rewrite Hnode; discriminate).
  destruct p as [|t v l r]; [discriminate|].
  destruct (ASTNodeType_eqb t OP_PIPE) eqn:Hpipe.
  - destruct t; try discriminate. cbn [pipeline_tree] in Hp.
    apply andb_prop in Hp as [Hl Hr].
    pose proof (command_AST_append r node Hr Hn) as Happ.
    destruct r as [|t' v' l' r']; [discriminate|].
    rewrite Hnode in *. cbn [AST_append] in *.
    destruct r' as [|t2 v2 l2 r2]; cbn [pipeline_tree]; rewrite Hl; exact Happ.
  - assert (Hc : command (Node t v l r) = true)
      by (destruct t; try discriminate; exact Hp).
    apply command_not_pipe. now apply command_AST_append.
Qed.

Lemma word_node_ok t s :
  isword t = true ->
  command (Node t (Some s) NULL NULL) = true
  /\ arguments (Node t (Some s) NULL NULL) = true.
Proof.
  intros Ht. cbn [command arguments]. rewrite Ht.
  destruct t; try discriminate; split; reflexivity.
Qed.

Lemma tree_ok_AST_append_word ret t s :
  isword t = true -> tree_ok ret ->
  pipeline_tree (AST_append ret (Node t (Some s) NULL NULL)) = true.
Proof.
  intros Ht [->|Hret]; destruct (word_node_ok t s Ht) as [Hc Ha].
  - cbn [AST_append]. now apply command_not_pipe.
  - now apply pipeline_tree_AST_append.
Qed.

Lemma tree_ok_append_paths : forall pathv ret,
  tree_ok ret -> tree_ok (append_paths ret pathv).
Proof.
  induction pathv as [|path pathv IH]; intros ret Hret; cbn [append_paths];
    [assumption|].
  apply IH. right. now apply tree_ok_AST_append_word.
Qed.

Lemma arguments_append_paths : forall pathv c,
  arguments c = true -> arguments (append_paths c pathv) = true.
Proof.
  induction pathv as [|path pathv IH]; intros c Hc; cbn [append_paths];
    [assumption|].
  apply IH. apply arguments_AST_append; [assumption|reflexivity].
Qed.

Lemma command_append_paths path pathv :
  command (append_paths NULL (path :: pathv)) = true.
Proof.
  cbn [append_paths AST_append].
  assert (H : forall pathv c, command c = true ->
            command (append_paths c pathv) = true).
  { clear. induction pathv as [|p pathv IH]; intros c Hc; cbn [append_paths];
      [assumption|].
    apply IH. apply command_AST_append; [assumption|reflexivity]. }
  apply H. reflexivity.
Qed.

Lemma Parse_loop_tree : forall n tokens ret rin rout a msg,
  (List.length tokens <= n)%nat ->
  tree_ok ret ->
  Parse_loop glob tokens ret rin rout = Returns a msg ->
  tree_ok a.
Proof.
  induction n as [|n IH]; intros tokens ret rin rout a msg Hlen Hret Hrun;
    (destruct tokens as [|token tokens1];
     [injection Hrun as <- _; assumption|]);
    [simpl in Hlen; lia|].
  simpl in Hlen.
  destruct (Parse_loop_turn token tokens1 ret rin rout) as (t & Hturn & Heq & Hshort).
  rewrite Heq in Hrun.
  inversion Hturn; subst; cbn [resume] in Hrun; try discriminate Hrun;
    try (injection Hrun as <- _; first [assumption | left; reflexivity]);
    (eapply IH; [|
       |exact Hrun]; [specialize (Hshort _ _ _ _ eq_refl); lia|]).
  - right. now apply tree_ok_AST_append_word.
  - now apply tree_ok_append_paths.
  - right. destruct Hret as [Hnull|Hret]; [discriminate|].
    apply pipeline_tree_AST_append; [assumption|].
    cbn [arguments].
    assert (Hop : ASTNodeType_eqb op OP_PIPE = false /\ isword op = false).
    { destruct (type token); try discriminate;
        match goal with
        | H : ASTNodeType_of_TokenType _ = Some _ |- _ => injection H as <-
        end; split; reflexivity. }
    destruct Hop as [-> ->]. cbn [negb andb].
    apply arguments_append_paths. reflexivity.
  - right. destruct Hret as [Hnull|Hret]; [congruence|].
    cbn [pipeline_tree]. rewrite Hret. reflexivity.
  - right. destruct Hret as [Hnull|Hret]; [congruence|].
    cbn [pipeline_tree]. rewrite Hret. apply command_append_paths.
Qed.

(** *** What the executor receives *)

Import Execute.

Lemma chain_entries_arguments : forall r,
  arguments r = true -> exists words, chain_entries r = map Some words.
Proof.
  induction r as [|t v l _ r IHr]; intros Hr.
  - exists []. reflexivity.
  - cbn [arguments] in Hr. apply andb_prop in Hr as [Ht Hrest].
    apply andb_prop in Ht as [Hnp Hv].
    destruct (IHr Hrest) as [words Hwords].
    cbn [chain_entries]. rewrite Hwords.
    destruct t; try discriminate; cbn [isword ASTNodeType_eqb orb] in *.
    + destruct v as [s|]; [|discriminate]. exists (s :: words). reflexivity.
    + destruct v as [s|]; [|discriminate]. exists (s :: words). reflexivity.
    + exists ("<"%string :: words). reflexivity.
    + exists (">"%string :: words). reflexivity.
Qed.

Lemma chain_argv_command c : command c = true -> proper_argv (chain_argv c).
Proof.
  destruct c as [|t [s|] l r]; try discriminate. cbn [command].
  intros Hc. apply andb_prop in Hc as [Ht Hr].
  destruct (chain_entries_arguments r Hr) as [words Hwords].
  exists s, words. unfold chain_argv. cbn [chain_entries].
  rewrite Ht, Hwords. reflexivity.
Qed.

Lemma setargs_pipeline_tree : forall a,
  pipeline_tree a = true ->
  Forall proper_argv (setargs a)
  /\ List.length (setargs a) = AST_countcommands a.
Proof.
  unfold AST_countcommands.
  induction a as [|t v l IHl r _]; intros Ha; [discriminate|].
  destruct (ASTNodeType_eqb t OP_PIPE) eqn:Hpipe.
  - destruct t; try discriminate. cbn [pipeline_tree] in Ha.
    apply andb_prop in Ha as [Hl Hr]. destruct (IHl Hl) as [Hall Hlen].
    cbn [setargs ASTNodeType_eqb AST_countpipes]. split.
    + apply Forall_app. split; [assumption|].
      constructor; [now apply chain_argv_command|constructor].
    + rewrite length_app, Hlen. simpl. lia.
  - assert (Hc : command (Node t v l r) = true)
      by (destruct t; try discriminate; exact Ha).
    cbn [setargs]. rewrite Hpipe. split.
    + constructor; [now apply chain_argv_command|constructor].
    + destruct t; try discriminate; reflexivity.
Qed.

Lemma create_pipes_not_crashed os : forall count i sh,
  create_pipes os i count sh <> inr Crashed.
Proof.
  induction count as [|count IH]; intros i sh; cbn [create_pipes];
    [discriminate|].
  destruct (sys_pipe os i); [apply IH|discriminate].
Qed.

Lemma spawn_not_crashed os : forall argvs i sh,
  Forall proper_argv argvs ->
  spawn os i (map Some argvs) sh <> inr Crashed.
Proof.
  induction argvs as [|argv argvs IH]; intros i sh Hall; cbn [map spawn];
    [discriminate|].
  inversion Hall as [|? ? (name & words & ->) Hrest]; subst.
  cbn [arg nth].
  destruct (String.eqb name "exit" || String.eqb name "quit"); [discriminate|].
  destruct (String.eqb name "cd"); [now apply IH|].
  destruct (sys_fork os i =? -1); [discriminate|].
  destruct (sys_fork os i =? 0); [discriminate|].
  now apply IH.
Qed.

(** X18.  A tree that [Parse] returns is a pipeline of commands, so
    [setargs] fills every slot of [argvs] with a proper argument array (a
    command name, further entries, one NULL at the end), as many as
    [AST_countcommands] counts, and [AST_execute] never reads an unset slot
    or a NULL command name, whatever the operating system answers. *)
Theorem parsed_pipeline_is_executable tokens a msg :
  Parse glob tokens = Returns a msg ->
  a <> NULL ->
  argvs_of a (AST_countcommands a) = map Some (setargs a)
  /\ Forall proper_argv (setargs a)
  /\ forall os sh, AST_execute os a sh <> Crashed.
Proof.
  intros Hrun Hne.
  destruct (Parse_loop_tree (List.length tokens) tokens NULL 0 0 a msg
              (le_n _) (or_introl eq_refl) Hrun) as [Hnull|Htree];
    [contradiction|].
  destruct (setargs_pipeline_tree a Htree) as [Hall Hlen].
  assert (Hargvs : argvs_of a (AST_countcommands a) = map Some (setargs a)).
  { unfold argvs_of. rewrite Hlen, Nat.sub_diag. reflexivity. }
  split; [exact Hargvs|]. split; [exact Hall|].
  intros os sh. unfold AST_execute.
  change (AST_countpipes a + 1)%nat with (AST_countpipes a + 1)%nat.
  replace (AST_countpipes a + 1)%nat with (AST_countcommands a)
    by (unfold AST_countcommands; lia).
  rewrite Hargvs.
  pose proof (create_pipes_not_crashed os (AST_countpipes a) 0 sh) as Hpipes.
  destruct (create_pipes os 0 (AST_countpipes a) sh) as [sh1|o];
    [|congruence].
  pose proof (spawn_not_crashed os (setargs a) 0 sh1 Hall) as Hspawn.
  destruct (spawn os 0 (map Some (setargs a)) sh1) as [sh2|o]; [|congruence].
  destruct (wait_children os 0 (AST_countcommands a) 0 _). discriminate.
Qed.

End WithGlob.

Lemma Parse_error_returns_NULL_witness :
  "Multiple redirection"%string = ""%string
  \/ (NULL = NULL /\ In "Multiple redirection"%string parse_errors).
Proof.
  exact (Parse_error_returns_NULL glob_nocheck
           [tok_word "ls"; tok_less; tok_word "a"; tok_less; tok_word "b"]
           NULL "Multiple redirection" eq_refl).
Defined.

Lemma glob_nocheck_yields_paths : glob_yields_paths glob_nocheck.
Proof. intros pattern pathv [= <-]. discriminate. Defined.

Lemma Parse_of_tokenized_line_returns_witness :
  exists a msg,
    Parse glob_nocheck [tok_word "ls"; tok_pipe; tok_word "wc"; tok_greater]
    = Returns a msg.
Proof.
  exact (Parse_of_tokenized_line_returns glob_nocheck "ls | wc >"
           [tok_word "ls"; tok_pipe; tok_word "wc"; tok_greater]
           glob_nocheck_yields_paths eq_refl).
Defined.

Lemma Parse_counts_commands_witness :
  AST_countcommands Execute.pipeline_example = 3%nat.
Proof.
  apply (Parse_counts_commands glob_nocheck
           [tok_word "cat"; tok_word "notes"; tok_pipe; tok_word "grep";
            tok_word "x"; tok_pipe; tok_word "wc"]).
  - repeat constructor; discriminate.
  - reflexivity.
Defined.

Lemma parsed_pipeline_is_executable_witness :
  Execute.argvs_of Execute.pipeline_example 3
  = [Some [Some "cat"; Some "notes"; None]; Some [Some "grep"; Some "x"; None];
     Some [Some "wc"; None]]%string
  /\ forall os sh, Execute.AST_execute os Execute.pipeline_example sh
                   <> Execute.Crashed.
Proof.
  destruct (parsed_pipeline_is_executable glob_nocheck
              [tok_word "cat"; tok_word "notes"; tok_pipe; tok_word "grep";
               tok_word "x"; tok_pipe; tok_word "wc"]
              Execute.pipeline_example "" eq_refl ltac:(discriminate))
    as (Hargvs & _ & Hrun).
  split; [exact Hargvs | exact Hrun].
Defined.

End ParseTurnProps.

(** ** Pipeline trees: appending *)

Module PipelineProps.
Import Pipeline.

Lemma countnodes_set_last_right : forall temp right,
  temp <> NULL ->
  AST_countnodes (set_last_right temp right)
  = (AST_countnodes temp + AST_countnodes right)%nat.
Proof.
  induction temp as [|t v l _ r IHr]; intros right Hne; [congruence|].
  destruct r as [|t' v' l' r'].
  - cbn [set_last_right AST_countnodes]. lia.
  - change (set_last_right (Node t v l (Node t' v' l' r')) right)
      with (Node t v l (set_last_right (Node t' v' l' r') right)).
    cbn [AST_countnodes]. rewrite IHr by discriminate.
    cbn [AST_countnodes]. lia.
Qed.

Lemma AST_append_set_last_right pipeline right :
  pipeline <> NULL -> right <> NULL ->
  AST_append pipeline right = set_last_right pipeline right.
Proof.
  intros Hp Hr. destruct right; [congruence|].
  destruct pipeline as [|t v l [|]]; [congruence|reflexivity|reflexivity].
Qed.

Lemma set_last_right_not_null temp right :
  temp <> NULL -> set_last_right temp right <> NULL.
Proof. destruct temp as [|t v l [|]]; simpl; congruence. Qed.

Lemma set_last_right_assoc : forall p a b,
  a <> NULL ->
  set_last_right (set_last_right p a) b
  = set_last_right p (set_last_right a b).
Proof.
  induction p as [|t v l _ r IHr]; intros a b Ha; [reflexivity|].
  destruct r as [|t' v' l' r'].
  - cbn [set_last_right]. destruct a as [|ta va la ra]; [congruence|].
    pose proof (set_last_right_not_null (Node ta va la ra) b ltac:(discriminate)).
    destruct (set_last_right (Node ta va la ra) b) eqn:Hs; [congruence|].
    rewrite <- Hs. destruct ra; reflexivity.
  - change (set_last_right (Node t v l (Node t' v' l' r')) a)
      with (Node t v l (set_last_right (Node t' v' l' r') a)).
    pose proof (set_last_right_not_null (Node t' v' l' r') a ltac:(discriminate)).
    destruct (set_last_right (Node t' v' l' r') a) eqn:Hs; [congruence|].
    rewrite <- Hs.
    change (set_last_right (Node t v l (Node t' v' l' r')) (set_last_right a b))
      with (Node t v l (set_last_right (Node t' v' l' r') (set_last_right a b))).
    rewrite <- IHr by assumption. rewrite Hs. reflexivity.
Qed.

(** X19.  [AST_append] adds the nodes of [right] after the last node of the
    chain that starts at the root: the node count is the sum of both
    counts, the root and the number of pipes of a pipeline that is not NULL
    stay what they were, and appending in two steps or at once gives the
    same tree. *)
Theorem AST_append_adds_at_end pipeline right more :
  AST_countnodes (AST_append pipeline right)
  = (AST_countnodes pipeline + AST_countnodes right)%nat
  /\ AST_countpipes (AST_append pipeline right)
     = match pipeline with
       | NULL => AST_countpipes right
       | Node _ _ _ _ => AST_countpipes pipeline
       end
  /\ AST_append (AST_append pipeline right) more
     = AST_append pipeline (AST_append right more).
Proof.
  split; [|split].
  - destruct right as [|tr vr lr rr] eqn:Hr; [cbn; lia|].
    destruct pipeline as [|t v l r] eqn:Hp; [reflexivity|].
    rewrite <- Hr, <- Hp.
    rewrite AST_append_set_last_right by (subst; discriminate).
    apply countnodes_set_last_right. subst; discriminate.
  - destruct right as [|tr vr lr rr]; [destruct pipeline; reflexivity|].
    destruct pipeline as [|t v l [|]]; [reflexivity| |];
      destruct t; reflexivity.
  - destruct more as [|tm vm lm rm] eqn:Hm.
    { destruct right; destruct pipeline as [|? ? ? [|]]; reflexivity. }
    destruct right as [|tr vr lr rr] eqn:Hr; [reflexivity|].
    destruct pipeline as [|t v l r] eqn:Hp.
    { change (AST_append NULL (Node tr vr lr rr)) with (Node tr vr lr rr).
      destruct (AST_append (Node tr vr lr rr) (Node tm vm lm rm)); reflexivity. }
    rewrite <- Hm, <- Hr, <- Hp.
    assert (Hp' : pipeline <> NULL) by (subst; discriminate).
    assert (Hr' : right <> NULL) by (subst; discriminate).
    assert (Hm' : more <> NULL) by (subst; discriminate).
    rewrite (AST_append_set_last_right pipeline right) by assumption.
    rewrite (AST_append_set_last_right right more) by assumption.
    rewrite !AST_append_set_last_right
      by (try apply set_last_right_not_null; assumption).
    apply set_last_right_assoc. assumption.
Qed.

End PipelineProps.

(** ** Rendering any pipeline: whole, or cut and marked *)

Module RenderTextProps.
Import Pipeline Render RenderText RenderProps.

Local Open Scope Z_scope.

Lemma bind_Done {A B} (m : MemResult A) (k : A -> MemResult B) a :
  m = Done a -> bind m k = k a.
Proof. intros ->. reflexivity. Qed.

Lemma print_all_app N : forall segs1 segs2 st,
  print_all N (segs1 ++ segs2) st
  = bind (print_all N segs1 st) (print_all N segs2).
Proof.
  induction segs1 as [|s segs1 IH]; intros segs2 st; cbn [app print_all bind];
    [reflexivity|].
  destruct (print_one N s st) as [st1| | | |]; cbn [bind]; try reflexivity.
  apply IH.
Qed.

Lemma snprintf_ret buf off n s : 0 <= snd (snprintf buf off n s).
Proof. unfold snprintf. destruct (n =? 0); cbn [snd]; lia. Qed.

Lemma print_one_size N s st st' :
  snd st <= N -> print_one N s st = Done st' -> snd st <= snd st' <= N.
Proof.
  intros Hsz. unfold print_one.
  destruct (Z.leb_spec N (snd st)).
  - intros [= <-]. lia.
  - destruct (fst (snprintf _ _ _ _)); cbn [bind]; try discriminate.
    intros [= <-]. cbn [snd].
    pose proof (snprintf_ret (fst st) (snd st) (N - snd st) s). lia.
Qed.

Lemma print_all_size N : forall segs st st',
  snd st <= N -> print_all N segs st = Done st' -> snd st <= snd st' <= N.
Proof.
  induction segs as [|s segs IH]; intros st st' Hsz; cbn [print_all].
  - intros [= <-]. lia.
  - destruct (print_one N s st) as [st1| | | |] eqn:Hone; cbn [bind];
      try discriminate.
    intros Hall. pose proof (print_one_size N s st st1 Hsz Hone).
    pose proof (IH st1 st' ltac:(lia) Hall). lia.
Qed.

Lemma print_all_full N : forall segs st,
  N <= snd st -> print_all N segs st = Done st.
Proof.
  induction segs as [|s segs IH]; intros st Hfull; cbn [print_all];
    [reflexivity|].
  unfold print_one. destruct (Z.leb_spec N (snd st)); [|lia].
  cbn [bind]. now apply IH.
Qed.

(** [AST_sprint] is the sequence of its [snprintf] calls. *)
Lemma AST_sprint_segments N : N < size_max ->
  forall a buf size,
  printable a = true -> 0 <= size <= N ->
  AST_sprint a buf N size = print_all N (segments a) (buf, size).
Proof.
  intros HN. induction a as [|t v l IHl r IHr]; intros buf size Hp Hsz;
    [reflexivity|].
  cbn [AST_sprint segments printable] in *.
  destruct (Z.leb_spec N size) as [Hfull|Hroom].
  { symmetry. apply print_all_full. cbn [snd]. lia. }
  destruct (ASTNodeType_eqb t OP_PIPE).
  - apply andb_prop in Hp as [Hl Hr].
    rewrite print_all_app, (IHl buf size Hl Hsz).
    destruct (print_all N (segments l) (buf, size)) as [[buf1 size1]| | | |] eqn:Hleft;
      cbn [bind]; try reflexivity.
    pose proof (print_all_size N (segments l) (buf, size) (buf1, size1)
                  ltac:(cbn [snd]; lia) Hleft) as Hs1.
    cbn [snd] in Hs1. cbn [print_all]. unfold print_one. cbn [fst snd].
    rewrite (usize_small (N - size1)) by lia.
    destruct (snprintf buf1 size1 (N - size1) "| ") as [w n] eqn:Hsn.
    cbn [fst snd].
    destruct (Z.leb_spec N size1) as [Hfull1|Hroom1].
    + assert (size1 = N) by lia. subst size1.
      unfold snprintf in Hsn. rewrite Z.sub_diag in *. cbn [Z.eqb] in Hsn.
      injection Hsn as <- <-. cbn [bind].
      change (Z.min 0 2) with 0. rewrite Z.add_0_r.
      rewrite usize_small by lia.
      apply IHr; [assumption|lia].
    + destruct w as [buf2| | | |]; cbn [bind]; try reflexivity.
      pose proof (snprintf_ret buf1 size1 (N - size1) "| ") as Hn.
      rewrite Hsn in Hn. cbn [snd] in Hn.
      rewrite usize_small by lia.
      apply IHr; [assumption|lia].
  - destruct (node_text t v) as [text|]; [|discriminate].
    cbn [andb] in Hp. cbn [app print_all]. unfold print_one. cbn [fst snd].
    destruct (Z.leb_spec N size); [lia|].
    rewrite (usize_small (N - size)) by lia.
    destruct (snprintf buf size (N - size) text) as [w n] eqn:Hsn.
    cbn [fst snd].
    destruct w as [buf1| | | |]; cbn [bind]; try reflexivity.
    pose proof (snprintf_ret buf size (N - size) text) as Hn.
    rewrite Hsn in Hn. cbn [snd] in Hn.
    rewrite usize_small by lia.
    apply IHr; [assumption|lia].
Qed.

(** [snprintf] when the text does not fit in the [n] bytes left: [n - 1]
    characters and a NUL. *)
Lemma snprintf_truncates (pre free : buffer) s :
  free <> [] -> (List.length free <= List.length (chars s))%nat ->
  snprintf (pre ++ free) (Z.of_nat (List.length pre))
    (Z.of_nat (List.length free)) s
  = (Done (pre ++ firstn (List.length free - 1) (chars s) ++ [NUL]),
     Z.of_nat (List.length (chars s))).
Proof.
  intros Hne Hlen. unfold snprintf. fold (chars s).
  destruct free as [|f free]; [congruence|].
  destruct (Z.eqb_spec (Z.of_nat (List.length (f :: free))) 0) as [Hz|_];
    [simpl in Hz; lia|].
  f_equal.
  replace (Z.to_nat (Z.of_nat (List.length (f :: free)) - 1))
    with (List.length (f :: free) - 1)%nat by lia.
  rewrite <- (app_nil_r (f :: free)) at 1.
  rewrite store_bytes_at.
  - now rewrite app_nil_r.
  - rewrite length_app, length_firstn. simpl List.length in *. lia.
Qed.

Lemma chars_not_nil s : s <> EmptyString -> (0 < List.length (chars s))%nat.
Proof. destruct s; [congruence|]. intros _. simpl. lia. Qed.

Lemma print_one_printed N T st s :
  (0 < N)%nat -> Z.of_nat N < size_max -> s <> EmptyString ->
  printed N T st ->
  exists st', print_one (Z.of_nat N) s st = Done st'
              /\ printed N (T ++ chars s) st'.
Proof.
  intros HN Hmax Hs [Hlen [(Hfit & Hsize & Hfirst & Hnul)|(Hfull & Hsize & Hbuf)]];
    destruct st as [buf size]; cbn [fst snd] in *; unfold print_one; cbn [fst snd].
  - (* room left *)
    subst size. destruct (Z.leb_spec (Z.of_nat N) (Z.of_nat (List.length T))); [lia|].
    pose proof (chars_not_nil s Hs) as Hpos.
    set (free := skipn (List.length T) buf).
    assert (Hsplit : buf = T ++ free).
    { unfold free. rewrite <- Hfirst at 1. symmetry. apply firstn_skipn. }
    assert (Hfree : List.length free = (N - List.length T)%nat).
    { unfold free. rewrite length_skipn. lia. }
    replace (Z.of_nat N - Z.of_nat (List.length T))
      with (Z.of_nat (List.length free)) by lia.
    rewrite Hsplit.
    destruct (Nat.leb_spec (List.length (chars s) + 1) (List.length free)) as [Hin|Hout].
    + rewrite snprintf_fits by assumption. cbn [fst snd bind].
      eexists. split; [reflexivity|]. split; cbn [fst snd].
      * rewrite !length_app. cbn [List.length]. rewrite length_skipn. lia.
      * left. rewrite !length_app. split; [lia|]. split; [lia|]. split.
        -- rewrite app_assoc.
           rewrite <- (length_app T (chars s)).
           rewrite firstn_app, firstn_all, Nat.sub_diag, firstn_O.
           apply app_nil_r.
        -- intros _. rewrite app_assoc, <- (length_app T (chars s)).
           apply nth_middle.
    + rewrite snprintf_truncates by (try (destruct free; [simpl in Hfree; lia|discriminate]); lia).
      cbn [fst snd bind].
      eexists. split; [reflexivity|]. split; cbn [fst snd].
      * rewrite !length_app, length_firstn. cbn [List.length]. lia.
      * right. rewrite length_app. split; [lia|]. split; [lia|].
        rewrite firstn_app. rewrite (firstn_all2 (n := N - 1) T) by lia.
        rewrite <- app_assoc. do 2 f_equal. f_equal. lia.
  - (* already full *)
    subst size. destruct (Z.leb_spec (Z.of_nat N) (Z.of_nat N)); [|lia].
    eexists. split; [reflexivity|]. split; [exact Hlen|]. right. cbn [fst snd].
    rewrite length_app. split; [lia|]. split; [reflexivity|].
    rewrite firstn_app.
    replace (N - 1 - List.length T)%nat with 0%nat by lia.
    rewrite firstn_O, app_nil_r. exact Hbuf.
Qed.

Lemma print_all_printed N : (0 < N)%nat -> Z.of_nat N < size_max ->
  forall segs T st,
  Forall (fun s => s <> EmptyString) segs ->
  printed N T st ->
  exists st', print_all (Z.of_nat N) segs st = Done st'
              /\ printed N (T ++ List.concat (map chars segs)) st'.
Proof.
  intros HN Hmax. induction segs as [|s segs IH]; intros T st Hall Hp.
  - exists st. split; [reflexivity|]. cbn [map List.concat]. now rewrite app_nil_r.
  - inversion Hall as [|? ? Hs Hrest]; subst.
    destruct (print_one_printed N T st s HN Hmax Hs Hp) as (st1 & Hone & Hp1).
    destruct (IH (T ++ chars s) st1 Hrest Hp1) as (st' & Hall' & Hp').
    exists st'. cbn [print_all]. rewrite Hone. cbn [bind].
    split; [exact Hall'|]. cbn [map List.concat]. now rewrite app_assoc.
Qed.

Lemma segments_not_empty : forall a,
  Forall (fun s => s <> EmptyString) (segments a).
Proof.
  induction a as [|t v l IHl r IHr]; cbn [segments]; [constructor|].
  destruct (ASTNodeType_eqb t OP_PIPE).
  - apply Forall_app. split; [assumption|]. constructor; [discriminate|assumption].
  - apply Forall_app. split; [|assumption].
    unfold node_text. destruct (isword t).
    + destruct v as [s|]; [|constructor].
      constructor; [|constructor]. destruct s; discriminate.
    + constructor; [discriminate|constructor].
Qed.

(** *** Trimming *)

Lemma drop_spaces_split : forall l,
  l = repeat space (List.length l - List.length (drop_spaces l)) ++ drop_spaces l
  /\ (List.length (drop_spaces l) <= List.length l)%nat
  /\ (drop_spaces l = [] \/ exists c l', drop_spaces l = c :: l' /\ c <> space).
Proof.
  induction l as [|c l (IH1 & IH2 & IH3)]; cbn [drop_spaces].
  - split; [reflexivity|]. split; [lia|]. now left.
  - destruct (Ascii.eqb_spec c space) as [->|Hc].
    + split; [|split; [simpl; lia|exact IH3]].
      cbn [List.length].
      replace (S (List.length l) - List.length (drop_spaces l))%nat
        with (S (List.length l - List.length (drop_spaces l))) by lia.
      cbn [repeat app]. f_equal. exact IH1.
    + split; [|split; [lia|right; eauto]].
      rewrite Nat.sub_diag. reflexivity.
Qed.

Lemma rtrim_split l :
  l = rtrim l ++ repeat space (List.length l - List.length (rtrim l))
  /\ (List.length (rtrim l) <= List.length l)%nat
  /\ (rtrim l = [] \/ exists l' c, rtrim l = l' ++ [c] /\ c <> space).
Proof.
  unfold rtrim. destruct (drop_spaces_split (rev l)) as (H1 & H2 & H3).
  rewrite length_rev in *. split; [|split; [exact H2|]].
  - rewrite <- (rev_involutive l) at 1. rewrite H1 at 1.
    rewrite rev_app_distr. f_equal.
    rewrite rev_repeat. reflexivity.
  - destruct H3 as [->|(c & l' & -> & Hc)]; [now left|].
    right. exists (rev l'), c. split; [reflexivity|assumption].
Qed.

Lemma load_nth (buf : buffer) (i : nat) :
  (i < List.length buf)%nat -> load buf (Z.of_nat i) = Done (nth i buf NUL).
Proof.
  intros Hi. unfold load, in_bounds.
  destruct (Z.leb_spec 0 (Z.of_nat i)); [|lia].
  destruct (Z.ltb_spec (Z.of_nat i) (Z.of_nat (List.length buf))); [|lia].
  cbn [andb]. now rewrite Nat2Z.id.
Qed.

Lemma firstn_covers (buf l : buffer) n :
  firstn n buf = l -> List.length l = n -> (n <= List.length buf)%nat.
Proof. intros <-. rewrite length_firstn. lia. Qed.

Lemma trim_spaces_stops : forall k fuel (buf l' : buffer) c,
  c <> space -> (k < fuel)%nat ->
  Z.of_nat (List.length buf) < size_max ->
  firstn (List.length l' + 1 + k) buf = l' ++ [c] ++ repeat space k ->
  trim_spaces fuel buf (Z.of_nat (List.length l' + 1 + k))
  = Done (Z.of_nat (List.length l' + 1)).
Proof.
  induction k as [|k IH]; intros fuel buf l' c Hc Hfuel Hmax Hfirst;
    (destruct fuel as [|fuel]; [lia|]); cbn [trim_spaces];
    pose proof (firstn_covers _ _ _ Hfirst) as Hlen;
    rewrite !length_app, repeat_length in Hlen; cbn [List.length] in Hlen;
    specialize (Hlen ltac:(lia)).
  - rewrite usize_small by lia.
    replace (Z.of_nat (List.length l' + 1 + 0) - 1)
      with (Z.of_nat (List.length l')) by lia.
    rewrite load_nth by lia. cbn [bind].
    assert (Hnth : nth (List.length l') buf NUL = c).
    { rewrite <- (firstn_skipn (List.length l' + 1 + 0) buf), Hfirst.
      cbn [repeat app]. rewrite <- app_assoc. cbn [app].
      apply nth_middle. }
    rewrite Hnth. destruct (Ascii.eqb_spec c space); [contradiction|].
    f_equal. lia.
  - rewrite usize_small by lia.
    replace (Z.of_nat (List.length l' + 1 + S k) - 1)
      with (Z.of_nat (List.length l' + 1 + k)) by lia.
    rewrite load_nth by lia. cbn [bind].
    assert (Hnth : nth (List.length l' + 1 + k) buf NUL = space).
    { rewrite <- (firstn_skipn (List.length l' + 1 + S k) buf), Hfirst.
      replace (repeat space (S k)) with (repeat space k ++ [space])
        by (rewrite <- repeat_cons; reflexivity).
      rewrite !app_assoc, <- app_assoc. cbn [app].
      replace (List.length l' + 1 + k)%nat
        with (List.length ((l' ++ [c]) ++ repeat space k))
        by (rewrite !length_app, repeat_length; simpl; lia).
      apply nth_middle. }
    rewrite Hnth. change (Ascii.eqb space space) with true. cbv iota.
    apply (IH fuel buf l' c); try assumption; [lia|].
    replace (firstn (List.length l' + 1 + k) buf)
      with (firstn (List.length l' + 1 + k)
              (firstn (List.length l' + 1 + S k) buf))
      by (rewrite firstn_firstn; f_equal; lia).
    rewrite Hfirst.
    replace (repeat space (S k)) with (repeat space k ++ [space])
      by (rewrite <- repeat_cons; reflexivity).
    rewrite !app_assoc.
    replace (List.length l' + 1 + k)%nat
      with (List.length ((l' ++ [c]) ++ repeat space k))
      by (rewrite !length_app, repeat_length; simpl; lia).
    rewrite firstn_app, firstn_all, Nat.sub_diag, firstn_O, app_nil_r.
    reflexivity.
Qed.

Lemma store_nth (buf : buffer) (i : nat) c :
  (i < List.length buf)%nat ->
  store buf (Z.of_nat i) c = Done (firstn i buf ++ c :: skipn (S i) buf).
Proof.
  intros Hi.
  rewrite <- (firstn_skipn i buf) at 1.
  destruct (skipn i buf) as [|b post] eqn:Hskip.
  { apply (f_equal (@List.length ascii)) in Hskip.
    rewrite length_skipn in Hskip. simpl in Hskip. lia. }
  replace (Z.of_nat i) with (Z.of_nat (List.length (firstn i buf)))
    by (rewrite length_firstn; lia).
  rewrite store_at. do 3 f_equal.
  replace (S i) with (1 + i)%nat by lia.
  rewrite <- skipn_skipn, Hskip. reflexivity.
Qed.

Lemma firstn_succ (l : buffer) m :
  (m < List.length l)%nat -> firstn (S m) l = firstn m l ++ [nth m l NUL].
Proof.
  revert m. induction l as [|x l IH]; intros m Hm; [simpl in Hm; lia|].
  destruct m as [|m]; [reflexivity|]. simpl in Hm.
  cbn [firstn nth app]. f_equal. apply IH. lia.
Qed.


Lemma pipeline_example_printable :
  printable Execute.pipeline_example = true.
Proof. reflexivity. Defined.


End RenderTextProps.

(** ** The child process: descriptors and arguments *)

Module ChildProps.
Import Execute Child.

Local Open Scope Z_scope.

(** *** Closing the pipes *)

Lemma closes_of_app j w l1 l2 :
  closes_of j w (l1 ++ l2) = (closes_of j w l1 + closes_of j w l2)%nat.
Proof. unfold closes_of. now rewrite filter_app, length_app. Qed.

Lemma closes_of_close_others i j w : forall count start,
  closes_of j w
    (flat_map (fun j =>
       (if Z.of_nat j =? Z.of_nat i - 1 then [] else [Close (Pipe_fd j false)])
       ++ (if Z.of_nat j =? Z.of_nat i + 0 then [] else [Close (Pipe_fd j true)]))
       (seq start count))
  = if (Nat.leb start j && Nat.ltb j (start + count))%bool
    then if (if w then Z.of_nat j =? Z.of_nat i else Z.of_nat j =? Z.of_nat i - 1)
         then 0%nat else 1%nat
    else 0%nat.
Proof.
  induction count as [|count IH]; intros start.
  - cbn [seq flat_map]. destruct (Nat.leb_spec start j); cbn [andb]; [|reflexivity].
    destruct (Nat.ltb_spec j (start + 0)); [lia|reflexivity].
  - cbn [seq flat_map]. rewrite !closes_of_app, IH.
    destruct (Nat.eq_dec start j) as [->|Hne].
    + destruct (Nat.leb_spec (S j) j); [lia|]. cbn [andb].
      destruct (Nat.leb_spec j j); [|lia].
      destruct (Nat.ltb_spec j (j + S count)); [|lia]. cbn [andb].
      rewrite Z.add_0_r.
      destruct w.
      * destruct (Z.of_nat j =? Z.of_nat i - 1), (Z.of_nat j =? Z.of_nat i);
          unfold closes_of; cbn [filter is_close List.length];
          rewrite ?Nat.eqb_refl; reflexivity.
      * destruct (Z.of_nat j =? Z.of_nat i - 1), (Z.of_nat j =? Z.of_nat i);
          unfold closes_of; cbn [filter is_close List.length];
          rewrite ?Nat.eqb_refl; reflexivity.
    + assert (Hhere : forall l1 l2,
                (l1 = [] \/ l1 = [Close (Pipe_fd start false)]) ->
                (l2 = [] \/ l2 = [Close (Pipe_fd start true)]) ->
                closes_of j w l1 = 0%nat /\ closes_of j w l2 = 0%nat).
      { intros l1 l2 [->| ->] [->| ->]; unfold closes_of;
          cbn [filter is_close List.length];
          destruct (Nat.eqb_spec j start); try congruence; auto. }
      destruct (Hhere
                 (if Z.of_nat start =? Z.of_nat i - 1 then []
                  else [Close (Pipe_fd start false)])
                 (if Z.of_nat start =? Z.of_nat i + 0 then []
                  else [Close (Pipe_fd start true)])) as [-> ->].
      { destruct (Z.of_nat start =? Z.of_nat i - 1); auto. }
      { destruct (Z.of_nat start =? Z.of_nat i + 0); auto. }
      replace (start + S count)%nat with (S start + count)%nat by lia.
      replace (start <=? j)%nat with (S start <=? j)%nat; [reflexivity|].
      destruct (Nat.leb_spec (S start) j), (Nat.leb_spec start j); lia || reflexivity.
Qed.

Lemma closes_of_files j w fin fout :
  closes_of j w (input_actions fin) = 0%nat
  /\ closes_of j w (output_actions fout) = 0%nat.
Proof. destruct fin, fout; split; reflexivity. Qed.

(** *** Scanning and shifting the argument array *)

Lemma scan_app argv : forall c1 c2 j lt gt,
  scan argv j (c1 + c2) lt gt
  = match scan argv j c1 lt gt with
    | Some (lt', gt') => scan argv (j + c1) c2 lt' gt'
    | None => None
    end.
Proof.
  induction c1 as [|c1 IH]; intros c2 j lt gt; cbn [Nat.add scan].
  - now rewrite Nat.add_0_r.
  - destruct (nth j argv None) as [a|]; [|reflexivity].
    rewrite IH. replace (S j + c1)%nat with (j + S c1)%nat by lia. reflexivity.
Qed.

Lemma scan_plain : forall ws (pre post : argv_t) lt gt,
  plain ws ->
  scan (pre ++ map Some ws ++ post) (List.length pre) (List.length ws) lt gt
  = Some (lt, gt).
Proof.
  induction ws as [|w ws IH]; intros pre post lt gt Hplain; [reflexivity|].
  inversion Hplain as [|? ? Hw Hws]; subst.
  cbn [map app List.length scan]. rewrite nth_middle.
  unfold is_operator in Hw. apply orb_false_iff in Hw as [-> ->].
  replace (pre ++ Some w :: map Some ws ++ post)
    with ((pre ++ [Some w]) ++ map Some ws ++ post)
    by (rewrite <- app_assoc; reflexivity).
  replace (S (List.length pre)) with (List.length (pre ++ [Some w]))
    by (rewrite length_app; cbn [List.length]; lia).
  now apply IH.
Qed.

Lemma split_last {A} (x : A) : forall l,
  exists init lst, x :: l = init ++ [lst] /\ List.length init = List.length l.
Proof.
  intros l. revert x. induction l as [|y l IH]; intros x.
  - exists [], x. split; reflexivity.
  - destruct (IH y) as (init & lst & Heq & Hlen).
    exists (x :: init), lst. split; [now rewrite Heq|].
    simpl. now rewrite Hlen.
Qed.

Lemma update_middle (pre : argv_t) x post z :
  update (pre ++ x :: post) (List.length pre) z = pre ++ z :: post.
Proof.
  induction pre as [|p pre IH]; simpl; [reflexivity|]. now rewrite IH.
Qed.

Lemma shift_moves : forall (mid pre : argv_t) x y tail,
  exists s1 s2,
    shift (pre ++ x :: y :: mid ++ tail) (List.length pre) (List.length mid)
    = pre ++ mid ++ s1 :: s2 :: tail.
Proof.
  induction mid as [|m mid IH]; intros pre x y tail.
  - exists x, y. reflexivity.
  - cbn [List.length shift app].
    replace (nth (List.length pre + 2) (pre ++ x :: y :: m :: mid ++ tail) None)
      with m.
    2:{ replace (pre ++ x :: y :: m :: mid ++ tail)
          with ((pre ++ [x; y]) ++ m :: mid ++ tail)
          by (rewrite <- app_assoc; reflexivity).
        replace (List.length pre + 2)%nat with (List.length (pre ++ [x; y]))
          by (rewrite length_app; reflexivity).
        now rewrite nth_middle. }
    rewrite update_middle.
    destruct (IH (pre ++ [m]) y m tail) as (s1 & s2 & Hshift).
    exists s1, s2.
    replace (pre ++ m :: y :: m :: mid ++ tail)
      with ((pre ++ [m]) ++ y :: m :: mid ++ tail)
      by (rewrite <- app_assoc; reflexivity).
    replace (S (List.length pre)) with (List.length (pre ++ [m]))
      by (rewrite length_app; cbn [List.length]; lia).
    rewrite Hshift, <- app_assoc. reflexivity.
Qed.

(** Removing the operator at index [k] and the file after it. *)
Lemma remove_pair (pre : argv_t) op f rest junk :
  let argv := pre ++ Some op :: Some f :: map Some rest ++ None :: junk in
  let k := Z.of_nat (List.length pre) in
  let argc := Z.of_nat (List.length pre + 2 + List.length rest) in
  nth (Z.to_nat (k + 1)) argv None = Some f
  /\ exists junk',
       shift argv (Z.to_nat k) (Z.to_nat (argc - 2 - k + 1))
       = pre ++ map Some rest ++ None :: junk'.
Proof.
  cbv zeta. split.
  - replace (Z.to_nat (Z.of_nat (List.length pre) + 1))
      with (List.length (pre ++ [Some op]))
      by (rewrite length_app; cbn [List.length]; lia).
    replace (pre ++ Some op :: Some f :: map Some rest ++ None :: junk)
      with ((pre ++ [Some op]) ++ Some f :: map Some rest ++ None :: junk)
      by (rewrite <- app_assoc; reflexivity).
    apply nth_middle.
  - rewrite Nat2Z.id.
    replace (Z.to_nat (Z.of_nat (List.length pre + 2 + List.length rest) - 2
                       - Z.of_nat (List.length pre) + 1))
      with (List.length (map Some rest ++ [None]))
      by (rewrite length_app, length_map; cbn [List.length]; lia).
    replace (map Some rest ++ None :: junk)
      with ((map Some rest ++ [None]) ++ junk)
      by (rewrite <- app_assoc; reflexivity).
    destruct (shift_moves (map Some rest ++ [None]) pre (Some op) (Some f) junk)
      as (s1 & s2 & Hshift).
    rewrite Hshift. exists (s1 :: s2 :: junk).
    rewrite <- app_assoc. reflexivity.
Qed.

Lemma until_null_array name ws junk :
  until_null (Some name :: map Some ws ++ None :: junk) = name :: ws.
Proof.
  cbn [until_null]. f_equal. induction ws as [|w ws IH]; [reflexivity|].
  cbn [map app until_null]. now rewrite IH.
Qed.

Lemma execute_junk sys name ws junk :
  execute sys (Some name :: map Some ws ++ None :: junk)
  = execute sys (array name ws).
Proof.
  unfold execute, array. cbn [nth].
  replace (map Some ws ++ [None]) with (map Some ws ++ None :: []) by reflexivity.
  rewrite !until_null_array. reflexivity.
Qed.

Lemma scan_plain_at argv j ws lt gt :
  (exists pre post, argv = pre ++ map Some ws ++ post /\ List.length pre = j) ->
  plain ws ->
  scan argv j (List.length ws) lt gt = Some (lt, gt).
Proof. intros (pre & post & -> & <-) Hplain. now apply scan_plain. Qed.

Lemma scan_operator_at argv j w lt gt :
  (exists pre post, argv = pre ++ Some w :: post /\ List.length pre = j) ->
  scan argv j 1 lt gt
  = Some (if String.eqb w "<" then Z.of_nat j else lt,
          if String.eqb w ">" then Z.of_nat j else gt).
Proof.
  intros (pre & post & -> & <-). cbn [scan]. now rewrite nth_middle.
Qed.

Lemma redirect_input_found sys argv0 (pre : argv_t) f rest junk gt argc0 :
  argv0 = pre ++ Some "<"%string :: Some f :: map Some rest ++ None :: junk ->
  argc0 = Z.of_nat (List.length pre + 2 + List.length rest) ->
  sys_open sys f false = true ->
  exists junk',
    redirect_input sys (Z.of_nat (List.length pre)) (mkArgs argv0 argc0 gt)
    = (input_actions (Some f),
       Some (mkArgs (pre ++ map Some rest ++ None :: junk') (argc0 - 2)
               (if Z.of_nat (List.length pre) <? gt then gt - 2 else gt))).
Proof.
  intros -> -> Hopen.
  destruct (remove_pair pre "<" f rest junk) as (Hnth & junk' & Hshift).
  cbv zeta in Hnth, Hshift. exists junk'. unfold redirect_input.
  destruct (Z.leb_spec 0 (Z.of_nat (List.length pre))); [|lia].
  cbn [Child.argv Child.argc Child.greaterthan].
  rewrite Hnth. cbn [opens]. rewrite Hopen, Hshift. reflexivity.
Qed.

Lemma redirect_output_found sys argv0 (pre : argv_t) g rest junk argc0 :
  argv0 = pre ++ Some ">"%string :: Some g :: map Some rest ++ None :: junk ->
  argc0 = Z.of_nat (List.length pre + 2 + List.length rest) ->
  sys_open sys g true = true ->
  exists junk',
    redirect_output sys (mkArgs argv0 argc0 (Z.of_nat (List.length pre)))
    = (output_actions (Some g),
       Some (mkArgs (pre ++ map Some rest ++ None :: junk') (argc0 - 2)
               (Z.of_nat (List.length pre)))).
Proof.
  intros -> -> Hopen.
  destruct (remove_pair pre ">" g rest junk) as (Hnth & junk' & Hshift).
  cbv zeta in Hnth, Hshift. exists junk'. unfold redirect_output.
  cbn [Child.argv Child.argc Child.greaterthan].
  destruct (Z.leb_spec 0 (Z.of_nat (List.length pre))); [|lia].
  rewrite Hnth. cbn [opens]. rewrite Hopen, Hshift. reflexivity.
Qed.

Lemma plain_app a b : plain (a ++ b) <-> plain a /\ plain b.
Proof. apply Forall_app. Qed.

Lemma plain_cons w a : plain (w :: a) <-> is_operator w = false /\ plain a.
Proof. apply Forall_cons_iff. Qed.

Local Ltac list_eq :=
  repeat (rewrite ?map_app, <- ?app_assoc; cbn [app map]); reflexivity.

Local Ltac len_eq :=
  repeat (rewrite ?length_app, ?length_map; cbn [List.length]); lia.

(** The scan of an array whose arguments end in a plain part: what precedes
    is scanned up to and without the last argument. *)
Lemma scan_to_last (front : argv_t) x tail lt gt :
  plain (x :: tail) ->
  scan (front ++ map Some (x :: tail) ++ [None]) (List.length front)
    (List.length tail) lt gt
  = Some (lt, gt).
Proof.
  intros Hplain. destruct (split_last x tail) as (init & lst & Heq & Hlen).
  rewrite Heq in *. apply plain_app in Hplain as [Hinit _].
  rewrite <- Hlen. apply scan_plain_at; [|assumption].
  exists front, (Some lst :: [None]). split; [list_eq|reflexivity].
Qed.

Lemma run_stages sys i n args lt gt0 input st1 output st2 :
  scan args 1 (Z.to_nat (Z.of_nat (List.length args) - 1 - 2)) (-1) (-1)
  = Some (lt, gt0) ->
  redirect_input sys lt (mkArgs args (Z.of_nat (List.length args) - 1) gt0)
  = (input, Some st1) ->
  redirect_output sys st1 = (output, Some st2) ->
  run sys i n args
  = (close_others i n ++ input ++ output ++ connect_pipes i (n + 1)
       ++ fst (execute sys (Child.argv st2)),
     snd (execute sys (Child.argv st2))).
Proof.
  intros Hscan Hin Hout. unfold run. rewrite Hscan, Hin, Hout.
  destruct (execute sys (Child.argv st2)). reflexivity.
Qed.

Lemma array_length name args :
  Z.of_nat (List.length (array name args)) - 1 = Z.of_nat (List.length args + 1).
Proof.
  unfold array. cbn [List.length]. rewrite length_app, length_map.
  cbn [List.length]. lia.
Qed.

Section Scans.

Variable name : string.

Let A (a : list string) : argv_t := Some name :: map Some a.

Lemma front_length a : List.length (A a) = S (List.length a).
Proof. unfold A. cbn [List.length]. now rewrite length_map. Qed.

Lemma scan_no_redirection a :
  plain a ->
  scan (array name a) 1
    (Z.to_nat (Z.of_nat (List.length (array name a)) - 1 - 2)) (-1) (-1)
  = Some (-1, -1).
Proof.
  intros Hp. rewrite array_length. destruct a as [|x tail]; [reflexivity|].
  replace (Z.to_nat (Z.of_nat (List.length (x :: tail) + 1) - 2))
    with (List.length tail) by (cbn [List.length]; lia).
  exact (scan_to_last [Some name] x tail (-1) (-1) Hp).
Qed.

Lemma scan_one_redirection a op f b :
  is_operator op = true -> plain a -> plain (f :: b) ->
  scan (array name (a ++ op :: f :: b)) 1
    (Z.to_nat (Z.of_nat (List.length (array name (a ++ op :: f :: b))) - 1 - 2))
    (-1) (-1)
  = Some (if String.eqb op "<" then Z.of_nat (S (List.length a)) else -1,
          if String.eqb op ">" then Z.of_nat (S (List.length a)) else -1).
Proof.
  intros Hop Ha Hfb. set (args := a ++ op :: f :: b).
  rewrite array_length.
  replace (Z.to_nat (Z.of_nat (List.length args + 1) - 2))
    with (List.length a + (1 + List.length b))%nat by (unfold args; len_eq).
  rewrite scan_app, scan_plain_at; [|exists [Some name]; eexists; split;
                                      [unfold array, args; list_eq|reflexivity]|exact Ha].
  rewrite scan_app, (scan_operator_at _ _ op);
    [|exists (A a); eexists; split;
      [unfold array, A, args; list_eq|rewrite front_length; lia]].
  replace (array name args)
    with ((A a ++ [Some op]) ++ map Some (f :: b) ++ [None])
    by (unfold array, A, args; list_eq).
  replace (1 + List.length a + 1)%nat
    with (List.length (A a ++ [Some op]))
    by (rewrite length_app, front_length; cbn [List.length]; lia).
  rewrite scan_to_last by assumption. reflexivity.
Qed.

Lemma scan_two_redirections a op1 f b op2 g c :
  plain a -> plain (f :: b) -> plain (g :: c) ->
  scan (array name (a ++ op1 :: f :: b ++ op2 :: g :: c)) 1
    (Z.to_nat
       (Z.of_nat (List.length (array name (a ++ op1 :: f :: b ++ op2 :: g :: c)))
        - 1 - 2))
    (-1) (-1)
  = Some (if String.eqb op2 "<"
          then Z.of_nat (S (List.length a) + 2 + List.length b)
          else if String.eqb op1 "<" then Z.of_nat (S (List.length a)) else -1,
          if String.eqb op2 ">"
          then Z.of_nat (S (List.length a) + 2 + List.length b)
          else if String.eqb op1 ">" then Z.of_nat (S (List.length a)) else -1).
Proof.
  intros Ha Hfb Hgc. set (args := a ++ op1 :: f :: b ++ op2 :: g :: c).
  rewrite array_length.
  replace (Z.to_nat (Z.of_nat (List.length args + 1) - 2))
    with (List.length a + (1 + (List.length (f :: b) + (1 + List.length c))))%nat
    by (unfold args; len_eq).
  rewrite scan_app, scan_plain_at; [|exists [Some name]; eexists; split;
                                      [unfold array, args; list_eq|reflexivity]|exact Ha].
  rewrite scan_app, (scan_operator_at _ _ op1);
    [|exists (A a); eexists; split;
      [unfold array, A, args; list_eq|rewrite front_length; lia]].
  rewrite scan_app, scan_plain_at;
    [|exists (A a ++ [Some op1]); eexists; split;
      [unfold array, A, args; list_eq
      |rewrite length_app, front_length; cbn [List.length]; lia]
     |exact Hfb].
  rewrite scan_app, (scan_operator_at _ _ op2);
    [|exists (A a ++ Some op1 :: map Some (f :: b)); eexists; split;
      [unfold array, A, args; list_eq
      |rewrite length_app, front_length; cbn [List.length]; rewrite length_map;
       cbn [List.length]; lia]].
  replace (array name args)
    with ((A a ++ Some op1 :: map Some (f :: b) ++ [Some op2])
          ++ map Some (g :: c) ++ [None])
    by (unfold array, A, args; list_eq).
  replace (1 + List.length a + 1 + List.length (f :: b) + 1)%nat
    with (List.length (A a ++ Some op1 :: map Some (f :: b) ++ [Some op2]))
    by (rewrite length_app, front_length; cbn [List.length];
        rewrite length_app, length_map; cbn [List.length]; lia).
  rewrite scan_to_last by assumption.
  replace (1 + List.length a + 1 + List.length (f :: b))%nat
    with (S (List.length a) + 2 + List.length b)%nat by (cbn [List.length]; lia).
  replace (1 + List.length a)%nat with (S (List.length a)) by lia.
  reflexivity.
Qed.

End Scans.

(** What the child does for arguments with their redirections in place,
    when the system opens the files. *)
Lemma run_redirections sys i n name args infile outfile stripped :
  redirections args infile outfile stripped ->
  may_open sys infile false -> may_open sys outfile true ->
  run sys i n (array name args)
  = (close_others i n ++ input_actions infile ++ output_actions outfile
       ++ connect_pipes i (n + 1) ++ fst (execute sys (array name stripped)),
     snd (execute sys (array name stripped))).
Proof.
  intros Hshape Hin Hout.
  set (A := fun a : list string => Some name :: map Some a).
  assert (HA : forall a, List.length (A a) = S (List.length a))
    by (intros a; unfold A; cbn [List.length]; now rewrite length_map).
  destruct Hshape as [a Hp|a f b Hp|a g b Hp|a f b g c Hp|a g b f c Hp];
    cbn [may_open] in Hin, Hout.
  - (* no redirection *)
    rewrite (run_stages sys i n (array name a) (-1) (-1) []
               (mkArgs (array name a) (Z.of_nat (List.length (array name a)) - 1) (-1))
               []
               (mkArgs (array name a) (Z.of_nat (List.length (array name a)) - 1) (-1)));
      [reflexivity| |reflexivity|reflexivity].
    exact (scan_no_redirection name a Hp).
  - (* input only *)
    apply plain_app in Hp as [Ha Hfb].
    set (args := a ++ "<"%string :: f :: b).
    destruct (redirect_input_found sys (array name args) (A a) f b [] (-1)
                (Z.of_nat (List.length (array name args)) - 1))
      as (junk1 & Hri); [unfold array, A, args; list_eq| |exact Hin|].
    { rewrite array_length, HA. f_equal. unfold args. len_eq. }
    rewrite HA in Hri.
    destruct (Z.ltb_spec (Z.of_nat (S (List.length a))) (-1)) as [Hlt|_]; [lia|].
    pose proof (scan_one_redirection name a "<" f b eq_refl Ha Hfb) as Hscan.
    cbn [String.eqb Ascii.eqb Bool.eqb] in Hscan. fold args in Hscan.
    rewrite (run_stages sys i n _ _ _ _ _ [] _ Hscan Hri eq_refl).
    cbn [Child.argv]. unfold A. cbn [app].
    replace (map Some a ++ map Some b ++ None :: junk1)
      with (map Some (a ++ b) ++ None :: junk1) by list_eq.
    rewrite execute_junk. reflexivity.
  - (* output only *)
    apply plain_app in Hp as [Ha Hgb].
    set (args := a ++ ">"%string :: g :: b).
    destruct (redirect_output_found sys (array name args) (A a) g b []
                (Z.of_nat (List.length (array name args)) - 1))
      as (junk1 & Hro); [unfold array, A, args; list_eq| |exact Hout|].
    { rewrite array_length, HA. f_equal. unfold args. len_eq. }
    rewrite HA in Hro.
    pose proof (scan_one_redirection name a ">" g b eq_refl Ha Hgb) as Hscan.
    cbn [String.eqb Ascii.eqb Bool.eqb] in Hscan. fold args in Hscan.
    rewrite (run_stages sys i n _ _ _ [] _ _ _ Hscan eq_refl Hro).
    cbn [Child.argv]. unfold A. cbn [app].
    replace (map Some a ++ map Some b ++ None :: junk1)
      with (map Some (a ++ b) ++ None :: junk1) by list_eq.
    rewrite execute_junk. reflexivity.
  - (* input, then output *)
    apply plain_app in Hp as [Ha Hp].
    change (f :: b ++ g :: c) with ((f :: b) ++ g :: c) in Hp.
    apply plain_app in Hp as [Hfb Hgc].
    set (args := a ++ "<"%string :: f :: b ++ ">"%string :: g :: c).
    set (gt0 := Z.of_nat (S (List.length a) + 2 + List.length b)).
    destruct (redirect_input_found sys (array name args)
                (A a) f (b ++ ">"%string :: g :: c) [] gt0
                (Z.of_nat (List.length (array name args)) - 1))
      as (junk1 & Hri); [unfold array, A, args; list_eq| |exact Hin|].
    { rewrite array_length, HA. f_equal. unfold args. len_eq. }
    rewrite HA in Hri.
    destruct (Z.ltb_spec (Z.of_nat (S (List.length a))) gt0) as [_|Hge];
      [|unfold gt0 in Hge; lia].
    destruct (redirect_output_found sys
                (A a ++ map Some (b ++ ">"%string :: g :: c) ++ None :: junk1)
                (A (a ++ b)) g c junk1
                (Z.of_nat (List.length (array name args)) - 1 - 2))
      as (junk2 & Hro); [unfold A; list_eq| |exact Hout|].
    { rewrite array_length, HA. unfold args. len_eq. }
    replace (Z.of_nat (List.length (A (a ++ b)))) with (gt0 - 2) in Hro
      by (rewrite HA; unfold gt0; len_eq).
    pose proof (scan_two_redirections name a "<" f b ">" g c Ha Hfb Hgc) as Hscan.
    cbn [String.eqb Ascii.eqb Bool.eqb] in Hscan. fold args gt0 in Hscan.
    rewrite (run_stages sys i n _ _ _ _ _ _ _ Hscan Hri Hro).
    cbn [Child.argv]. unfold A. cbn [app].
    replace (map Some (a ++ b) ++ map Some c ++ None :: junk2)
      with (map Some (a ++ b ++ c) ++ None :: junk2) by list_eq.
    rewrite execute_junk. reflexivity.
  - (* output, then input *)
    apply plain_app in Hp as [Ha Hp].
    change (g :: b ++ f :: c) with ((g :: b) ++ f :: c) in Hp.
    apply plain_app in Hp as [Hgb Hfc].
    set (args := a ++ ">"%string :: g :: b ++ "<"%string :: f :: c).
    set (gt0 := Z.of_nat (S (List.length a))).
    set (pre := A a ++ Some ">"%string :: Some g :: map Some b).
    assert (Hpre : List.length pre = (S (List.length a) + 2 + List.length b)%nat)
      by (unfold pre; rewrite length_app, HA; cbn [List.length];
          rewrite length_map; lia).
    destruct (redirect_input_found sys (array name args)
                pre f c [] gt0
                (Z.of_nat (List.length (array name args)) - 1))
      as (junk1 & Hri); [unfold array, A, args, pre; list_eq| |exact Hin|].
    { rewrite array_length, Hpre. f_equal. unfold args. len_eq. }
    destruct (Z.ltb_spec (Z.of_nat (List.length pre)) gt0) as [Hlt|_];
      [unfold gt0 in Hlt; lia|].
    destruct (redirect_output_found sys
                (pre ++ map Some c ++ None :: junk1)
                (A a) g (b ++ c) junk1
                (Z.of_nat (List.length (array name args)) - 1 - 2))
      as (junk2 & Hro); [unfold A, pre; list_eq| |exact Hout|].
    { rewrite array_length, HA. unfold args. len_eq. }
    replace (Z.of_nat (List.length (A a))) with gt0 in Hro
      by (rewrite HA; reflexivity).
    pose proof (scan_two_redirections name a ">" g b "<" f c Ha Hgb Hfc) as Hscan.
    cbn [String.eqb Ascii.eqb Bool.eqb] in Hscan. rewrite <- Hpre in Hscan.
    fold args gt0 in Hscan.
    rewrite (run_stages sys i n _ _ _ _ _ _ _ Hscan Hri Hro).
    cbn [Child.argv]. unfold A. cbn [app].
    replace (map Some a ++ map Some (b ++ c) ++ None :: junk2)
      with (map Some (a ++ b ++ c) ++ None :: junk2) by list_eq.
    rewrite execute_junk. reflexivity.
Qed.

(** X21.  In the child, each redirection operator and the file name after
    it are taken out of the argument array before the program is executed:
    the file after [<] is opened for reading and put on standard input, the
    file after [>] is opened for writing and put on standard output, and
    [execvp] receives the command name and the remaining arguments in their
    order.  The [author] built-in runs [echo] with the author's name. *)
Theorem child_strips_redirections sys i n name args infile outfile stripped :
  redirections args infile outfile stripped ->
  may_open sys infile false -> may_open sys outfile true ->
  (String.eqb name "author" = false -> sys_exec sys name = None ->
   run sys i n (array name args)
   = (close_others i n ++ input_actions infile ++ output_actions outfile
        ++ connect_pipes i (n + 1),
      Execvp name (name :: stripped)))
  /\ (String.eqb name "author" = true -> sys_exec sys "echo" = None ->
      run sys i n (array name args)
      = (close_others i n ++ input_actions infile ++ output_actions outfile
           ++ connect_pipes i (n + 1),
         Execlp "echo" ["echo"; AUTHOR]%string)).
Proof.
  intros Hshape Hin Hout.
  rewrite (run_redirections sys i n name args infile outfile stripped
             Hshape Hin Hout).
  unfold execute, array. cbn [nth].
  replace (map Some stripped ++ [None]) with (map Some stripped ++ None :: [])
    by reflexivity.
  rewrite until_null_array.
  split; intros Hname Hexec; rewrite Hname, Hexec; cbn [fst snd];
    rewrite app_nil_r; reflexivity.
Qed.

Lemma execute_messages sys argv :
  forallb is_message (fst (execute sys argv)) = true.
Proof.
  unfold execute. destruct (nth 0 argv None) as [name|]; [|reflexivity].
  destruct (String.eqb name "author").
  - destruct (sys_exec sys "echo"); reflexivity.
  - destruct (sys_exec sys name) as [[text errno]|]; [|reflexivity].
    destruct (String.eqb text "No such file or directory"); reflexivity.
Qed.

Lemma closes_of_messages j w : forall l,
  forallb is_message l = true -> closes_of j w l = 0%nat.
Proof.
  induction l as [|a l IH]; [reflexivity|]. cbn [forallb].
  intros H. apply andb_prop in H as [Ha Hl].
  unfold closes_of in *. cbn [filter].
  destruct a; try discriminate; cbn [is_close]; now apply IH.
Qed.

Lemma closes_of_connect_pipes i n j w :
  (i <= n)%nat ->
  closes_of j w (connect_pipes i (n + 1))
  = if w then (if Nat.eqb j i && Nat.ltb i n then 1 else 0)%nat
    else (if Nat.ltb 0 i && Nat.eqb j (i - 1) then 1 else 0)%nat.
Proof.
  intros Hi. unfold connect_pipes. rewrite closes_of_app.
  replace (Z.of_nat (n + 1) - 1) with (Z.of_nat n) by lia.
  destruct (Z.ltb_spec 0 (Z.of_nat i)) as [Hpos|Hzero];
    destruct (Z.ltb_spec (Z.of_nat i) (Z.of_nat n)) as [Hlt|Hge];
    destruct (Nat.ltb_spec 0 i); try lia;
    destruct (Nat.ltb_spec i n); try lia;
    unfold closes_of; cbn [filter is_close List.length];
    destruct w; cbn [Bool.eqb andb];
    rewrite ?andb_false_r, ?andb_true_r;
    try destruct (Nat.eqb j (i - 1)); try destruct (Nat.eqb j i);
    reflexivity.
Qed.

(** X22.  Whatever the redirections, a child that gets past them has closed
    each end of each pipe exactly once by the time it executes its program:
    the two ends it uses after [dup2], all the others at once. *)
Theorem child_closes_every_pipe_end sys i n name args infile outfile stripped :
  redirections args infile outfile stripped ->
  may_open sys infile false -> may_open sys outfile true ->
  (i <= n)%nat ->
  forall j w, (j < n)%nat ->
    closes_of j w (fst (run sys i n (array name args))) = 1%nat.
Proof.
  intros Hshape Hin Hout Hi j w Hj.
  rewrite (run_redirections sys i n name args infile outfile stripped
             Hshape Hin Hout). cbn [fst].
  rewrite !closes_of_app.
  destruct (closes_of_files j w infile outfile) as [-> ->].
  rewrite (closes_of_messages j w _ (execute_messages sys _)).
  unfold close_others. rewrite closes_of_close_others, closes_of_connect_pipes by lia.
  destruct (Nat.leb_spec 0 j); [|lia].
  destruct (Nat.ltb_spec j (0 + n)); [|lia]. cbn [andb].
  destruct w.
  - destruct (Z.eqb_spec (Z.of_nat j) (Z.of_nat i)) as [Heq|Hne].
    + apply Nat2Z.inj in Heq. subst j. rewrite Nat.eqb_refl.
      destruct (Nat.ltb_spec i n); [reflexivity|lia].
    + destruct (Nat.eqb_spec j i); [subst; lia|reflexivity].
  - destruct (Z.eqb_spec (Z.of_nat j) (Z.of_nat i - 1)) as [Heq|Hne].
    + destruct (Nat.ltb_spec 0 i); [|lia].
      destruct (Nat.eqb_spec j (i - 1)); [reflexivity|lia].
    + destruct (Nat.ltb_spec 0 i); [|reflexivity].
      destruct (Nat.eqb_spec j (i - 1)); [lia|reflexivity].
Qed.

Lemma target_app std : forall l1 l2 current,
  target std (l1 ++ l2) current = target std l2 (target std l1 current).
Proof.
  induction l1 as [|a l1 IH]; intros l2 current; [reflexivity|].
  cbn [app target]. destruct a as [| fd [] | | | |]; apply IH.
Qed.

Lemma target_no_dup2 std : forall l current,
  (forall fd s, ~ In (Dup2 fd s) l) -> target std l current = current.
Proof.
  induction l as [|a l IH]; intros current Hno; [reflexivity|].
  cbn [target].
  assert (Hl : forall fd s, ~ In (Dup2 fd s) l)
    by (intros fd s Hin; apply (Hno fd s); now right).
  destruct a as [| fd s | | | |]; try (now apply IH).
  exfalso. apply (Hno fd s). now left.
Qed.

Lemma close_others_no_dup2 i n fd s : ~ In (Dup2 fd s) (close_others i n).
Proof.
  unfold close_others. rewrite in_flat_map. intros (j & _ & Hin).
  apply in_app_or in Hin as [Hin|Hin].
  - destruct (Z.of_nat j =? Z.of_nat i - 1); [exact Hin|].
    destruct Hin as [Hin|[]]. discriminate.
  - destruct (Z.of_nat j =? Z.of_nat i + 0); [exact Hin|].
    destruct Hin as [Hin|[]]. discriminate.
Qed.

Lemma messages_no_dup2 : forall l fd s,
  forallb is_message l = true -> ~ In (Dup2 fd s) l.
Proof.
  induction l as [|a l IH]; intros fd s Hall Hin; [exact Hin|].
  cbn [forallb] in Hall. apply andb_prop in Hall as [Ha Hl].
  destruct Hin as [Heq|Hin].
  - subst a. discriminate.
  - exact (IH fd s Hl Hin).
Qed.

(** X23.  Where the child's standard descriptors point when its program
    starts: a pipe takes precedence over a file.  Standard input is the
    read end of the previous pipe for every stage but the first, whose
    input is the file after [<] if there is one; standard output is the
    write end of the stage's own pipe for every stage but the last, whose
    output is the file after [>] if there is one. *)
Theorem child_pipe_overrides_file sys i n name args infile outfile stripped :
  redirections args infile outfile stripped ->
  may_open sys infile false -> may_open sys outfile true ->
  let actions := fst (run sys i n (array name args)) in
  target STDIN_FILENO actions None
  = (if (0 <? i)%nat then Some (Pipe_fd (i - 1) false)
     else option_map (fun f => File_fd f false) infile)
  /\ target STDOUT_FILENO actions None
     = (if (i <? n)%nat then Some (Pipe_fd i true)
        else option_map (fun g => File_fd g true) outfile).
Proof.
  intros Hshape Hin Hout. cbv zeta.
  rewrite (run_redirections sys i n name args infile outfile stripped
             Hshape Hin Hout). cbn [fst].
  rewrite !target_app.
  rewrite !(target_no_dup2 _ (close_others i n))
    by (intros fd s; apply close_others_no_dup2).
  rewrite !(target_no_dup2 _ (fst (execute sys _)))
    by (intros fd s; apply messages_no_dup2, execute_messages).
  unfold connect_pipes. rewrite !target_app.
  replace (Z.of_nat (n + 1) - 1) with (Z.of_nat n) by lia.
  destruct (Z.ltb_spec 0 (Z.of_nat i)); destruct (Nat.ltb_spec 0 i); try lia;
    destruct (Z.ltb_spec (Z.of_nat i) (Z.of_nat n));
    destruct (Nat.ltb_spec i n); try lia;
    destruct infile, outfile; split; reflexivity.
Qed.

(** *** Files that cannot be opened *)

Lemma redirect_input_refused sys argv0 (pre : argv_t) f rest junk gt argc0 :
  argv0 = pre ++ Some "<"%string :: Some f :: map Some rest ++ None :: junk ->
  sys_open sys f false = false ->
  redirect_input sys (Z.of_nat (List.length pre)) (mkArgs argv0 argc0 gt)
  = ([Open_failed (Some f) false; Perror "open";
      Printf_permission_denied (Some f)], None).
Proof.
  intros -> Hopen.
  destruct (remove_pair pre "<" f rest junk) as (Hnth & _).
  cbv zeta in Hnth. unfold redirect_input.
  destruct (Z.leb_spec 0 (Z.of_nat (List.length pre))); [|lia].
  cbn [Child.argv]. rewrite Hnth. cbn [opens]. rewrite Hopen. reflexivity.
Qed.

Lemma redirect_output_refused sys argv0 (pre : argv_t) g rest junk argc0 :
  argv0 = pre ++ Some ">"%string :: Some g :: map Some rest ++ None :: junk ->
  sys_open sys g true = false ->
  redirect_output sys (mkArgs argv0 argc0 (Z.of_nat (List.length pre)))
  = ([Open_failed (Some g) true; Printf_permission_denied (Some g)], None).
Proof.
  intros -> Hopen.
  destruct (remove_pair pre ">" g rest junk) as (Hnth & _).
  cbv zeta in Hnth. unfold redirect_output.
  cbn [Child.argv Child.greaterthan].
  destruct (Z.leb_spec 0 (Z.of_nat (List.length pre))); [|lia].
  rewrite Hnth. cbn [opens]. rewrite Hopen. reflexivity.
Qed.

Lemma run_input_refused sys i n args lt gt0 input :
  scan args 1 (Z.to_nat (Z.of_nat (List.length args) - 1 - 2)) (-1) (-1)
  = Some (lt, gt0) ->
  redirect_input sys lt (mkArgs args (Z.of_nat (List.length args) - 1) gt0)
  = (input, None) ->
  run sys i n args = (close_others i n ++ input, Exit EXIT_FAILURE).
Proof. intros Hscan Hin. unfold run. rewrite Hscan, Hin. reflexivity. Qed.

Lemma run_output_refused sys i n args lt gt0 input st1 output :
  scan args 1 (Z.to_nat (Z.of_nat (List.length args) - 1 - 2)) (-1) (-1)
  = Some (lt, gt0) ->
  redirect_input sys lt (mkArgs args (Z.of_nat (List.length args) - 1) gt0)
  = (input, Some st1) ->
  redirect_output sys st1 = (output, None) ->
  run sys i n args = (close_others i n ++ input ++ output, Exit EXIT_FAILURE).
Proof.
  intros Hscan Hin Hout. unfold run. rewrite Hscan, Hin, Hout. reflexivity.
Qed.

Local Ltac plain_parts :=
  repeat match goal with
  | H : plain (_ ++ _) |- _ => apply plain_app in H as [? ?]
  | H : plain (?f :: ?b ++ ?g :: ?c) |- _ =>
      change (f :: b ++ g :: c) with ((f :: b) ++ g :: c) in H
  end.

(** X24.  A redirection whose file the system refuses to open ends the
    child before any program runs: it exits with [EXIT_FAILURE] after the
    message that names the file (for an input file, after [perror] too).
    The input file is opened first, so when it is refused the output file
    is not even created; when the output file is refused, standard input
    has already been redirected. *)
Theorem child_open_failure sys i n name args infile outfile stripped :
  redirections args infile outfile stripped ->
  (forall f, infile = Some f -> sys_open sys f false = false ->
     run sys i n (array name args)
     = (close_others i n
          ++ [Open_failed (Some f) false; Perror "open";
              Printf_permission_denied (Some f)],
        Exit EXIT_FAILURE))
  /\ (forall g, outfile = Some g -> may_open sys infile false ->
        sys_open sys g true = false ->
        run sys i n (array name args)
        = (close_others i n ++ input_actions infile
             ++ [Open_failed (Some g) true; Printf_permission_denied (Some g)],
           Exit EXIT_FAILURE)).
Proof.
  intros Hshape.
  set (A := fun a : list string => Some name :: map Some a).
  assert (HA : forall a, List.length (A a) = S (List.length a))
    by (intros a; unfold A; cbn [List.length]; now rewrite length_map).
  destruct Hshape as [a Hp|a f b Hp|a g b Hp|a f b g c Hp|a g b f c Hp];
    plain_parts; (split; [intros f' [= <-] Hopen|intros g' [= <-] Hin Hopen]);
    cbn [may_open input_actions] in *.
  - (* input only: the input file *)
    pose proof (scan_one_redirection name a "<" f b eq_refl ltac:(assumption)
                  ltac:(assumption)) as Hscan.
    cbn [String.eqb Ascii.eqb Bool.eqb] in Hscan.
    apply (run_input_refused sys i n _ _ _ _ Hscan).
    rewrite <- (HA a).
    apply (redirect_input_refused sys _ (A a) f b []); [|exact Hopen].
    unfold array, A. list_eq.
  - (* output only: the output file *)
    pose proof (scan_one_redirection name a ">" g b eq_refl ltac:(assumption)
                  ltac:(assumption)) as Hscan.
    cbn [String.eqb Ascii.eqb Bool.eqb] in Hscan.
    apply (run_output_refused sys i n _ _ _ [] _ _ Hscan eq_refl).
    rewrite <- (HA a).
    apply (redirect_output_refused sys _ (A a) g b []); [|exact Hopen].
    unfold array, A. list_eq.
  - (* input, then output: the input file *)
    pose proof (scan_two_redirections name a "<" f b ">" g c ltac:(assumption)
                  ltac:(assumption) ltac:(assumption)) as Hscan.
    cbn [String.eqb Ascii.eqb Bool.eqb] in Hscan.
    apply (run_input_refused sys i n _ _ _ _ Hscan).
    rewrite <- (HA a).
    apply (redirect_input_refused sys _ (A a) f (b ++ ">"%string :: g :: c) []);
      [|exact Hopen].
    unfold array, A. list_eq.
  - (* input, then output: the output file *)
    pose proof (scan_two_redirections name a "<" f b ">" g c ltac:(assumption)
                  ltac:(assumption) ltac:(assumption)) as Hscan.
    cbn [String.eqb Ascii.eqb Bool.eqb] in Hscan.
    set (args := a ++ "<"%string :: f :: b ++ ">"%string :: g :: c) in *.
    set (gt0 := Z.of_nat (S (List.length a) + 2 + List.length b)) in *.
    destruct (redirect_input_found sys (array name args)
                (A a) f (b ++ ">"%string :: g :: c) [] gt0
                (Z.of_nat (List.length (array name args)) - 1))
      as (junk1 & Hri); [unfold array, A, args; list_eq| |exact Hin|].
    { rewrite array_length, HA. f_equal. unfold args. len_eq. }
    rewrite HA in Hri.
    destruct (Z.ltb_spec (Z.of_nat (S (List.length a))) gt0) as [_|Hge];
      [|unfold gt0 in Hge; lia].
    apply (run_output_refused sys i n _ _ _ _ _ _ Hscan Hri).
    replace (gt0 - 2) with (Z.of_nat (List.length (A (a ++ b))))
      by (rewrite HA; unfold gt0; len_eq).
    apply (redirect_output_refused sys _ (A (a ++ b)) g c junk1); [|exact Hopen].
    unfold A. list_eq.
  - (* output, then input: the input file *)
    pose proof (scan_two_redirections name a ">" g b "<" f c ltac:(assumption)
                  ltac:(assumption) ltac:(assumption)) as Hscan.
    cbn [String.eqb Ascii.eqb Bool.eqb] in Hscan.
    set (pre := A a ++ Some ">"%string :: Some g :: map Some b).
    assert (Hpre : List.length pre = (S (List.length a) + 2 + List.length b)%nat)
      by (unfold pre; rewrite length_app, HA; cbn [List.length];
          rewrite length_map; lia).
    rewrite <- Hpre in Hscan.
    apply (run_input_refused sys i n _ _ _ _ Hscan).
    apply (redirect_input_refused sys _ pre f c []); [|exact Hopen].
    unfold array, A, pre. list_eq.
  - (* output, then input: the output file *)
    pose proof (scan_two_redirections name a ">" g b "<" f c ltac:(assumption)
                  ltac:(assumption) ltac:(assumption)) as Hscan.
    cbn [String.eqb Ascii.eqb Bool.eqb] in Hscan.
    set (args := a ++ ">"%string :: g :: b ++ "<"%string :: f :: c) in *.
    set (gt0 := Z.of_nat (S (List.length a))) in *.
    set (pre := A a ++ Some ">"%string :: Some g :: map Some b).
    assert (Hpre : List.length pre = (S (List.length a) + 2 + List.length b)%nat)
      by (unfold pre; rewrite length_app, HA; cbn [List.length];
          rewrite length_map; lia).
    rewrite <- Hpre in Hscan.
    destruct (redirect_input_found sys (array name args)
                pre f c [] gt0
                (Z.of_nat (List.length (array name args)) - 1))
      as (junk1 & Hri); [unfold array, A, args, pre; list_eq| |exact Hin|].
    { rewrite array_length, Hpre. f_equal. unfold args. len_eq. }
    destruct (Z.ltb_spec (Z.of_nat (List.length pre)) gt0) as [Hlt|_];
      [unfold gt0 in Hlt; lia|].
    apply (run_output_refused sys i n _ _ _ _ _ _ Hscan Hri).
    replace gt0 with (Z.of_nat (List.length (A a))) by (rewrite HA; reflexivity).
    apply (redirect_output_refused sys _ (A a) g (b ++ c) junk1); [|exact Hopen].
    unfold A, pre. list_eq.
Qed.

(** *** The statements at concrete commands *)

Lemma child_strips_redirections_witness :
  run sys_example 0 0 (array "sort" ["-r"; "<"; "in"; ">"; "out"]%string)
  = ([Dup2 (File_fd "in" false) STDIN_FILENO; Close (File_fd "in" false);
      Dup2 (File_fd "out" true) STDOUT_FILENO; Close (File_fd "out" true)],
     Execvp "sort" ["sort"; "-r"]%string).
Proof.
  exact (proj1 (child_strips_redirections sys_example 0 0 "sort"
                  _ _ _ _
                  (input_then_output ["-r"%string] "in" [] "out" []
                     ltac:(repeat constructor))
                  eq_refl eq_refl)
           eq_refl eq_refl).
Defined.

Lemma child_closes_every_pipe_end_witness :
  closes_of 0 true (fst (run sys_example 1 2 (array "grep" ["x"]%string))) = 1%nat
  /\ closes_of 0 false (fst (run sys_example 1 2 (array "grep" ["x"]%string)))
     = 1%nat.
Proof.
  split;
    apply (child_closes_every_pipe_end sys_example 1 2 "grep" ["x"%string]
             None None ["x"%string]
             (no_redirection ["x"%string] ltac:(repeat constructor)) I I);
    lia.
Defined.

Lemma child_pipe_overrides_file_witness :
  let actions := fst (run sys_example 0 1 (array "sort" [">"; "out"]%string)) in
  target STDIN_FILENO actions None = None
  /\ target STDOUT_FILENO actions None = Some (Pipe_fd 0 true).
Proof.
  exact (child_pipe_overrides_file sys_example 0 1 "sort"
           _ _ _ _
           (output_only [] "out" [] ltac:(repeat constructor)) I eq_refl).
Defined.

Lemma child_open_failure_witness :
  run sys_refusing 0 0 (array "sort" ["<"; "in"; ">"; "out"]%string)
  = ([Open_failed (Some "in"%string) false; Perror "open";
      Printf_permission_denied (Some "in"%string)],
     Exit EXIT_FAILURE).
Proof.
  exact (proj1 (child_open_failure sys_refusing 0 0 "sort"
                  _ _ _ _
                  (input_then_output [] "in" [] "out" []
                     ltac:(repeat constructor)))
           "in"%string eq_refl eq_refl).
Defined.

End ChildProps.
(** ** Executor: what ends the shell process itself *)

Module ShellEndProps.
Import Pipeline Execute ShellEnd.

Local Open Scope Z_scope.

Lemma log_log sh evs1 evs2 : log (log sh evs1) evs2 = log sh (evs1 ++ evs2).
Proof. unfold log. cbn [cwd trace]. now rewrite app_assoc. Qed.

Lemma log_nil sh : log sh [] = sh.
Proof. destruct sh. unfold log. cbn [cwd trace]. now rewrite app_nil_r. Qed.

Lemma create_pipes_all os : forall count i sh,
  (forall j, (i <= j < i + count)%nat -> sys_pipe os j = true) ->
  create_pipes os i count sh = inl (log sh (map Pipe_created (seq i count))).
Proof.
  induction count as [|count IH]; intros i sh Hp; cbn [create_pipes seq map].
  - now rewrite log_nil.
  - rewrite (Hp i) by lia. rewrite IH by (intros j Hj; apply Hp; lia).
    now rewrite log_log.
Qed.

Lemma create_pipes_fails os : forall count i k sh,
  (forall j, (i <= j < i + k)%nat -> sys_pipe os j = true) ->
  sys_pipe os (i + k) = false -> (k < count)%nat ->
  create_pipes os i count sh
  = inr (Exited EXIT_FAILURE
           (log sh (map Pipe_created (seq i k) ++ [Perror "pipe"]))).
Proof.
  induction count as [|count IH]; intros i k sh Hp Hk Hlt; [lia|].
  cbn [create_pipes]. destruct k as [|k].
  - rewrite Nat.add_0_r in Hk. rewrite Hk. reflexivity.
  - rewrite (Hp i) by lia.
    rewrite (IH (S i) k).
    + rewrite log_log. reflexivity.
    + intros j Hj. apply Hp. lia.
    + now replace (S i + k)%nat with (i + S k)%nat by lia.
    + lia.
Qed.

Lemma spawn_forks os : forall pre i sh rest,
  Forall external_stage pre ->
  (forall j, (i <= j < i + List.length pre)%nat -> 0 < sys_fork os j) ->
  spawn os i (pre ++ rest) sh
  = spawn os (i + List.length pre) rest
      (log sh (map (fun j => Forked j (sys_fork os j))
                 (seq i (List.length pre)))).
Proof.
  induction pre as [|slot pre IH]; intros i sh rest Hext Hfork.
  - cbn [app List.length seq map]. now rewrite log_nil, Nat.add_0_r.
  - inversion Hext as [|? ? [argv [-> Hargv]] Hrest]; subst.
    cbn [app spawn List.length seq map].
    unfold is_external in Hargv.
    destruct (arg argv 0) as [name|]; [|discriminate].
    apply negb_true_iff in Hargv.
    apply orb_false_iff in Hargv as [Hargv Hcd].
    rewrite Hargv, Hcd.
    pose proof (Hfork i ltac:(cbn [List.length]; lia)) as Hpid.
    destruct (Z.eqb_spec (sys_fork os i) (-1)); [lia|].
    destruct (Z.eqb_spec (sys_fork os i) 0); [lia|].
    rewrite IH; [|assumption|intros j Hj; apply Hfork; cbn [List.length]; lia].
    rewrite log_log. f_equal. lia.
Qed.

(** X25.  A stage named [exit] or [quit] ends the shell process itself with
    status 0, wherever it stands in the pipeline: the pipes have been
    created and the stages before it have their children, but the stages
    after it are never started, the shell closes no pipe end and waits for
    no child. *)
Theorem exit_in_pipeline_ends_shell os pipeline sh pre argv rest name :
  argvs_of pipeline (AST_countpipes pipeline + 1) = pre ++ Some argv :: rest ->
  Forall external_stage pre ->
  arg argv 0 = Some name -> name = "exit"%string \/ name = "quit"%string ->
  (forall j, (j < AST_countpipes pipeline)%nat -> sys_pipe os j = true) ->
  (forall j, (j < List.length pre)%nat -> 0 < sys_fork os j) ->
  AST_execute os pipeline sh
  = Exited 0
      (log sh (started os (AST_countpipes pipeline) (List.length pre))).
Proof.
  intros Hargvs Hext Harg Hname Hpipe Hfork.
  unfold AST_execute. cbv zeta.
  rewrite create_pipes_all by (intros j Hj; apply Hpipe; lia).
  rewrite Hargvs, spawn_forks; [|assumption|intros j Hj; apply Hfork; lia].
  cbn [spawn]. rewrite Harg.
  assert (Hq : String.eqb name "exit" || String.eqb name "quit" = true)
    by (destruct Hname as [-> | ->]; reflexivity).
  rewrite Hq, log_log. reflexivity.
Qed.

(** X26.  A [pipe] or [fork] call that fails ends the shell process, not
    only the command: after [perror] the shell [_exit]s with
    [EXIT_FAILURE], leaving the pipes it has created open and the children
    it has started unwaited. *)
Theorem failed_pipe_or_fork_ends_shell os pipeline sh :
  (forall k, (k < AST_countpipes pipeline)%nat ->
     (forall j, (j < k)%nat -> sys_pipe os j = true) ->
     sys_pipe os k = false ->
     AST_execute os pipeline sh
     = Exited EXIT_FAILURE
         (log sh (map Pipe_created (seq 0 k) ++ [Perror "pipe"])))
  /\ (forall pre argv rest,
        argvs_of pipeline (AST_countpipes pipeline + 1)
        = pre ++ Some argv :: rest ->
        Forall external_stage pre -> is_external argv = true ->
        (forall j, (j < AST_countpipes pipeline)%nat -> sys_pipe os j = true) ->
        (forall j, (j < List.length pre)%nat -> 0 < sys_fork os j) ->
        sys_fork os (List.length pre) = -1 ->
        AST_execute os pipeline sh
        = Exited EXIT_FAILURE
            (log sh (started os (AST_countpipes pipeline) (List.length pre)
                       ++ [Perror "fork"]))).
Proof.
  split.
  - intros k Hk Hbefore Hfail. unfold AST_execute. cbv zeta.
    rewrite (create_pipes_fails os _ 0%nat k); try assumption; [reflexivity|].
    intros j Hj. apply Hbefore. lia.
  - intros pre argv rest Hargvs Hext Hargv Hpipe Hfork Hfail.
    unfold AST_execute. cbv zeta.
    rewrite create_pipes_all by (intros j Hj; apply Hpipe; lia).
    rewrite Hargvs, spawn_forks; [|assumption|intros j Hj; apply Hfork; lia].
    cbn [spawn]. unfold is_external in Hargv.
    destruct (arg argv 0) as [name|]; [|discriminate].
    apply negb_true_iff in Hargv.
    apply orb_false_iff in Hargv as [Hargv Hcd].
    rewrite Hargv, Hcd. cbn [Nat.add]. rewrite Hfail.
    change (-1 =? -1) with true. cbv iota.
    rewrite !log_log. unfold started. now rewrite <- app_assoc.
Qed.

Lemma exit_in_pipeline_ends_shell_witness :
  AST_execute os_example pipeline_exit (mkShell "/" [])
  = Exited 0 (mkShell "/" [Pipe_created 0; Forked 0 101]).
Proof.
  apply (exit_in_pipeline_ends_shell os_example pipeline_exit (mkShell "/" [])
           [Some [Some "cat"; Some "notes"; None]]%string
           [Some "exit"%string; None] [] "exit" eq_refl).
  - repeat constructor. eexists. split; reflexivity.
  - reflexivity.
  - now left.
  - intros j _. reflexivity.
  - intros j _. change (0 < 101 + Z.of_nat j). lia.
Defined.

Lemma failed_pipe_or_fork_ends_shell_witness :
  AST_execute os_one_pipe pipeline_example (mkShell "/" [])
  = Exited EXIT_FAILURE (mkShell "/" [Pipe_created 0; Perror "pipe"])
  /\ AST_execute os_one_fork pipeline_example (mkShell "/" [])
     = Exited EXIT_FAILURE
         (mkShell "/" [Pipe_created 0; Pipe_created 1; Forked 0 101;
                       Perror "fork"]).
Proof.
  split.
  - apply (proj1 (failed_pipe_or_fork_ends_shell os_one_pipe pipeline_example
                    (mkShell "/" [])) 1%nat).
    + cbn. lia.
    + intros j Hj. replace j with 0%nat by lia. reflexivity.
    + reflexivity.
  - apply (proj2 (failed_pipe_or_fork_ends_shell os_one_fork pipeline_example
                    (mkShell "/" []))
             [Some [Some "cat"; Some "notes"; None]]%string
             [Some "grep"; Some "x"; None]%string
             [Some [Some "wc"%string; None]] eq_refl).
    + repeat constructor. eexists. split; reflexivity.
    + reflexivity.
    + intros j _. reflexivity.
    + intros j Hj. cbn [List.length] in Hj. replace j with 0%nat by lia.
      cbn. lia.
    + reflexivity.
Defined.

End ShellEndProps.
(** ** From the parser to the child: redirections are in place *)

Module StageProps.
Import Pipeline Parser ParseTurn Execute Child Stage.

Lemma setargs_stages : forall a, setargs a = map chain_argv (stages a).
Proof.
  induction a as [|t v l IHl r _]; [reflexivity|].
  cbn [setargs stages]. destruct (ASTNodeType_eqb t OP_PIPE); [|reflexivity].
  now rewrite map_app, IHl.
Qed.

(** *** Appending keeps a file after each redirect node *)

Lemma file_follows_set_last_right : forall temp right,
  temp <> NULL ->
  file_follows temp = true -> file_follows right = true ->
  file_follows (set_last_right temp right) = true.
Proof.
  induction temp as [|t v l _ r IHr]; intros right Hne Ht Hr; [congruence|].
  cbn [file_follows] in Ht.
  apply andb_prop in Ht as [Hlr Hred]. apply andb_prop in Hlr as [Hl Hrr].
  destruct r as [|t' v' l' r'].
  - cbn [set_last_right file_follows]. rewrite Hl, Hr.
    destruct (is_redirect t); [discriminate|reflexivity].
  - change (set_last_right (Node t v l (Node t' v' l' r')) right)
      with (Node t v l (set_last_right (Node t' v' l' r') right)).
    cbn [file_follows]. rewrite Hl.
    rewrite (IHr right) by (first [discriminate|assumption]).
    cbn [andb]. destruct r'; exact Hred.
Qed.

Lemma file_follows_AST_append ret node :
  file_follows ret = true -> file_follows node = true ->
  file_follows (AST_append ret node) = true.
Proof.
  intros Hret Hnode.
  destruct node as [|tn vn ln rn] eqn:Hn; [exact Hret|]. rewrite <- Hn in *.
  destruct ret as [|t v l r] eqn:Hr; [subst node; exact Hnode|].
  rewrite <- Hr in *.
  rewrite PipelineProps.AST_append_set_last_right by (subst; discriminate).
  apply file_follows_set_last_right; [subst; discriminate|assumption..].
Qed.

Lemma file_follows_append_paths : forall pathv ret,
  file_follows ret = true -> file_follows (append_paths ret pathv) = true.
Proof.
  induction pathv as [|path pathv IH]; intros ret Hret; cbn [append_paths];
    [assumption|].
  apply IH. now apply file_follows_AST_append.
Qed.

Lemma file_follows_paths path pathv :
  file_follows (append_paths NULL (path :: pathv)) = true
  /\ exists r, append_paths NULL (path :: pathv) = Node WORD (Some path) NULL r.
Proof.
  split.
  - now apply file_follows_append_paths.
  - cbn [append_paths AST_append]. apply ParserProps.append_paths_root.
Qed.

Section WithGlob.

Variable glob : string -> Z * list string.

Lemma Parse_loop_follows : forall n tokens ret rin rout a msg,
  (List.length tokens <= n)%nat ->
  file_follows ret = true ->
  Parse_loop glob tokens ret rin rout = Returns a msg ->
  file_follows a = true.
Proof.
  induction n as [|n IH]; intros tokens ret rin rout a msg Hlen Hret Hrun;
    (destruct tokens as [|token tokens1];
     [injection Hrun as <- _; assumption|]);
    [simpl in Hlen; lia|].
  simpl in Hlen.
  destruct (ParseTurnProps.Parse_loop_turn glob token tokens1 ret rin rout)
    as (t & Hturn & Heq & Hshort).
  rewrite Heq in Hrun.
  inversion Hturn; subst; cbn [resume] in Hrun; try discriminate Hrun;
    try (injection Hrun as <- _; first [assumption | reflexivity]);
    (eapply IH; [|
       |exact Hrun]; [specialize (Hshort _ _ _ _ eq_refl); lia|]).
  - now apply file_follows_AST_append.
  - now apply file_follows_append_paths.
  - apply file_follows_AST_append; [assumption|].
    destruct (file_follows_paths path pathv) as [Hff [r' Hroot]].
    cbn [file_follows]. rewrite Hff, Hroot. cbn [andb isword ASTNodeType_eqb orb].
    now destruct (is_redirect op).
  - cbn [file_follows]. rewrite Hret. reflexivity.
  - cbn [file_follows]. rewrite Hret.
    destruct (file_follows_paths path pathv) as [-> _]. reflexivity.
Qed.

End WithGlob.

(** *** What each stage inherits from the tree *)

Lemma stages_ok : forall a,
  pipeline_tree a = true -> file_follows a = true -> words_plain a = true ->
  (count_type OP_LESSTHAN a <= 1)%nat ->
  (count_type OP_GREATERTHAN a <= 1)%nat ->
  Forall stage_ok (stages a).
Proof.
  induction a as [|t v l IHl r _]; intros Htree Hff Hplain Hlt Hgt;
    [constructor|].
  destruct (ASTNodeType_eqb t OP_PIPE) eqn:Hpipe.
  - destruct t; try discriminate.
    cbn [pipeline_tree file_follows words_plain count_type stages
         ASTNodeType_eqb isword is_redirect orb] in *.
    apply andb_prop in Htree as [Htl Hcr].
    rewrite andb_true_r in Hff. apply andb_prop in Hff as [Hfl Hfr].
    apply andb_prop in Hplain as [Hpl Hpr]. cbn [andb] in Hpl.
    apply Forall_app. split.
    + apply IHl; try assumption; lia.
    + constructor; [|constructor]. unfold stage_ok. repeat split; try assumption; lia.
  - cbn [stages]. rewrite Hpipe.
    assert (Hc : command (Node t v l r) = true)
      by (destruct t; try discriminate; exact Htree).
    constructor; [|constructor]. unfold stage_ok. auto.
Qed.

(** *** The arguments of one stage *)

Lemma redirections_cons_word w args infile outfile stripped :
  is_operator w = false ->
  redirections args infile outfile stripped ->
  redirections (w :: args) infile outfile (w :: stripped).
Proof.
  intros Hw [a Hp|a f b Hp|a g b Hp|a f b g c Hp|a g b f c Hp].
  - apply (no_redirection (w :: a)). now apply ChildProps.plain_cons.
  - apply (input_only (w :: a) f b). now apply ChildProps.plain_cons.
  - apply (output_only (w :: a) g b). now apply ChildProps.plain_cons.
  - apply (input_then_output (w :: a) f b g c). now apply ChildProps.plain_cons.
  - apply (output_then_input (w :: a) g b f c). now apply ChildProps.plain_cons.
Qed.

Lemma redirections_cons_input f args infile outfile stripped :
  is_operator f = false -> infile = None ->
  redirections args infile outfile stripped ->
  redirections ("<"%string :: f :: args) (Some f) outfile stripped.
Proof.
  intros Hf Hnone Hshape.
  destruct Hshape as [a Hp|a f' b Hp|a g b Hp|a f' b g c Hp|a g b f' c Hp];
    try discriminate Hnone.
  - apply (input_only [] f a). now apply ChildProps.plain_cons.
  - apply (input_then_output [] f a g b). now apply ChildProps.plain_cons.
Qed.

Lemma redirections_cons_output g args infile outfile stripped :
  is_operator g = false -> outfile = None ->
  redirections args infile outfile stripped ->
  redirections (">"%string :: g :: args) infile (Some g) stripped.
Proof.
  intros Hg Hnone Hshape.
  destruct Hshape as [a Hp|a f b Hp|a g' b Hp|a f b g' c Hp|a g' b f c Hp];
    try discriminate Hnone.
  - apply (output_only [] g a). now apply ChildProps.plain_cons.
  - apply (output_then_input [] g a f b). now apply ChildProps.plain_cons.
Qed.

(** The entries of an argument chain, with the file and the rest of each
    redirection. *)
Lemma chain_redirections : forall n r,
  (AST_countnodes r <= n)%nat ->
  arguments r = true -> file_follows r = true -> words_plain r = true ->
  (count_type OP_LESSTHAN r <= 1)%nat ->
  (count_type OP_GREATERTHAN r <= 1)%nat ->
  exists args infile outfile stripped,
    chain_entries r = map Some args
    /\ redirections args infile outfile stripped
    /\ (count_type OP_LESSTHAN r = 0%nat -> infile = None)
    /\ (count_type OP_GREATERTHAN r = 0%nat -> outfile = None).
Proof.
  induction n as [|n IH]; intros r Hn Hargs Hff Hplain Hlt Hgt;
    (destruct r as [|t v l r];
     [exists [], None, None, [];
      split; [reflexivity|]; split; [apply no_redirection; constructor|];
      split; reflexivity|]);
    [cbn [AST_countnodes] in Hn; lia|].
  cbn [arguments file_follows words_plain] in Hargs, Hff, Hplain.
  apply andb_prop in Hargs as [Hargs Har]. apply andb_prop in Hargs as [Hnp Hv].
  apply andb_prop in Hff as [Hff Hfile]. apply andb_prop in Hff as [Hfl Hfr].
  apply andb_prop in Hplain as [Hplain Hpr]. apply andb_prop in Hplain as [Hw Hpl].
  cbn [AST_countnodes count_type] in Hn, Hlt, Hgt.
  destruct (isword t) eqn:Hword.
  - (* a word *)
    destruct v as [s|]; [|discriminate]. apply negb_true_iff in Hw.
    destruct (IH r) as (args & infile & outfile & stripped & He & Hshape & Hi & Ho);
      try assumption; try lia.
    exists (s :: args), infile, outfile, (s :: stripped).
    split; [cbn [chain_entries]; rewrite Hword, He; reflexivity|].
    split; [now apply redirections_cons_word|].
    cbn [count_type].
    split; intros Hz; [apply Hi|apply Ho]; lia.
  - (* an operator, then its file *)
    destruct t; try discriminate; cbn [is_redirect ASTNodeType_eqb orb] in Hfile;
      (destruct r as [|t' [f|] l' r']; try discriminate;
       [|cbn [arguments] in Har; rewrite Hfile in Har;
         rewrite andb_false_r in Har; discriminate]);
      cbn [arguments file_follows words_plain] in Har, Hfr, Hpr;
      rewrite Hfile in Hpr;
      apply andb_prop in Har as [_ Har];
      apply andb_prop in Hfr as [Hfr _]; apply andb_prop in Hfr as [_ Hfr];
      apply andb_prop in Hpr as [Hpr Hpr']; apply andb_prop in Hpr as [Hf _];
      apply negb_true_iff in Hf;
      cbn [AST_countnodes count_type ASTNodeType_eqb] in Hn, Hlt, Hgt;
      (destruct (IH r') as (args & infile & outfile & stripped & He & Hshape & Hi & Ho);
       try assumption; try lia).
    + exists ("<"%string :: f :: args), (Some f), outfile, stripped.
      split; [cbn [chain_entries isword ASTNodeType_eqb orb app];
              rewrite Hfile, He; reflexivity|].
      split; [apply (redirections_cons_input f args infile); auto; apply Hi; lia|].
      cbn [count_type ASTNodeType_eqb].
      split; intros Hz; [lia|apply Ho; lia].
    + exists (">"%string :: f :: args), infile, (Some f), stripped.
      split; [cbn [chain_entries isword ASTNodeType_eqb orb app];
              rewrite Hfile, He; reflexivity|].
      split; [apply (redirections_cons_output f args infile outfile); auto; apply Ho; lia|].
      cbn [count_type ASTNodeType_eqb].
      split; intros Hz; [apply Hi; lia|lia].
Qed.

Lemma stage_redirections c :
  stage_ok c ->
  exists name args infile outfile stripped,
    chain_argv c = array name args
    /\ redirections args infile outfile stripped.
Proof.
  intros (Hc & Hff & Hplain & Hlt & Hgt).
  destruct c as [|t [name|] l r]; try discriminate.
  cbn [command] in Hc. apply andb_prop in Hc as [Hword Har].
  cbn [file_follows words_plain count_type] in Hff, Hplain, Hlt, Hgt.
  apply andb_prop in Hff as [Hff _]. apply andb_prop in Hff as [_ Hfr].
  apply andb_prop in Hplain as [_ Hpr].
  destruct (chain_redirections (AST_countnodes r) r (le_n _) Har Hfr Hpr)
    as (args & infile & outfile & stripped & He & Hshape & _); try lia.
  exists name, args, infile, outfile, stripped. split; [|exact Hshape].
  unfold chain_argv, array. cbn [chain_entries]. rewrite Hword, He. reflexivity.
Qed.

Section Parsed.

Variable glob : string -> Z * list string.

(** X27.  Every argument array of a tree that [Parse] returns has its
    redirections in the place where the child looks for them, provided no
    word of the tree is itself the text [<] or [>]: after the command name
    come plain words, with at most one [<] and at most one [>], each
    followed by its file.  So the statements about the child hold for every
    stage of every parsed line. *)
Theorem parsed_stages_have_redirections tokens a msg :
  Parse glob tokens = Returns a msg ->
  a <> NULL ->
  words_plain a = true ->
  Forall (fun argv =>
            exists name args infile outfile stripped,
              argv = array name args
              /\ redirections args infile outfile stripped)
         (setargs a).
Proof.
  intros Hrun Hne Hplain.
  destruct (ParseTurnProps.Parse_loop_tree glob (List.length tokens) tokens
              NULL 0 0 a msg (le_n _) (or_introl eq_refl) Hrun) as [Hnull|Htree];
    [contradiction|].
  pose proof (Parse_loop_follows glob (List.length tokens) tokens NULL 0 0 a msg
                (le_n _) eq_refl Hrun) as Hff.
  destruct (ParserProps.Parse_loop_counts glob (List.length tokens) tokens
              NULL 0 0 a msg (le_n _)) as [Hlt Hgt];
    [unfold counters_ok; simpl; lia|exact Hrun|].
  rewrite setargs_stages. apply Forall_map.
  eapply Forall_impl; [|exact (stages_ok a Htree Hff Hplain Hlt Hgt)].
  intros c Hc. exact (stage_redirections c Hc).
Qed.

End Parsed.

Lemma parsed_stages_have_redirections_witness :
  Forall (fun argv =>
            exists name args infile outfile stripped,
              argv = array name args
              /\ redirections args infile outfile stripped)
         [[Some "sort"; Some "<"; Some "in"; None];
          [Some "wc"; Some ">"; Some "out"; None]]%string.
Proof.
  exact (parsed_stages_have_redirections glob_nocheck tokens_example
           (Node OP_PIPE None
              (ast_word "sort" (ast_redirect OP_LESSTHAN (ast_word "in" NULL)))
              (ast_word "wc" (ast_redirect OP_GREATERTHAN (ast_word "out" NULL))))
           "" eq_refl ltac:(discriminate) eq_refl).
Defined.

End StageProps.
